(** * space-wrapper: the protect / normalize / restore pipeline

    A shallow embedding of the text pipeline of [script.js] (the plain
    variant, module [Script]) and of its structure-aware sibling (module
    [Structured]), together with the JavaScript string and regular
    expression operations both are written with. *)

From Stdlib Require Import String Ascii DecimalString DecimalN DecimalPos.
From Stdlib Require Import NArith Arith Bool List Lia Permutation Sorted.
Import ListNotations.

Set Implicit Arguments.

(** ** JavaScript strings

    A JavaScript string is a sequence of UTF-16 code units. *)

Definition char := N.
Bind Scope N_scope with char.
Definition jstring := list char.

(** ASCII literal to code units. *)
Definition js (s : string) : jstring := map N_of_ascii (list_ascii_of_string s).

Definition NL : char := 10%N.
Definition CR : char := 13%N.
Definition TAB : char := 9%N.
Definition SP : char := 32%N.
Definition NBSP : char := 160%N.

Definition inRange (lo hi c : N) : bool := (lo <=? c)%N && (c <=? hi)%N.
Definition oneOf (l : list N) (c : N) : bool := existsb (N.eqb c) l.

(** LineTerminator: LF, CR, LS, PS. *)
Definition isLineTerminator (c : char) : bool := oneOf [10; 13; 8232; 8233]%N c.

(** WhiteSpace: TAB, VT, FF, ZWNBSP and the space separators. *)
Definition isWhiteSpace (c : char) : bool :=
  oneOf [9; 11; 12; 32; 160; 5760; 8239; 8287; 12288; 65279]%N c
  || inRange 8192 8202 c.

(** The class [\s], which is also what [trim] strips. *)
Definition isSpace (c : char) : bool := isWhiteSpace c || isLineTerminator c.

Definition isDigit (c : char) : bool := inRange 48 57 c.
Definition isUpper (c : char) : bool := inRange 65 90 c.
Definition isLower (c : char) : bool := inRange 97 122 c.
Definition isAlpha (c : char) : bool := isUpper c || isLower c.

(** The class [\w]. *)
Definition isWordChar (c : char) : bool := isAlpha c || isDigit c || N.eqb c 95.

Definition toLower (c : char) : char := if isUpper c then (c + 32)%N else c.
Definition toUpper (c : char) : char := if isLower c then (c - 32)%N else c.

Fixpoint jeqb (a b : jstring) : bool :=
  match a, b with
  | [], [] => true
  | x :: a', y :: b' => N.eqb x y && jeqb a' b'
  | _, _ => false
  end.

Fixpoint isPrefix (p s : jstring) : bool :=
  match p, s with
  | [], _ => true
  | x :: p', y :: s' => N.eqb x y && isPrefix p' s'
  | _ :: _, [] => false
  end.

(** [String.prototype.includes]. *)
Fixpoint includes (s p : jstring) : bool :=
  isPrefix p s || match s with [] => false | _ :: s' => includes s' p end.

Fixpoint trimStart (s : jstring) : jstring :=
  match s with
  | c :: s' => if isSpace c then trimStart s' else s
  | [] => []
  end.

Definition trimEnd (s : jstring) : jstring := rev (trimStart (rev s)).
Definition trim (s : jstring) : jstring := trimEnd (trimStart s).

(** JavaScript truthiness of a string: non-empty. *)
Definition truthy (s : jstring) : bool := match s with [] => false | _ => true end.

(** [Array.prototype.join]. *)
Fixpoint join (sep : jstring) (l : list jstring) : jstring :=
  match l with
  | [] => []
  | [x] => x
  | x :: l' => x ++ sep ++ join sep l'
  end.

(** [s.split('\n')]: split at every occurrence of one code unit. *)
Fixpoint splitOn (d : char) (s : jstring) : list jstring :=
  match s with
  | [] => [[]]
  | c :: s' =>
      if N.eqb c d then [] :: splitOn d s'
      else match splitOn d s' with
           | l :: ls => (c :: l) :: ls
           | [] => [[c]]
           end
  end.

(** Decimal rendering of a number inside a template literal. *)
Definition decimal (n : N) : jstring := js (NilZero.string_of_uint (N.to_uint n)).

(** ** Regular expressions

    The fragment of the regular expression language the source uses, with
    the backtracking semantics of the language: alternatives and
    iterations are tried in priority order and the first overall match
    wins. *)

Inductive regex : Type :=
| Empty
| Chr (p : char -> bool)          (* one code unit of a class *)
| Seq (r1 r2 : regex)
| Alt (r1 r2 : regex)
| Star (greedy : bool) (r : regex)
| Bol                             (* ^ under the m flag *)
| Eol                             (* $ under the m flag *)
| WordB                           (* \b *)
| Group (n : nat) (r : regex)     (* capturing group number n *)
| Backref (ci : bool) (n : nat).  (* \n *)

(** Matcher state: the text before the current position (reversed), the
    text after it, and the captures made so far. *)
Record mstate : Type := MState {
  before : jstring;
  after : jstring;
  caps : list (nat * jstring)
}.

Definition start (s : jstring) : mstate := MState [] s [].

Definition advance (st : mstate) : mstate :=
  match after st with
  | c :: rest => MState (c :: before st) rest (caps st)
  | [] => st
  end.

Fixpoint advanceBy (n : nat) (st : mstate) : mstate :=
  match n with
  | O => st
  | S n' => advanceBy n' (advance st)
  end.

(** The text consumed between two states of one match. *)
Definition consumed (st st' : mstate) : jstring :=
  firstn (length (after st) - length (after st')) (after st).

Fixpoint getCap (n : nat) (cs : list (nat * jstring)) : option jstring :=
  match cs with
  | [] => None
  | (m, s) :: cs' => if Nat.eqb m n then Some s else getCap n cs'
  end.

Definition atWord (o : option char) : bool :=
  match o with Some c => isWordChar c | None => false end.

Definition canon (ci : bool) (c : char) : char := if ci then toUpper c else c.

Fixpoint isPrefixCi (ci : bool) (p s : jstring) : bool :=
  match p, s with
  | [], _ => true
  | x :: p', y :: s' => N.eqb (canon ci x) (canon ci y) && isPrefixCi ci p' s'
  | _ :: _, [] => false
  end.

(** Iteration of a starred body: at most one iteration per remaining code
    unit, since an iteration that consumes nothing is rejected, as in the
    language. *)
Fixpoint starLoop (body : mstate -> (mstate -> option mstate) -> option mstate)
  (greedy : bool) (k : mstate -> option mstate) (n : nat) (st : mstate)
  {struct n} : option mstate :=
  match n with
  | O => k st
  | S n' =>
      let again st' :=
        if length (after st') <? length (after st)
        then starLoop body greedy k n' st' else None in
      if greedy then
        match body st again with
        | Some x => Some x
        | None => k st
        end
      else
        match k st with
        | Some x => Some x
        | None => body st again
        end
  end.

(** [mt r st k]: match [r] at [st], then continue with [k]; [None] makes
    the matcher backtrack. *)
Fixpoint mt (r : regex) (st : mstate) (k : mstate -> option mstate)
  {struct r} : option mstate :=
  match r with
  | Empty => k st
  | Chr p =>
      match after st with
      | c :: _ => if p c then k (advance st) else None
      | [] => None
      end
  | Seq r1 r2 => mt r1 st (fun st1 => mt r2 st1 k)
  | Alt r1 r2 =>
      match mt r1 st k with
      | Some x => Some x
      | None => mt r2 st k
      end
  | Star greedy r1 => starLoop (mt r1) greedy k (length (after st)) st
  | Bol =>
      match before st with
      | [] => k st
      | c :: _ => if isLineTerminator c then k st else None
      end
  | Eol =>
      match after st with
      | [] => k st
      | c :: _ => if isLineTerminator c then k st else None
      end
  | WordB =>
      if xorb (atWord (hd_error (before st))) (atWord (hd_error (after st)))
      then k st else None
  | Group n r1 =>
      mt r1 st (fun st' =>
        k (MState (before st') (after st') ((n, consumed st st') :: caps st')))
  | Backref ci n =>
      match getCap n (caps st) with
      | None => k st
      | Some s =>
          if isPrefixCi ci s (after st) then k (advanceBy (length s) st)
          else None
      end
  end.

(** One match attempt at the current position ([lastIndex] semantics);
    captures are fresh for each attempt. *)
Definition exec (r : regex) (st : mstate) : option mstate :=
  mt r (MState (before st) (after st) []) Some.

(** The regular expression of a literal string, and the usual derived
    forms. *)
Definition chr (c : char) : regex := Chr (N.eqb c).
Definition lit (s : jstring) : regex := fold_right (fun c r => Seq (chr c) r) Empty s.
Definition plus (r : regex) : regex := Seq r (Star true r).
Definition opt (r : regex) : regex := Alt r Empty.
Fixpoint seqs (l : list regex) : regex :=
  match l with
  | [] => Empty
  | [r] => r
  | r :: l' => Seq r (seqs l')
  end.
(** [r{1,n}] *)
Fixpoint upTo (n : nat) (r : regex) : regex :=
  match n with
  | O => Empty
  | S O => r
  | S n' => Seq r (opt (upTo n' r))
  end.

(** Character classes. *)
Definition neg (p : char -> bool) (c : char) : bool := negb (p c).
Definition orC (p q : char -> bool) (c : char) : bool := p c || q c.
(** A class under the i flag: a code unit matches when one of its ASCII
    case variants is in the class. *)
Definition ci (p : char -> bool) (c : char) : bool := p c || p (toLower c) || p (toUpper c).
Definition anyChar (c : char) : bool := true.
(** [.] *)
Definition dot (c : char) : bool := negb (isLineTerminator c).

(** ** Global replacement and splitting *)

(** [s.replace(/r/g, f)]: every match, left to right, is replaced by what
    the callback returns for it; the callback sees the text before the
    match, the match and the text after it, and may update a state.  An
    empty match advances by one code unit.  Every step moves at least one
    code unit forward, so the fuel [replaceWith] gives, one more than the
    length of the text, is never used up. *)
Fixpoint replaceLoop (S : Type) (fuel : nat) (r : regex)
  (f : S -> jstring -> jstring -> jstring -> S * jstring)
  (s : S) (st : mstate) : S * jstring :=
  match fuel with
  | O => (s, after st)
  | Datatypes.S fuel' =>
      match exec r st with
      | Some st' =>
          let m := consumed st st' in
          let (s1, rep) := f s (rev (before st)) m (after st') in
          match m, after st with
          | [], [] => (s1, rep)
          | [], c :: _ =>
              let (s2, out) := replaceLoop fuel' r f s1 (advance st) in
              (s2, rep ++ c :: out)
          | _ :: _, _ =>
              let (s2, out) := replaceLoop fuel' r f s1 st' in
              (s2, rep ++ out)
          end
      | None =>
          match after st with
          | [] => (s, [])
          | c :: _ =>
              let (s2, out) := replaceLoop fuel' r f s (advance st) in
              (s2, c :: out)
          end
      end
  end.

Definition replaceWith (S : Type) (r : regex)
  (f : S -> jstring -> jstring -> jstring -> S * jstring)
  (s : S) (text : jstring) : S * jstring :=
  replaceLoop (Datatypes.S (length text)) r f s (start text).

(** The replacement patterns of a replacement string, for a regular
    expression without capturing groups: [$$], [$&], [$`] and [$']; any
    other [$] stands for itself. *)
Fixpoint getSubstitution (matched pre post repl : jstring) : jstring :=
  match repl with
  | [] => []
  | c :: rest =>
      if N.eqb c 36 then
        match rest with
        | d :: rest' =>
            if N.eqb d 36 then 36%N :: getSubstitution matched pre post rest'
            else if N.eqb d 38 then matched ++ getSubstitution matched pre post rest'
            else if N.eqb d 96 then pre ++ getSubstitution matched pre post rest'
            else if N.eqb d 39 then post ++ getSubstitution matched pre post rest'
            else c :: getSubstitution matched pre post rest
        | [] => [c]
        end
      else c :: getSubstitution matched pre post rest
  end.

(** [s.replace(/r/g, repl)] with a replacement string. *)
Definition replaceStr (r : regex) (repl : jstring) (text : jstring) : jstring :=
  snd (replaceWith r (fun (u : unit) pre m post => (u, getSubstitution m pre post repl)) tt text).

(** [s.split(/r/)] for a regular expression without capturing groups:
    [p] is the start of the current piece (kept as the piece read so far,
    reversed), the scan position moves one code unit at a time and a match
    that ends where the piece starts is skipped.  A position is visited
    at most twice, so the fuel [splitRe] gives is never used up. *)
Fixpoint splitLoop (fuel : nat) (r : regex) (piece : jstring) (st : mstate)
  : list jstring :=
  match fuel with
  | O => [rev piece ++ after st]
  | S fuel' =>
      match after st with
      | [] => [rev piece]
      | c :: _ =>
          match exec r st with
          | Some st' =>
              match consumed st st', piece with
              | [], [] => splitLoop fuel' r (c :: piece) (advance st)
              | _, _ => rev piece :: splitLoop fuel' r [] st'
              end
          | None => splitLoop fuel' r (c :: piece) (advance st)
          end
      end
  end.

Definition splitRe (r : regex) (text : jstring) : list jstring :=
  match text with
  | [] => match exec r (start []) with Some _ => [] | None => [[]] end
  | _ => splitLoop (S (2 * length text)) r [] (start text)
  end.

(** ** The page state

    The fields of the [SpaceWrapper] object and of the page elements it
    writes to.  Both source files share this part. *)

Record indicator : Type := Indicator {
  isMatch : bool;          (* the check mark or the cross *)
  title : jstring
}.

Definition pmap := list (jstring * jstring).

Record app : Type := App {
  inputText : jstring;
  outputText : jstring;
  copyDisabled : bool;
  mode : string;
  protectedMap : pmap;     (* a Map: keys in insertion order *)
  nextTokenId : N;
  warningShown : bool;
  warningText : jstring;
  outputWordCount : jstring;
  outputCharCount : jstring;
  lineBreaksRemoved : jstring;
  wordMatch : indicator;
  charMatch : indicator;
  contentMatch : indicator
}.

(** The part of the state the pipeline itself reads and writes. *)
Record prot : Type := Prot {
  pm : pmap;
  nextId : N
}.

(** [Map.prototype.set]: an existing key keeps its place. *)
Fixpoint mapSet (k v : jstring) (m : pmap) : pmap :=
  match m with
  | [] => [(k, v)]
  | (k', v') :: m' => if jeqb k' k then (k, v) :: m' else (k', v') :: mapSet k v m'
  end.

(** [/\n\s*\n/] *)
Definition blankLineRe : regex := seqs [chr NL; Star true (Chr isSpace); chr NL].

(** [/[ ]+/] *)
Definition spacesRe : regex := plus (chr SP).

(** [/\s+/] *)
Definition wsRe : regex := plus (Chr isSpace).

(** [splitIntoBatches] *)
Definition splitIntoBatches (text : jstring) : list jstring :=
  filter (fun batch => truthy (trim batch)) (splitRe blankLineRe text).

(** [escapeRegExp]: a backslash before every metacharacter. *)
Definition isMeta (c : char) : bool :=
  oneOf [46; 42; 43; 63; 94; 36; 123; 125; 40; 41; 124; 91; 93; 92]%N c.

Definition escapeRegExp (s : jstring) : jstring :=
  replaceStr (Chr isMeta) [92; 36; 38]%N s.

(** [new RegExp(escaped, 'g')] on the result of [escapeRegExp]: every
    code unit, escaped or not, stands for itself. *)
Fixpoint regExpOfEscaped (s : jstring) : regex :=
  match s with
  | [] => Empty
  | c :: rest =>
      if N.eqb c 92 then
        match rest with
        | d :: rest' => Seq (chr d) (regExpOfEscaped rest')
        | [] => Empty
        end
      else Seq (chr c) (regExpOfEscaped rest)
  end.

(** Number of words: [t.trim() ? t.trim().split(/\s+/).length : 0]. *)
Definition wordCount (t : jstring) : nat :=
  if truthy (trim t) then length (splitRe wsRe (trim t)) else 0.

Definition natStr (n : nat) : jstring := decimal (N.of_nat n).

(** [updateOutputStats] *)
Definition updateOutputStats (original processed : jstring) (a : app) : app :=
  let processedWords := wordCount processed in
  let processedChars := length processed in
  let originalLines := length (splitOn NL original) in
  let processedLines := length (splitOn NL processed) in
  let linesRemoved := originalLines - processedLines in
  App (inputText a) (outputText a) (copyDisabled a) (mode a)
      (protectedMap a) (nextTokenId a) (warningShown a) (warningText a)
      (js "Words: " ++ natStr processedWords)
      (js "Chars: " ++ natStr processedChars)
      (js "Line breaks removed: " ++ natStr linesRemoved)
      (wordMatch a) (charMatch a) (contentMatch a).

(** The string iterator: code points, a surrogate pair being one element. *)
Definition isHighSurrogate (c : char) : bool := inRange 55296 56319 c.
Definition isLowSurrogate (c : char) : bool := inRange 56320 57343 c.

Fixpoint codePoints (s : jstring) : list jstring :=
  match s with
  | [] => []
  | c :: rest =>
      match rest with
      | d :: rest' =>
          if isHighSurrogate c && isLowSurrogate d
          then [c; d] :: codePoints rest'
          else [c] :: codePoints rest
      | [] => [[c]]
      end
  end.

(** [Set]: distinct elements in insertion order. *)
Definition setHas (s : list jstring) (x : jstring) : bool := existsb (jeqb x) s.
Definition setAdd (s : list jstring) (x : jstring) : list jstring :=
  if setHas s x then s else s ++ [x].
Definition newSet (s : jstring) : list jstring := fold_left setAdd (codePoints s) [].

(** The [for ... of] loop with its [break]. *)
Fixpoint allIn (originalSet processedSet : list jstring) : bool :=
  match originalSet with
  | [] => true
  | ch :: rest => if setHas processedSet ch then allIn rest processedSet else false
  end.

Definition updateVerificationIndicator (element : indicator) (ok : bool)
  (warning : jstring) : indicator :=
  if ok then Indicator true (title element) else Indicator false warning.

Definition showWarning (message : jstring) (a : app) : app :=
  App (inputText a) (outputText a) (copyDisabled a) (mode a)
      (protectedMap a) (nextTokenId a) true message
      (outputWordCount a) (outputCharCount a) (lineBreaksRemoved a)
      (wordMatch a) (charMatch a) (contentMatch a).

(** The three checks of [verifyContentIntegrity]. *)
Definition nonSpace (t : jstring) : jstring := replaceStr wsRe [] t.

Definition wordsAgree (original processed : jstring) : bool :=
  Nat.eqb (wordCount original) (wordCount processed).

Definition charsAgree (original processed : jstring) : bool :=
  Nat.eqb (length (nonSpace original)) (length (nonSpace processed)).

Definition contentVerified (original processed : jstring) : bool :=
  if charsAgree original processed
  then allIn (newSet (nonSpace original)) (newSet (nonSpace processed))
  else false.

(** [verifyContentIntegrity] *)
Definition verifyContentIntegrity (original processed : jstring) (a : app) : app :=
  let wordOk := wordsAgree original processed in
  let charOk := charsAgree original processed in
  let contentOk := contentVerified original processed in
  let a1 :=
    App (inputText a) (outputText a) (copyDisabled a) (mode a)
        (protectedMap a) (nextTokenId a) (warningShown a) (warningText a)
        (outputWordCount a) (outputCharCount a) (lineBreaksRemoved a)
        (updateVerificationIndicator (wordMatch a) wordOk (js "Word count mismatch"))
        (updateVerificationIndicator (charMatch a) charOk (js "Character count mismatch"))
        (updateVerificationIndicator (contentMatch a) contentOk
           (js "Content alteration detected")) in
  if negb wordOk || negb charOk || negb contentOk
  then showWarning (js "Content verification failed. Review output carefully.") a1
  else a1.

(** Literals under the i flag. *)
Definition chrI (c : char) : regex := Chr (ci (N.eqb c)).
Definition litI (s : jstring) : regex := seqs (map chrI s).

Definition notSpace : char -> bool := neg isSpace.

(** [/(https?:\/\/[^\s]+|www\.[^\s]+\.[^\s]+)/gi] *)
Definition urlRe : regex :=
  Group 1 (Alt
    (seqs [litI (js "http"); opt (chrI 115); lit (js "://"); plus (Chr notSpace)])
    (seqs [litI (js "www"); chr 46; plus (Chr notSpace); chr 46; plus (Chr notSpace)])).

(** [/\b[\w.%+-]+@[\w.-]+\.[a-zA-Z]{2,}\b/gi] *)
Definition emailRe : regex :=
  seqs [WordB;
        plus (Chr (ci (orC isWordChar (oneOf [46; 37; 43; 45]%N))));
        chr 64;
        plus (Chr (ci (orC isWordChar (oneOf [46; 45]%N))));
        chr 46;
        Chr (ci isAlpha); Chr (ci isAlpha); Star true (Chr (ci isAlpha));
        WordB].

(** [/`([^`]+)`/g] *)
Definition inlineCodeRe : regex :=
  seqs [chr 96; Group 1 (plus (Chr (neg (N.eqb 96)))); chr 96].

(** [/(?:[a-zA-Z]:)?(?:[\\\/][\w\s\.-]+)+/g] *)
Definition filePathRe : regex :=
  Seq (opt (Seq (Chr isAlpha) (chr 58)))
      (plus (Seq (Chr (oneOf [92; 47]%N))
                 (plus (Chr (orC isWordChar (orC isSpace (oneOf [46; 45]%N))))))).

(** The class of [normalizeWhitespace]:
    [[\t\r\f\v\u00A0\u1680\u2000-\u200A\u2028\u2029\u202F\u205F\u3000]] *)
Definition unicodeSpace (c : char) : bool :=
  oneOf [9; 13; 12; 11; 160; 5760; 8232; 8233; 8239; 8287; 12288]%N c
  || inRange 8192 8202 c.

(** Restoration of one table entry: every occurrence of the token is
    replaced, the original being used as a replacement string. *)
Definition restoreOne (restored : jstring) (entry : jstring * jstring) : jstring :=
  replaceStr (regExpOfEscaped (escapeRegExp (fst entry))) (snd entry) restored.

(** ** script.js *)

Module Script.

Definition patterns : list regex := [urlRe; emailRe; inlineCodeRe; filePathRe].

(** The callback of [protectContent]. *)
Definition protectMatch (p : prot) (m : jstring) : prot * jstring :=
  if includes m (js "__PROTECTED_") then (p, m)
  else
    let token := js "__PROTECTED_" ++ decimal (nextId p) ++ js "__" in
    (Prot (mapSet token m (pm p)) (nextId p + 1), token).

Definition protectContent (text : jstring) (p : prot) : prot * jstring :=
  fold_left
    (fun (acc : prot * jstring) pattern =>
       replaceWith pattern (fun q _ m _ => protectMatch q m) (fst acc) (snd acc))
    patterns (p, text).

(** [Map.prototype.forEach]: insertion order. *)
Definition restoreProtectedContent (text : jstring) (m : pmap) : jstring :=
  fold_left restoreOne m text.

Definition normalizeWhitespace (text : jstring) : jstring :=
  let normalized := replaceStr (Chr unicodeSpace) [SP] text in
  let normalized := replaceStr spacesRe [SP] normalized in
  replaceStr (chr CR) [NL] (replaceStr (lit [CR; NL]) [NL] normalized).

Definition processModeA (text : jstring) : jstring :=
  let processed := replaceStr (chr NL) [SP] text in
  let processed := replaceStr spacesRe [SP] processed in
  trim processed.

Definition processModeB (text : jstring) : jstring :=
  let paragraphs := filter (fun p => truthy (trim p)) (splitRe blankLineRe text) in
  let processedParagraphs :=
    map (fun paragraph =>
           let processed := replaceStr (chr NL) [SP] paragraph in
           let processed := replaceStr spacesRe [SP] processed in
           trim processed) paragraphs in
  join [NL; NL] processedParagraphs.

Definition processModeC (text : jstring) : jstring :=
  let processed := replaceStr (chr NL) [] text in
  let processed := replaceStr wsRe [SP] processed in
  trim processed.

Definition finalCleanup (text : jstring) : jstring :=
  trim (replaceStr spacesRe [SP] text).

(** The [switch] on [this.mode]. *)
Definition applyMode (m : string) (normalized : jstring) : jstring :=
  if String.eqb m "A" then processModeA normalized
  else if String.eqb m "B" then processModeB normalized
  else if String.eqb m "C" then processModeC normalized
  else normalized.

Definition processBatch (m : string) (batch : jstring) (p : prot) : prot * jstring :=
  let (p1, protectedText) := protectContent batch p in
  let normalized := normalizeWhitespace protectedText in
  let processed := applyMode m normalized in
  let restored := restoreProtectedContent processed (pm p1) in
  (p1, finalCleanup restored).

(** [batches.map(batch => this.processBatch(batch))], the table and the
    counter being shared by the batches. *)
Fixpoint processBatches (m : string) (batches : list jstring) (p : prot)
  : prot * list jstring :=
  match batches with
  | [] => (p, [])
  | batch :: rest =>
      let (p1, out) := processBatch m batch p in
      let (p2, outs) := processBatches m rest p1 in
      (p2, out :: outs)
  end.

(** The output of a run on a non-blank input. *)
Definition run (m : string) (input : jstring) : prot * jstring :=
  let (p, processedBatches) :=
    processBatches m (splitIntoBatches input) (Prot [] 1) in
  (p, join [NL; NL] processedBatches).

(** [processText].  No operation of the [try] block throws on a string,
    so its [catch] branch has no counterpart here. *)
Definition processText (a : app) : app :=
  let input := trim (inputText a) in
  if negb (truthy input) then
    App (inputText a) [] (copyDisabled a) (mode a)
        (protectedMap a) (nextTokenId a) (warningShown a) (warningText a)
        (outputWordCount a) (outputCharCount a) (lineBreaksRemoved a)
        (wordMatch a) (charMatch a) (contentMatch a)
  else
    let (p, output) := run (mode a) input in
    let a1 :=
      App (inputText a) output false (mode a)
          (pm p) (nextId p) (warningShown a) (warningText a)
          (outputWordCount a) (outputCharCount a) (lineBreaksRemoved a)
          (wordMatch a) (charMatch a) (contentMatch a) in
    verifyContentIntegrity input output (updateOutputStats input output a1).

End Script.

(** ** The structure-aware variant *)

Definition notGt : char -> bool := neg (N.eqb 62).

(** The end of an opening tag: an optional run of attributes (a white
    space, then anything but [>]), then [>]. *)
Definition tagRest : regex :=
  Seq (opt (Seq (Chr isSpace) (Star true (Chr notGt)))) (chr 62).

(** The [markdown_heading] rule, under the g and m flags: a whole line
    made of one to six [#], white space and a run of [.]. *)
Definition markdownHeadingRe : regex :=
  seqs [Bol; Group 1 (seqs [upTo 6 (chr 35); plus (Chr isSpace); Star true (Chr dot)]); Eol].

(** The [html_heading] rule, under the g, m and i flags: at a line start
    [<], group 2 (h1 to h6, or title), the end of the opening tag, a lazy
    run of [.], [</], what group 2 matched and [>], at a line end. *)
Definition htmlHeadingRe : regex :=
  seqs [Bol;
        Group 1 (seqs [chr 60;
                       Group 2 (Alt (Seq (chrI 104) (Chr (inRange 49 54))) (litI (js "title")));
                       tagRest; Star false (Chr dot); lit (js "</"); Backref true 2; chr 62]);
        Eol].

(** The [list_item] rule, under the g and m flags: at a line start a run
    of white space, a bullet (one of * - +, digits and a dot, or a lower
    case letter and a dot), white space, a run of [.], at a line end. *)
Definition listItemRe : regex :=
  seqs [Bol; Group 1 (Star true (Chr isSpace));
        Group 2 (Alt (Chr (oneOf [42; 45; 43]%N))
                     (Alt (Seq (plus (Chr isDigit)) (chr 46)) (Seq (Chr isLower) (chr 46))));
        plus (Chr isSpace); Star true (Chr dot); Eol].

(** The [html_list_item] rule, under the g, m and i flags: at a line
    start a run of white space, [<li], the end of the opening tag, a lazy
    run of [.], [</li>], at a line end. *)
Definition htmlListItemRe : regex :=
  seqs [Bol; Group 1 (Star true (Chr isSpace)); chr 60; litI (js "li"); tagRest;
        Star false (Chr dot); lit (js "</"); litI (js "li"); chr 62; Eol].

(** The [blockquote] rule, under the g and m flags: a whole line made of
    [>], white space and a run of [.]. *)
Definition blockquoteRe : regex :=
  seqs [Bol; Group 1 (seqs [chr 62; plus (Chr isSpace); Star true (Chr dot)]); Eol].

(** [/^(\*\*\*|---|___)\s*$/gm] *)
Definition horizontalRuleRe : regex :=
  seqs [Bol; Group 1 (Alt (lit (js "***")) (Alt (lit (js "---")) (lit (js "___"))));
        Star true (Chr isSpace); Eol].

(** [/^(\|.*\|)$/gm] *)
Definition tableRowRe : regex :=
  seqs [Bol; Group 1 (seqs [chr 124; Star true (Chr dot); chr 124]); Eol].

(** The [html_tag] rule, under the g, m and i flags: a whole line made of
    [<], an optional [/], a letter, a run of anything but [>], and [>]. *)
Definition htmlTagRe : regex :=
  seqs [Bol; Group 1 (seqs [chr 60; opt (chr 47); Chr (ci isLower);
                            Star true (Chr notGt); chr 62]); Eol].

(** [/(```[^`\n]*\n[\s\S]*?\n```|~~~[^~\n]*\n[\s\S]*?\n~~~)/g] *)
Definition fence (c : char) : regex :=
  seqs [lit [c; c; c]; Star true (Chr (neg (oneOf [c; NL]))); chr NL;
        Star false (Chr anyChar); chr NL; lit [c; c; c]].

Definition codeBlockRe : regex := Group 1 (Alt (fence 96) (fence 126)).

(** An element with its content, under the i flag: [<], group 2 (one of
    the names), the end of the opening tag, a lazy run of any code units,
    [</], what group 2 matched and [>]. *)
Definition elementRe (names : list string) : regex :=
  Group 1 (seqs [chr 60;
                 Group 2 (fold_right (fun n r => Alt (litI (js n)) r)
                                     (Chr (fun _ => false)) names);
                 tagRest; Star false (Chr anyChar); lit (js "</"); Backref true 2; chr 62]).

Definition htmlBlockRe : regex :=
  elementRe ["pre"; "code"; "div"; "section"; "article"; "header"; "footer";
             "nav"; "aside"; "main"; "figure"]%string.

Definition scriptStyleRe : regex := elementRe ["script"; "style"]%string.

(** The class of the second replacement of
    [normalizeWhitespaceWithStructure]: the class of [normalizeWhitespace]
    without the tab. *)
Definition otherSpace (c : char) : bool :=
  oneOf [13; 12; 11; 160; 5760; 8232; 8233; 8239; 8287; 12288]%N c
  || inRange 8192 8202 c.

(** The test every line-oriented step of the variant makes. *)
Definition hasMarker (line : jstring) : bool :=
  includes line (js "__STRUCTURED_")
  || includes line (js "__MULTILINE_BLOCK_")
  || includes line (js "__HTML_BLOCK_").

Definition isEmpty (s : jstring) : bool := negb (truthy s).

(** [push] of a paragraph under construction when there is one. *)
Definition flush (processedLines currentParagraph : list jstring) : list jstring :=
  match currentParagraph with
  | [] => processedLines
  | _ => processedLines ++ [join [SP] currentParagraph]
  end.

(** [while (l.length > 0 && l[0] === '') l.shift()] *)
Fixpoint dropLeadingEmpty (l : list jstring) : list jstring :=
  match l with
  | [] :: l' => dropLeadingEmpty l'
  | _ => l
  end.

(** [while (l.length > 0 && l[l.length - 1] === '') l.pop()] *)
Definition dropTrailingEmpty (l : list jstring) : list jstring :=
  rev (dropLeadingEmpty (rev l)).

Fixpoint mapGet (k : jstring) (m : pmap) : option jstring :=
  match m with
  | [] => None
  | (k', v) :: m' => if jeqb k' k then Some v else mapGet k m'
  end.

(** [sort((a, b) => b.length - a.length)]: longest first, stable. *)
Fixpoint insertByLength (x : jstring) (l : list jstring) : list jstring :=
  match l with
  | [] => [x]
  | y :: l' => if length y <? length x then x :: l else y :: insertByLength x l'
  end.

Definition sortLongestFirst (l : list jstring) : list jstring :=
  fold_left (fun acc x => insertByLength x acc) l [].

Module Structured.

(** The callback of the three replacements of [protectMultiLineBlocks]. *)
Definition protectBlock (prefix : jstring) (p : prot) (m : jstring) : prot * jstring :=
  let token := prefix ++ decimal (nextId p) ++ js "__" in
  (Prot (mapSet token m (pm p)) (nextId p + 1), token).

Definition protectMultiLineBlocks (text : jstring) (p : prot) : prot * jstring :=
  let (p1, t1) :=
    replaceWith codeBlockRe (fun q _ m _ => protectBlock (js "__MULTILINE_BLOCK_") q m) p text in
  let (p2, t2) :=
    replaceWith htmlBlockRe (fun q _ m _ => protectBlock (js "__HTML_BLOCK_") q m) p1 t1 in
  replaceWith scriptStyleRe (fun q _ m _ => protectBlock (js "__HTML_BLOCK_") q m) p2 t2.

Definition patterns : list regex :=
  [markdownHeadingRe; htmlHeadingRe; listItemRe; htmlListItemRe; blockquoteRe;
   horizontalRuleRe; tableRowRe; htmlTagRe; urlRe; emailRe; inlineCodeRe; filePathRe].

(** The callback of [protectStructureAndContent]. *)
Definition protectMatch (p : prot) (m : jstring) : prot * jstring :=
  if includes m (js "__PROTECTED_") || includes m (js "__STRUCTURED_")
     || includes m (js "__MULTILINE_") || includes m (js "__HTML_BLOCK_")
  then (p, m)
  else
    let token := js "__STRUCTURED_" ++ decimal (nextId p) ++ js "__" in
    (Prot (mapSet token m (pm p)) (nextId p + 1), token).

Definition protectStructureAndContent (text : jstring) (p : prot) : prot * jstring :=
  fold_left
    (fun (acc : prot * jstring) pattern =>
       replaceWith pattern (fun q _ m _ => protectMatch q m) (fst acc) (snd acc))
    patterns (protectMultiLineBlocks text p).

(** One line of [normalizeWhitespaceWithStructure]. *)
Definition normalizeLine (line : jstring) : jstring :=
  if hasMarker line then line
  else
    let line := replaceStr (plus (Chr (oneOf [SP; TAB]))) [SP] line in
    let line := replaceStr (Chr otherSpace) [SP] line in
    trimEnd line.

Definition normalizeWhitespaceWithStructure (text : jstring) : jstring :=
  join [NL] (map normalizeLine (splitOn NL text)).

(** The loop body of [processModeAWithStructure], on the pair of
    [processedLines] and [currentParagraph]. *)
Definition stepA (acc : list jstring * list jstring) (line : jstring)
  : list jstring * list jstring :=
  let (processedLines, currentParagraph) := acc in
  let trimmed := trim line in
  let shouldPreserve := hasMarker line in
  if shouldPreserve || isEmpty trimmed then
    let processedLines := flush processedLines currentParagraph in
    if shouldPreserve then (processedLines ++ [line], [])
    else if isEmpty trimmed && (0 <? length processedLines) then
      if negb (isEmpty (last processedLines [])) then (processedLines ++ [[]], [])
      else (processedLines, [])
    else (processedLines, [])
  else (processedLines, currentParagraph ++ [trimmed]).

Definition processModeAWithStructure (text : jstring) : jstring :=
  let (processedLines, currentParagraph) := fold_left stepA (splitOn NL text) ([], []) in
  let processedLines := flush processedLines currentParagraph in
  join [NL] (dropTrailingEmpty (dropLeadingEmpty processedLines)).

(** The first loop of [processModeBWithStructure]. *)
Definition stepB (acc : list jstring * list jstring) (line : jstring)
  : list jstring * list jstring :=
  let (processedLines, currentParagraph) := acc in
  let trimmed := trim line in
  let isStructural := hasMarker line in
  if isEmpty trimmed then (flush processedLines currentParagraph ++ [[]], [])
  else if isStructural then (flush processedLines currentParagraph ++ [line], [])
  else (processedLines, currentParagraph ++ [trimmed]).

(** Its second loop, on the pair of [result] and [lastWasBlank]. *)
Definition dedupB (acc : list jstring * bool) (l : jstring) : list jstring * bool :=
  let (result, lastWasBlank) := acc in
  if isEmpty l then ((if lastWasBlank then result else result ++ [[]]), true)
  else (result ++ [l], false).

Definition processModeBWithStructure (text : jstring) : jstring :=
  let (processedLines, currentParagraph) := fold_left stepB (splitOn NL text) ([], []) in
  let processedLines := flush processedLines currentParagraph in
  let result := fst (fold_left dedupB processedLines ([], false)) in
  join [NL] (dropTrailingEmpty (dropLeadingEmpty result)).

(** The first loop of [processModeCWithStructure]. *)
Definition stepC (acc : list jstring * list jstring) (line : jstring)
  : list jstring * list jstring :=
  let (processedLines, currentContent) := acc in
  let trimmed := trim line in
  if hasMarker line then (flush processedLines currentContent ++ [line], [])
  else if truthy trimmed then (processedLines, currentContent ++ [trimmed])
  else (processedLines, currentContent).

(** Its second loop. *)
Definition fuseC (result : list jstring) (line : jstring) : list jstring :=
  if hasMarker line then result ++ [line]
  else if truthy (trim line) then
    if (0 <? length result) && negb (hasMarker (last result []))
    then removelast result ++ [last result [] ++ [SP] ++ trim line]
    else result ++ [trim line]
  else result.

Definition processModeCWithStructure (text : jstring) : jstring :=
  let (processedLines, currentContent) := fold_left stepC (splitOn NL text) ([], []) in
  let processedLines := flush processedLines currentContent in
  join [NL] (fold_left fuseC processedLines []).

(** The loop body of [finalCleanupWithStructure]. *)
Definition cleanLine (cleanedLines : list jstring) (line : jstring) : list jstring :=
  let isProtected := hasMarker line in
  let line :=
    if negb isProtected && truthy (trim line)
    then trim (replaceStr spacesRe [SP] line) else line in
  if truthy line || isProtected then cleanedLines ++ [line] else cleanedLines.

(** [finalCleanupWithStructure]: an empty line holds no marker, so the
    last loop drops the empty lines at the end. *)
Definition finalCleanupWithStructure (text : jstring) : jstring :=
  join [NL] (dropTrailingEmpty (fold_left cleanLine (splitOn NL text) [])).

(** Longest token first; each token is replaced by its table entry. *)
Definition restoreProtectedContent (text : jstring) (m : pmap) : jstring :=
  fold_left
    (fun restored token =>
       match mapGet token m with
       | Some original => restoreOne restored (token, original)
       | None => restored
       end)
    (sortLongestFirst (map fst m)) text.

Definition applyMode (m : string) (normalized : jstring) : jstring :=
  if String.eqb m "A" then processModeAWithStructure normalized
  else if String.eqb m "B" then processModeBWithStructure normalized
  else if String.eqb m "C" then processModeCWithStructure normalized
  else normalized.

Definition processBatch (m : string) (batch : jstring) (p : prot) : prot * jstring :=
  let (p1, protectedText) := protectStructureAndContent batch p in
  let normalized := normalizeWhitespaceWithStructure protectedText in
  let processed := applyMode m normalized in
  let restored := restoreProtectedContent processed (pm p1) in
  (p1, finalCleanupWithStructure restored).

Fixpoint processBatches (m : string) (batches : list jstring) (p : prot)
  : prot * list jstring :=
  match batches with
  | [] => (p, [])
  | batch :: rest =>
      let (p1, out) := processBatch m batch p in
      let (p2, outs) := processBatches m rest p1 in
      (p2, out :: outs)
  end.

Definition run (m : string) (input : jstring) : prot * jstring :=
  let (p, processedBatches) :=
    processBatches m (splitIntoBatches input) (Prot [] 1) in
  (p, join [NL; NL] processedBatches).

(** [processText]: here the input is not trimmed before it is split. *)
Definition processText (a : app) : app :=
  let input := inputText a in
  if negb (truthy (trim input)) then
    App (inputText a) [] (copyDisabled a) (mode a)
        (protectedMap a) (nextTokenId a) (warningShown a) (warningText a)
        (outputWordCount a) (outputCharCount a) (lineBreaksRemoved a)
        (wordMatch a) (charMatch a) (contentMatch a)
  else
    let (p, output) := run (mode a) input in
    let a1 :=
      App (inputText a) output false (mode a)
          (pm p) (nextId p) (warningShown a) (warningText a)
          (outputWordCount a) (outputCharCount a) (lineBreaksRemoved a)
          (wordMatch a) (charMatch a) (contentMatch a) in
    verifyContentIntegrity input output (updateOutputStats input output a1).

End Structured.

(** A freshly loaded page with a given input and mode. *)
Definition page (m : string) (input : jstring) : app :=
  App input [] true m [] 1 false []
      (js "Words: 0") (js "Chars: 0") (js "Line breaks removed: 0")
      (Indicator true []) (Indicator true []) (Indicator true []).

(** ** Notions the properties are stated with *)

(** The page after a run that only empties the output element. *)
Definition withEmptyOutput (a : app) : app :=
  App (inputText a) [] (copyDisabled a) (mode a)
      (protectedMap a) (nextTokenId a) (warningShown a) (warningText a)
      (outputWordCount a) (outputCharCount a) (lineBreaksRemoved a)
      (wordMatch a) (charMatch a) (contentMatch a).

(** A mode selector none of the three cases of the [switch] takes. *)
Definition unknownMode (m : string) : Prop :=
  m <> "A"%string /\ m <> "B"%string /\ m <> "C"%string.

(** The three selectors of the [switch]. *)
Definition knownModes : list string := ["A"; "B"; "C"]%string.

(** What the output element shows after a run on a fresh page. *)
Definition scriptOutput (m : string) (input : jstring) : jstring :=
  outputText (Script.processText (page m input)).

Definition structuredOutput (m : string) (input : jstring) : jstring :=
  outputText (Structured.processText (page m input)).

(** Length of the longest prefix in a class. *)
Fixpoint runLength (p : char -> bool) (s : jstring) : nat :=
  match s with
  | c :: s' => if p c then S (runLength p s') else 0
  | [] => 0
  end.

(** Backtracking of a greedy iteration over a class: the continuation is
    tried after [j] code units, then after [j - 1], and so on. *)
Fixpoint tryBack (k : mstate -> option mstate) (st : mstate) (j : nat)
  : option mstate :=
  match k (advanceBy j st) with
  | Some x => Some x
  | None => match j with O => None | S j' => tryBack k st j' end
  end.

(** [reach st st']: [st'] is further in the same text than [st]. *)
Definition reach (st st' : mstate) : Prop :=
  exists m, after st = m ++ after st' /\ before st' = rev m ++ before st.

(** What a global replacement of a class by [rep] amounts to: every code
    unit of the class becomes [rep]. *)
Definition mapClass (p : char -> bool) (rep : jstring) (text : jstring) : jstring :=
  flat_map (fun c => if p c then rep else [c]) text.

(** What a global replacement of the runs of a class by [rep] amounts to:
    every maximal run becomes [rep]; [inRun] tells that the code unit
    before was of the class. *)
Fixpoint collapse (p : char -> bool) (rep : jstring) (inRun : bool) (text : jstring)
  : jstring :=
  match text with
  | [] => []
  | c :: t =>
      if p c then (if inRun then [] else rep) ++ collapse p rep true t
      else c :: collapse p rep false t
  end.

(** A replacement string without replacement patterns. *)
Definition noDollar (rep : jstring) : bool := forallb (fun c => negb (N.eqb c 36)) rep.

(** The callback a replacement string stands for. *)
Definition byString (rep : jstring) (u : unit) (pre m post : jstring) : unit * jstring :=
  (u, getSubstitution m pre post rep).

(** A text without its white space. *)
Definition stripSpace (t : jstring) : jstring := filter (fun c => negb (isSpace c)) t.

(** The second loop of [processModeBWithStructure] on a whole list. *)
Definition dedupAll (l : list jstring) : list jstring * bool :=
  fold_left Structured.dedupB l ([], false).

(** A list of lines that ends with an empty line. *)
Definition endsBlank (l : list jstring) : bool :=
  (0 <? length l) && isEmpty (last l []).

(** The relation between the loop of mode A and the two loops of mode B
    after the same lines: the same paragraph under construction, made of
    non-empty pieces, and the lines of A are those of B without the
    repeated and the leading empty lines. *)
Definition modesAgree (accA accB : list jstring * list jstring) : Prop :=
  snd accA = snd accB /\
  Forall (fun x => x <> []) (snd accA) /\
  fst accA = dropLeadingEmpty (fst (dedupAll (fst accB))) /\
  snd (dedupAll (fst accB)) = endsBlank (fst (dedupAll (fst accB))).

(** The page with another mode selected. *)
Definition withMode (m : string) (a : app) : app :=
  App (inputText a) (outputText a) (copyDisabled a) m
      (protectedMap a) (nextTokenId a) (warningShown a) (warningText a)
      (outputWordCount a) (outputCharCount a) (lineBreaksRemoved a)
      (wordMatch a) (charMatch a) (contentMatch a).

(** The lines of mode A against those of mode B, see [modesAgree]. *)
Definition linesAgree (plA plB : list jstring) : Prop :=
  plA = dropLeadingEmpty (fst (dedupAll plB)) /\
  snd (dedupAll plB) = endsBlank (fst (dedupAll plB)).

(** ** Blank lines

    [blankFrom pending s]: the text [s] holds a line feed, white space and
    a line feed again, what [blankLineRe] matches; [pending] tells that a
    line feed followed by white space alone stands before [s]. *)
Fixpoint blankFrom (pending : bool) (s : jstring) : bool :=
  match s with
  | [] => false
  | c :: s' =>
      if N.eqb NL c then pending || blankFrom true s'
      else if isSpace c then blankFrom pending s'
      else blankFrom false s'
  end.

Definition hasBlankLine (s : jstring) : bool := blankFrom false s.

(** The value of [pending] after [m]. *)
Fixpoint pendingAfter (pending : bool) (m : jstring) : bool :=
  match m with
  | [] => pending
  | c :: m' =>
      if N.eqb NL c then pendingAfter true m'
      else if isSpace c then pendingAfter pending m'
      else pendingAfter false m'
  end.

(** After a line feed: the white space up to the last line feed of the
    run of white space the text starts with, and what follows it. *)
Fixpoint sepEnd (t : jstring) : option (jstring * jstring) :=
  match t with
  | [] => None
  | c :: t' =>
      if isSpace c then
        match sepEnd t' with
        | Some (w, r) => Some (c :: w, r)
        | None => if N.eqb NL c then Some ([c], t') else None
        end
      else None
  end.

(** The match of [blankLineRe] at the start of a text, as the white space
    after its first line feed and the rest of the text. *)
Definition blankAt (a : jstring) : option (jstring * jstring) :=
  match a with
  | c :: t => if N.eqb NL c then sepEnd t else None
  | [] => None
  end.

(** ** Inputs as batches and separators *)

(** A batch as the orchestrator isolates one: it starts and ends with a
    code unit that is not white space and holds no blank line. *)
Definition isBatch (b : jstring) : bool :=
  negb (isSpace (hd SP b)) && negb (isSpace (last b SP)) && negb (hasBlankLine b).

(** A blank-line boundary: a line feed, white space (which may hold more
    line feeds) and a line feed. *)
Definition isSeparator (s : jstring) : bool :=
  match s with
  | c :: t => N.eqb NL c && forallb isSpace t && N.eqb NL (last t SP)
  | [] => false
  end.

Definition tailOf (rest : list (jstring * jstring)) : jstring :=
  concat (map (fun sb => fst sb ++ snd sb) rest).

(** A first batch followed by separators and batches. *)
Definition weave (b : jstring) (rest : list (jstring * jstring)) : jstring :=
  b ++ tailOf rest.

Definition wellFormed (b : jstring) (rest : list (jstring * jstring)) : Prop :=
  isBatch b = true /\
  Forall (fun sb => isSeparator (fst sb) = true /\ isBatch (snd sb) = true) rest.

(** ** Global replacement as a relation

    [Rewrites ok t t']: [t'] is [t] where some substrings [m] were
    replaced by texts [rep] with [ok m rep]. *)
Inductive Rewrites (ok : jstring -> jstring -> Prop) : jstring -> jstring -> Prop :=
| rw_nil : Rewrites ok [] []
| rw_keep c t t' : Rewrites ok t t' -> Rewrites ok (c :: t) (c :: t')
| rw_rep m rep t t' : ok m rep -> Rewrites ok t t' -> Rewrites ok (m ++ t) (rep ++ t').

(** A replacement that leaves the blank lines of a text as they are: the
    match itself, or a text without white space that is not empty. *)
Definition solid (rep : jstring) : Prop :=
  rep <> [] /\ forallb (fun c => negb (isSpace c)) rep = true.

Definition keptOrSolid (m rep : jstring) : Prop := rep = m \/ solid rep.

(** ** Tokenized texts

    The shape the text handed to restoration has by design: pieces
    without an underscore and tokens of the table. *)

Definition tokenPrefix : jstring := js "__PROTECTED_".
Definition tokenSuffix : jstring := js "__".

(** The token whose number is written [d]. *)
Definition tokenOf (d : jstring) : jstring := tokenPrefix ++ d ++ tokenSuffix.

Inductive seg : Type :=
| Plain (s : jstring)
| Tok (d : jstring).

Definition segText (sg : seg) : jstring :=
  match sg with
  | Plain s => s
  | Tok d => tokenOf d
  end.

Definition flat (segs : list seg) : jstring := concat (map segText segs).

(** No underscore. *)
Definition free (s : jstring) : bool := forallb (fun c => negb (N.eqb 95 c)) s.

(** A number in decimal. *)
Definition digits (d : jstring) : bool := truthy d && forallb isDigit d.

(** A piece of plain text: no underscore and no dollar sign. *)
Definition clean (s : jstring) : bool := free s && noDollar s.

Definition segOk (sg : seg) : bool :=
  match sg with
  | Plain s => clean s
  | Tok d => digits d
  end.

(** A table given by the numbers of its tokens and their originals. *)
Definition tableOf (entries : list (jstring * jstring)) : pmap :=
  map (fun e => (tokenOf (fst e), snd e)) entries.

(** An original that restoration gives back as it is and that brings no
    underscore. *)
Definition entryOk (e : jstring * jstring) : bool :=
  digits (fst e) && clean (snd e).

(** Every token of the text has an entry. *)
Definition covered (segs : list seg) (entries : list (jstring * jstring)) : bool :=
  forallb (fun sg => match sg with
                     | Plain _ => true
                     | Tok d => existsb (jeqb d) (map fst entries)
                     end) segs.

(** What restoring one entry does to a tokenized text. *)
Definition restoreSeg (d orig : jstring) (sg : seg) : seg :=
  match sg with
  | Plain s => Plain s
  | Tok d' => if jeqb d' d then Plain orig else Tok d'
  end.

(** ** Protection of a tokenized text *)

(** The callback of [protectContent]. *)
Definition protectCb (q : prot) (pre m post : jstring) : prot * jstring :=
  Script.protectMatch q m.

(** A position strictly inside a token of the text. *)
Definition inside (st : mstate) : Prop :=
  exists d x y b0 z,
    digits d = true /\ tokenOf d = x ++ y /\ x <> [] /\ y <> [] /\
    before st = rev x ++ b0 /\ after st = y ++ z.

(** What the protection rules have in common: a match does not start or
    end strictly inside a token, and is not empty. *)
Record goodRe (r : regex) : Prop := GoodRe {
  noStart : forall st, inside st -> exec r st = None;
  noEnd : forall st st', exec r st = Some st' -> ~ inside st';
  nonEmpty : forall st st', exec r st = Some st' -> consumed st st' <> []
}.

(** [Map.prototype.set] on a table given by its numbers. *)
Fixpoint setEntry (d m : jstring) (entries : list (jstring * jstring))
  : list (jstring * jstring) :=
  match entries with
  | [] => [(d, m)]
  | (d', m') :: es => if jeqb d' d then (d, m) :: es else (d', m') :: setEntry d m es
  end.

(** Every token of the text has an entry. *)
Definition allCovered (segs : list seg) (entries : list (jstring * jstring)) : Prop :=
  forall d, In (Tok d) segs -> In d (map fst entries).

(** A text and a table as protection leaves them. *)
Definition tokenized (p : prot) (t : jstring) : Prop :=
  exists segs entries,
    t = flat segs /\ pm p = tableOf entries /\
    forallb segOk segs = true /\ forallb entryOk entries = true /\
    allCovered segs entries.

(** The code units a token is made of. *)
Definition tokChar (c : char) : bool :=
  isDigit c || oneOf [95; 80; 82; 79; 84; 69; 67; 68]%N c.

(** Every match of [r] ends at a position where [P] holds of the text
    before and after it. *)
Definition endsIn (P : jstring -> jstring -> Prop) (r : regex) : Prop :=
  forall st k st', mt r st k = Some st' ->
  exists st1, P (before st1) (after st1) /\ k st1 = Some st'.

(** Every match of [r] takes at least one code unit. *)
Definition consumes (r : regex) : Prop :=
  forall st k st', mt r st k = Some st' ->
  exists st1, length (after st1) < length (after st) /\ k st1 = Some st'.

(** The same two for a greedy end, where the rest of the pattern cannot
    fail: the match then ends where the last iteration stops by itself. *)
Definition endsGreedy (P : jstring -> jstring -> Prop) (r : regex) : Prop :=
  forall st k st',
  (forall s, length (after s) < length (after st) -> k s <> None) ->
  mt r st k = Some st' ->
  exists st1, length (after st1) < length (after st) /\
              P (before st1) (after st1) /\ k st1 = Some st'.

(** The next code unit is not of the class. *)
Definition stops (p : char -> bool) (b a : jstring) : Prop := runLength p a = 0.

Definition tokChars : list char :=
  [48; 49; 50; 51; 52; 53; 54; 55; 56; 57; 95; 80; 82; 79; 84; 69; 67; 68]%N.



(** ** The statistics of the input and the reset of the page *)

(** The three input statistics elements. *)
Record inputStats : Type := InputStats {
  inputWordCount : jstring;
  inputCharCount : jstring;
  inputLineCount : jstring
}.

(** [updateInputStats], as a function of the value of the input element. *)
Definition updateInputStats (text : jstring) : inputStats :=
  let words := wordCount text in
  let chars := length text in
  let lines := if truthy text then length (splitOn NL text) else 0 in
  InputStats (js "Words: " ++ natStr words)
             (js "Chars: " ++ natStr chars)
             (js "Lines: " ++ natStr lines).

(** [clearOutput]: text and class of the indicators are reset, their
    [title] is not written. *)
Definition clearOutput (a : app) : app :=
  App (inputText a) [] true (mode a)
      (protectedMap a) (nextTokenId a) false (warningText a)
      (js "Words: 0") (js "Chars: 0") (js "Line breaks removed: 0")
      (Indicator true (title (wordMatch a)))
      (Indicator true (title (charMatch a)))
      (Indicator true (title (contentMatch a))).

(** [clearInput], on the page and the input statistics. *)
Definition clearInput (a : app) : app * inputStats :=
  let a1 :=
    App [] (outputText a) (copyDisabled a) (mode a)
        (protectedMap a) (nextTokenId a) (warningShown a) (warningText a)
        (outputWordCount a) (outputCharCount a) (lineBreaksRemoved a)
        (wordMatch a) (charMatch a) (contentMatch a) in
  (clearOutput a1, updateInputStats (inputText a1)).



(** Words counted directly: the maximal runs of code units that are not
    white space; [inWord] tells that the code unit before was in a word. *)
Fixpoint countWords (inWord : bool) (t : jstring) : nat :=
  match t with
  | [] => 0
  | c :: t' =>
      if isSpace c then countWords false t'
      else (if inWord then 0 else 1) + countWords true t'
  end.

(** Number of line feeds. *)
Definition countNL (t : jstring) : nat := length (filter (N.eqb NL) t).

(** Two adjacent code units of a class. *)
Fixpoint adjacent (p : char -> bool) (t : jstring) : bool :=
  match t with
  | [] => false
  | c :: t' => (p c && match t' with d :: _ => p d | [] => false end) || adjacent p t'
  end.


(** The token with a given number, and a table whose keys are the tokens
    numbered from one up to the counter, in this order. *)
Definition tokenNo (i : nat) : jstring := tokenOf (decimal (N.of_nat i)).

Definition numbered (p : prot) : Prop :=
  (1 <= nextId p)%N /\
  map fst (pm p) = map tokenNo (seq 1 (N.to_nat (nextId p) - 1)).


(** ** Tokenized texts and their content *)

(** The original of a token number in a table given by its numbers: the
    first entry with this number. *)
Fixpoint lookup (d : jstring) (entries : list (jstring * jstring)) : jstring :=
  match entries with
  | [] => []
  | (d', m) :: es => if jeqb d' d then m else lookup d es
  end.

(** A tokenized text with each token replaced by its original. *)
Definition expand (entries : list (jstring * jstring)) (segs : list seg) : jstring :=
  concat (map (fun sg => match sg with
                         | Plain s => s
                         | Tok d => lookup d entries
                         end) segs).

(** The numbers of the table are below the counter. *)
Definition freshFrom (n : N) (entries : list (jstring * jstring)) : Prop :=
  forall d, In d (map fst entries) -> exists i, (i < n)%N /\ d = decimal i.

(** A table, a counter and a tokenized text as protection keeps them. *)
Definition stateOk (p : prot) (entries : list (jstring * jstring)) (segs : list seg)
  : Prop :=
  pm p = tableOf entries /\
  forallb segOk segs = true /\ forallb entryOk entries = true /\
  allCovered segs entries /\ freshFrom (nextId p) entries.

(** A table that keeps the entries of another. *)
Definition grows (entries entries' : list (jstring * jstring)) : Prop :=
  forall d, In d (map fst entries) ->
  lookup d entries' = lookup d entries /\ In d (map fst entries').


(** The tokens of the structure-preserving variant: one counter, three
    kinds. *)
Definition structuredKinds : list jstring :=
  [js "__STRUCTURED_"; js "__MULTILINE_BLOCK_"; js "__HTML_BLOCK_"].

Definition structuredKey (kind : jstring) (i : nat) : jstring :=
  kind ++ decimal (N.of_nat i) ++ js "__".

(** The key at each place of the table is a token of one of the kinds
    with the number of the place, and the counter is the next number. *)
Definition numberedKeys (keys : list jstring) (next : N) : Prop :=
  (1 <= next)%N /\ length keys = N.to_nat next - 1 /\
  forall i k, nth_error keys i = Some k ->
    exists kind, In kind structuredKinds /\ k = structuredKey kind (S i).

(** A line that is not empty and neither starts nor ends with a white
    space. *)
Definition tidy (x : jstring) : Prop :=
  x <> [] /\ isSpace (hd SP x) = false /\ isSpace (last x SP) = false.


(** * Properties *)

(** ** Basic facts on strings *)

Lemma trimStart_blank (s : jstring) :
  forallb isSpace s = true -> trimStart s = [].
Proof.
  induction s as [|c s IH]; simpl; [reflexivity|].
  intros H. apply andb_true_iff in H as [Hc Hs].
  rewrite Hc. auto.
Qed.

Lemma trim_blank (s : jstring) :
  forallb isSpace s = true -> trim s = [].
Proof.
  intros H. unfold trim. rewrite (trimStart_blank s H). reflexivity.
Qed.

Lemma outputText_updateOutputStats (o p : jstring) (a : app) :
  outputText (updateOutputStats o p a) = outputText a.
Proof. reflexivity. Qed.

Lemma outputText_verifyContentIntegrity (o p : jstring) (a : app) :
  outputText (verifyContentIntegrity o p a) = outputText a.
Proof.
  unfold verifyContentIntegrity.
  destruct (negb _ || negb _ || negb _); reflexivity.
Qed.

Lemma unknownMode_eqb (m : string) :
  unknownMode m ->
  String.eqb m "A" = false /\ String.eqb m "B" = false /\ String.eqb m "C" = false.
Proof.
  intros (HA & HB & HC). repeat split; apply String.eqb_neq; assumption.
Qed.

(** ** Empty input *)

(** C9.  When the input holds only white space (or nothing), [processText]
    empties the output element and does nothing else: the protection
    table, the counter, the statistics, the verification indicators and
    the warning banner are left as they were, in both variants and
    whatever the mode. *)
Theorem processText_blank_input (a : app) :
  forallb isSpace (inputText a) = true ->
  Script.processText a = withEmptyOutput a /\
  Structured.processText a = withEmptyOutput a.
Proof.
  intros H. unfold Script.processText, Structured.processText.
  rewrite (trim_blank _ H). simpl. split; reflexivity.
Qed.

Lemma processText_blank_input_witness :
  let a := App [SP; TAB; NL; NBSP; SP] (js "old output") false "B"
               [(js "__PROTECTED_1__", js "x")] 2 true (js "old warning")
               (js "Words: 1") (js "Chars: 1") (js "Line breaks removed: 0")
               (Indicator false (js "t")) (Indicator true []) (Indicator true []) in
  Script.processText a = withEmptyOutput a /\
  Structured.processText a = withEmptyOutput a.
Proof.
  intros a. apply (processText_blank_input a). vm_compute. reflexivity.
Defined.

(** ** Mode selection *)

(** C1, as the claim states it, fails: with the selector "D" the input is
    processed (its run of spaces is collapsed) and no error is shown. *)
Lemma unknown_mode_is_processed :
  let a := Script.processText (page "D" (js "a   b")) in
  outputText a = js "a b" /\ warningShown a = false /\ copyDisabled a = false.
Proof. vm_compute. repeat split; reflexivity. Qed.

(** C1, amended.  A mode selector other than "A", "B" and "C" takes the
    [default] branch of the [switch]: the batch is protected, its white
    space normalized, its tokens restored and the result cleaned up, only
    the mode step being skipped; this holds in both variants. *)
Theorem unknown_mode_skips_mode_step (m : string) (batch : jstring) (p : prot) :
  unknownMode m ->
  Script.processBatch m batch p =
    (fst (Script.protectContent batch p),
     Script.finalCleanup
       (Script.restoreProtectedContent
          (Script.normalizeWhitespace (snd (Script.protectContent batch p)))
          (pm (fst (Script.protectContent batch p))))) /\
  Structured.processBatch m batch p =
    (fst (Structured.protectStructureAndContent batch p),
     Structured.finalCleanupWithStructure
       (Structured.restoreProtectedContent
          (Structured.normalizeWhitespaceWithStructure
             (snd (Structured.protectStructureAndContent batch p)))
          (pm (fst (Structured.protectStructureAndContent batch p))))).
Proof.
  intros H. apply unknownMode_eqb in H as (HA & HB & HC).
  unfold Script.processBatch, Structured.processBatch,
    Script.applyMode, Structured.applyMode.
  rewrite HA, HB, HC.
  destruct (Script.protectContent batch p) as [p1 t1].
  destruct (Structured.protectStructureAndContent batch p) as [p2 t2].
  split; reflexivity.
Qed.

Lemma unknown_mode_skips_mode_step_witness :
  Script.processBatch "D" (js "a   b") (Prot [] 1) =
    (fst (Script.protectContent (js "a   b") (Prot [] 1)),
     Script.finalCleanup
       (Script.restoreProtectedContent
          (Script.normalizeWhitespace (snd (Script.protectContent (js "a   b") (Prot [] 1))))
          (pm (fst (Script.protectContent (js "a   b") (Prot [] 1)))))) /\
  Structured.processBatch "D" (js "a   b") (Prot [] 1) =
    (fst (Structured.protectStructureAndContent (js "a   b") (Prot [] 1)),
     Structured.finalCleanupWithStructure
       (Structured.restoreProtectedContent
          (Structured.normalizeWhitespaceWithStructure
             (snd (Structured.protectStructureAndContent (js "a   b") (Prot [] 1))))
          (pm (fst (Structured.protectStructureAndContent (js "a   b") (Prot [] 1)))))).
Proof.
  apply (unknown_mode_skips_mode_step (m := "D") (js "a   b") (Prot [] 1)).
  repeat split; discriminate.
Defined.

(** ** No fallback to the original input *)




(** ** Protected content and the final cleanup *)

(** C4.  An inline code span with two spaces inside is protected and
    restored, and then rewritten by the final cleanup: in each of the
    three modes and in both variants the output holds the span with one
    space, not the span of the input. *)
Theorem inline_code_span_rewritten :
  Forall (fun m =>
            scriptOutput m (js "`a  b`") = js "`a b`" /\
            structuredOutput m (js "`a  b`") = js "`a b`" /\
            includes (scriptOutput m (js "`a  b`")) (js "`a  b`") = false /\
            includes (structuredOutput m (js "`a  b`")) (js "`a  b`") = false)
         knownModes.
Proof. repeat (constructor; [vm_compute; repeat split; reflexivity|]). constructor. Qed.

(** The second scenario of the specification holds in both variants: the
    URL is kept and the spaces around it are collapsed. *)
Lemma scenario_url_preserved :
  Forall (fun m =>
            scriptOutput m (js "Visit https://example.com/path  now")
              = js "Visit https://example.com/path now" /\
            structuredOutput m (js "Visit https://example.com/path  now")
              = js "Visit https://example.com/path now")
         knownModes.
Proof. repeat (constructor; [vm_compute; split; reflexivity|]). constructor. Qed.

(** ** Idempotence *)

(** C7.  A URL that ends in four dollar signs loses two of them at each
    run, since the original is used as a replacement string in which two
    dollar signs stand for one: the second run does not give back the
    output of the first, in each mode and in both variants. *)
Theorem second_run_differs :
  let x := js "http://a.com/$$$$" in
  Forall (fun m =>
            scriptOutput m x = js "http://a.com/$$" /\
            scriptOutput m (scriptOutput m x) = js "http://a.com/$" /\
            structuredOutput m x = js "http://a.com/$$" /\
            structuredOutput m (structuredOutput m x) = js "http://a.com/$")
         knownModes.
Proof. repeat (constructor; [vm_compute; repeat split; reflexivity|]). constructor. Qed.

(** In the structure-aware variant the cleanup of a restored list item is
    another source: its trailing space is trimmed, and the next run no
    longer sees a list item. *)
Lemma second_run_merges_list_item :
  let x := js "a" ++ [NL] ++ js "- " in
  structuredOutput "A" x = js "a" ++ [NL] ++ js "-" /\
  structuredOutput "A" (structuredOutput "A" x) = js "a -".
Proof. vm_compute. split; reflexivity. Qed.

(** ** The matcher *)

Lemma advanceBy_S (j : nat) (st : mstate) :
  advanceBy (S j) st = advanceBy j (advance st).
Proof. reflexivity. Qed.

Lemma advanceBy_app (m rest b : jstring) (c : list (nat * jstring)) :
  advanceBy (length m) (MState b (m ++ rest) c) = MState (rev m ++ b) rest c.
Proof.
  revert b. induction m as [|x m IH]; intros b; simpl; [reflexivity|].
  unfold advance. simpl. rewrite IH. rewrite <- app_assoc. reflexivity.
Qed.

Lemma reach_refl (st : mstate) : reach st st.
Proof. exists []. split; reflexivity. Qed.

Lemma reach_trans (a b c : mstate) : reach a b -> reach b c -> reach a c.
Proof.
  intros (m1 & H1 & H1') (m2 & H2 & H2').
  exists (m1 ++ m2). split.
  - rewrite H1, H2. apply app_assoc.
  - rewrite H2', H1', rev_app_distr. rewrite app_assoc. reflexivity.
Qed.

Lemma reach_length (st st' : mstate) :
  reach st st' -> length (after st') <= length (after st).
Proof. intros (m & H & _). rewrite H, length_app. lia. Qed.

Lemma reach_consumed (st st' : mstate) :
  reach st st' -> after st = consumed st st' ++ after st'.
Proof.
  intros (m & H & _). unfold consumed. rewrite H, length_app.
  replace (length m + length (after st') - length (after st')) with (length m) by lia.
  rewrite firstn_app, firstn_all, Nat.sub_diag. simpl. rewrite app_nil_r. reflexivity.
Qed.

Lemma reach_before (st st' : mstate) :
  reach st st' -> before st' = rev (consumed st st') ++ before st.
Proof.
  intros H. pose proof (reach_consumed H) as Hc. destruct H as (m & H & H').
  rewrite H in Hc. apply app_inv_tail in Hc. subst m. exact H'.
Qed.

Lemma reach_advance (st : mstate) (c : char) (rest : jstring) :
  after st = c :: rest -> reach st (advance st).
Proof.
  intros H. exists [c]. unfold advance. rewrite H. simpl. split; reflexivity.
Qed.

Lemma tryBack_S (k : mstate -> option mstate) (st : mstate) (j : nat) :
  tryBack k st (S j) =
  match tryBack k (advance st) j with
  | Some x => Some x
  | None => k st
  end.
Proof.
  induction j as [|j IH].
  - simpl. destruct (k (advance st)); [reflexivity|]. destruct (k st); reflexivity.
  - change (tryBack k st (S (S j))) with
      (match k (advanceBy (S (S j)) st) with
       | Some x => Some x
       | None => tryBack k st (S j)
       end).
    rewrite IH.
    change (tryBack k (advance st) (S j)) with
      (match k (advanceBy (S j) (advance st)) with
       | Some x => Some x
       | None => tryBack k (advance st) j
       end).
    rewrite advanceBy_S. destruct (k (advanceBy (S j) (advance st))); reflexivity.
Qed.

(** A greedy iteration over a class takes the longest run and gives it
    back one code unit at a time. *)
Lemma starLoop_class (p : char -> bool) (k : mstate -> option mstate) (n : nat) :
  forall st, length (after st) <= n ->
  starLoop (mt (Chr p)) true k n st = tryBack k st (runLength p (after st)).
Proof.
  induction n as [|n IH]; intros st Hn.
  - destruct (after st) eqn:E; [|simpl in Hn; lia].
    simpl. destruct (k st); reflexivity.
  - cbn [starLoop mt]. destruct (after st) as [|c rest] eqn:E.
    + cbn [runLength tryBack advanceBy]. destruct (k st); reflexivity.
    + cbn [runLength]. destruct (p c) eqn:Hp.
      * rewrite tryBack_S.
        assert (Ha : after (advance st) = rest) by (unfold advance; rewrite E; reflexivity).
        rewrite Ha.
        assert (Hlt : (length rest <? length (c :: rest)) = true)
          by (apply Nat.ltb_lt; simpl; lia).
        rewrite Hlt. rewrite IH by (rewrite Ha; simpl in Hn; lia).
        rewrite Ha. reflexivity.
      * cbn [tryBack advanceBy]. destruct (k st); reflexivity.
Qed.

Lemma tryBack_Some (st : mstate) (j : nat) :
  tryBack Some st j = Some (advanceBy j st).
Proof. destruct j; reflexivity. Qed.

Lemma getSubstitution_plain (m pre post rep : jstring) :
  noDollar rep = true -> getSubstitution m pre post rep = rep.
Proof.
  induction rep as [|c rep IH]; simpl; [reflexivity|].
  intros H. apply andb_true_iff in H as [Hc Hr].
  apply negb_true_iff in Hc. rewrite Hc. rewrite IH by assumption. reflexivity.
Qed.

Lemma runLength_le (p : char -> bool) (s : jstring) : runLength p s <= length s.
Proof. induction s as [|c s IH]; simpl; [lia|]. destruct (p c); simpl; lia. Qed.

Lemma advanceBy_firstn (n : nat) (b a : jstring) (c : list (nat * jstring)) :
  n <= length a ->
  advanceBy n (MState b a c) = MState (rev (firstn n a) ++ b) (skipn n a) c.
Proof.
  intros H. rewrite <- (firstn_skipn n a) at 1.
  rewrite <- (firstn_length_le a H) at 1. apply advanceBy_app.
Qed.

Lemma consumed_skipn (n : nat) (b b' a : jstring) (c c' : list (nat * jstring)) :
  n <= length a ->
  consumed (MState b a c) (MState b' (skipn n a) c') = firstn n a.
Proof.
  intros H. unfold consumed. simpl. rewrite length_skipn.
  replace (length a - (length a - n)) with n by lia. reflexivity.
Qed.

Lemma consumed_cons (c : char) (b b' rest : jstring) (cs cs' : list (nat * jstring)) :
  consumed (MState b (c :: rest) cs) (MState b' rest cs') = [c].
Proof.
  unfold consumed. cbn [after length].
  replace (S (length rest) - length rest) with 1 by lia. reflexivity.
Qed.

(** ** Matches of the simple patterns *)

Lemma exec_Chr (p : char -> bool) (b a : jstring) (cs : list (nat * jstring)) :
  exec (Chr p) (MState b a cs) =
  match a with
  | c :: rest => if p c then Some (MState (c :: b) rest []) else None
  | [] => None
  end.
Proof. destruct a; reflexivity. Qed.

Lemma mt_Seq (r1 r2 : regex) (st : mstate) (k : mstate -> option mstate) :
  mt (Seq r1 r2) st k = mt r1 st (fun st1 => mt r2 st1 k).
Proof. reflexivity. Qed.

Lemma mt_Star (g : bool) (r : regex) (st : mstate) (k : mstate -> option mstate) :
  mt (Star g r) st k = starLoop (mt r) g k (length (after st)) st.
Proof. reflexivity. Qed.

Lemma mt_Chr (p : char -> bool) (st : mstate) (k : mstate -> option mstate) :
  mt (Chr p) st k =
  match after st with
  | c :: _ => if p c then k (advance st) else None
  | [] => None
  end.
Proof. reflexivity. Qed.

Lemma exec_plus_class (p : char -> bool) (b a : jstring) (cs : list (nat * jstring)) :
  exec (plus (Chr p)) (MState b a cs) =
  match a with
  | c :: rest =>
      if p c then Some (MState (rev (firstn (runLength p a) a) ++ b)
                               (skipn (runLength p a) a) [])
      else None
  | [] => None
  end.
Proof.
  destruct a as [|c rest]; [reflexivity|].
  unfold exec, plus. rewrite mt_Seq, mt_Chr. cbn [before after].
  cbn [runLength]. destruct (p c) eqn:Hp; [|reflexivity].
  rewrite mt_Star, starLoop_class by lia.
  rewrite tryBack_Some. unfold advance. cbn [after before caps].
  rewrite <- (@advanceBy_firstn (S (runLength p rest)) b (c :: rest) [])
    by (simpl; pose proof (runLength_le p rest); lia).
  reflexivity.
Qed.

(** ** Global replacement *)

Lemma replaceLoop_unit (r : regex) (g : unit -> jstring -> jstring -> jstring -> unit * jstring)
  (fuel : nat) (st : mstate) :
  snd (replaceLoop (S fuel) r g tt st) =
  match exec r st with
  | Some st' =>
      snd (g tt (rev (before st)) (consumed st st') (after st')) ++
      match consumed st st', after st with
      | [], [] => []
      | [], c :: _ => c :: snd (replaceLoop fuel r g tt (advance st))
      | _ :: _, _ => snd (replaceLoop fuel r g tt st')
      end
  | None =>
      match after st with
      | [] => []
      | c :: _ => c :: snd (replaceLoop fuel r g tt (advance st))
      end
  end.
Proof.
  cbn [replaceLoop]. destruct (exec r st) as [st'|].
  - destruct (g tt (rev (before st)) (consumed st st') (after st')) as [[] rep].
    destruct (consumed st st'); destruct (after st); cbn [snd].
    + rewrite app_nil_r. reflexivity.
    + destruct (replaceLoop fuel r g tt (advance st)) as [[] o]. reflexivity.
    + destruct (replaceLoop fuel r g tt st') as [[] o]. reflexivity.
    + destruct (replaceLoop fuel r g tt st') as [[] o]. reflexivity.
  - destruct (after st); [reflexivity|].
    destruct (replaceLoop fuel r g tt (advance st)) as [[] o]. reflexivity.
Qed.

Lemma replaceStr_unfold (r : regex) (rep text : jstring) :
  replaceStr r rep text =
  snd (replaceLoop (S (length text)) r (byString rep) tt (start text)).
Proof. reflexivity. Qed.

(** Replacing every code unit of a class. *)
Lemma replaceLoop_Chr (p : char -> bool) (rep : jstring) :
  noDollar rep = true ->
  forall fuel b a cs, length a < fuel ->
  snd (replaceLoop fuel (Chr p) (byString rep) tt (MState b a cs)) = mapClass p rep a.
Proof.
  intros Hrep. induction fuel as [|fuel IH]; intros b a cs Hf; [lia|].
  rewrite replaceLoop_unit, exec_Chr.
  destruct a as [|c rest]; [reflexivity|].
  cbn [mapClass flat_map]. destruct (p c) eqn:Hp.
  - rewrite consumed_cons. cbn [byString snd after].
    rewrite getSubstitution_plain by assumption.
    rewrite IH by (simpl in Hf; lia). reflexivity.
  - cbn [after]. unfold advance. cbn [after before caps].
    rewrite IH by (simpl in Hf; lia). reflexivity.
Qed.

Lemma replaceStr_Chr (p : char -> bool) (rep text : jstring) :
  noDollar rep = true -> replaceStr (Chr p) rep text = mapClass p rep text.
Proof.
  intros H. rewrite replaceStr_unfold. unfold start.
  apply replaceLoop_Chr; [assumption|lia].
Qed.

Lemma collapse_skip_run (p : char -> bool) (rep a : jstring) :
  collapse p rep true a = collapse p rep false (skipn (runLength p a) a).
Proof.
  induction a as [|c a IH]; [reflexivity|].
  cbn [collapse runLength]. destruct (p c) eqn:Hp.
  - cbn [skipn List.app]. exact IH.
  - cbn [skipn collapse]. rewrite Hp. reflexivity.
Qed.

(** Replacing every run of a class. *)
Lemma replaceLoop_plus_class (p : char -> bool) (rep : jstring) :
  noDollar rep = true ->
  forall fuel b a cs, length a < fuel ->
  snd (replaceLoop fuel (plus (Chr p)) (byString rep) tt (MState b a cs))
  = collapse p rep false a.
Proof.
  intros Hrep. induction fuel as [|fuel IH]; intros b a cs Hf; [lia|].
  rewrite replaceLoop_unit, exec_plus_class.
  destruct a as [|c rest]; [reflexivity|].
  cbn [collapse]. destruct (p c) eqn:Hp.
  - rewrite consumed_skipn by apply runLength_le.
    cbn [runLength]. rewrite Hp. cbn [firstn skipn byString snd after].
    rewrite getSubstitution_plain by assumption.
    rewrite IH by (rewrite length_skipn; simpl in Hf; lia).
    rewrite collapse_skip_run. reflexivity.
  - cbn [after]. unfold advance. cbn [after before caps].
    rewrite IH by (simpl in Hf; lia). reflexivity.
Qed.

Lemma replaceStr_plus_class (p : char -> bool) (rep text : jstring) :
  noDollar rep = true ->
  replaceStr (plus (Chr p)) rep text = collapse p rep false text.
Proof.
  intros H. rewrite replaceStr_unfold. unfold start.
  apply replaceLoop_plus_class; [assumption|lia].
Qed.

Lemma collapse_nil (p : char -> bool) (inRun : bool) (t : jstring) :
  collapse p [] inRun t = filter (fun c => negb (p c)) t.
Proof.
  revert inRun. induction t as [|c t IH]; intros inRun; [reflexivity|].
  cbn [collapse filter]. destruct (p c); cbn [negb].
  - destruct inRun; cbn [List.app]; apply IH.
  - rewrite IH. reflexivity.
Qed.

Lemma nonSpace_stripSpace (t : jstring) : nonSpace t = stripSpace t.
Proof.
  unfold nonSpace, wsRe. rewrite replaceStr_plus_class by reflexivity.
  apply collapse_nil.
Qed.

(** ** The integrity verifier *)

Lemma jeqb_eq (a b : jstring) : jeqb a b = true <-> a = b.
Proof.
  revert b. induction a as [|x a IH]; intros [|y b]; simpl; split; intros H;
    try reflexivity; try discriminate.
  - apply andb_true_iff in H as [H1 H2]. apply N.eqb_eq in H1. apply IH in H2.
    subst. reflexivity.
  - injection H as -> ->. rewrite N.eqb_refl. apply IH. reflexivity.
Qed.

Lemma setHas_In (s : list jstring) (x : jstring) : setHas s x = true <-> In x s.
Proof.
  unfold setHas. rewrite existsb_exists. split.
  - intros (y & Hy & E). apply jeqb_eq in E. subst. assumption.
  - intros H. exists x. split; [assumption|]. apply jeqb_eq. reflexivity.
Qed.

Lemma setAdd_In (s : list jstring) (x y : jstring) :
  In y (setAdd s x) <-> In y s \/ y = x.
Proof.
  unfold setAdd. destruct (setHas s x) eqn:E.
  - apply setHas_In in E. split; [auto|]. intros [H| ->]; assumption.
  - rewrite in_app_iff. simpl. split; intros [H|H]; auto.
    + destruct H as [H|[]]. auto.
Qed.

Lemma fold_setAdd_In (l acc : list jstring) (y : jstring) :
  In y (fold_left setAdd l acc) <-> In y acc \/ In y l.
Proof.
  revert acc. induction l as [|x l IH]; intros acc; simpl.
  - tauto.
  - rewrite IH, setAdd_In. split; intros H; intuition auto.
Qed.

Lemma newSet_In (s : jstring) (y : jstring) : In y (newSet s) <-> In y (codePoints s).
Proof. unfold newSet. rewrite fold_setAdd_In. simpl. tauto. Qed.

Lemma allIn_spec (A B : list jstring) :
  allIn A B = true <-> forall x, In x A -> In x B.
Proof.
  induction A as [|a A IH]; simpl.
  - split; [intros _ x []|reflexivity].
  - destruct (setHas B a) eqn:E.
    + apply setHas_In in E. rewrite IH. split.
      * intros H x [<-|Hx]; auto.
      * intros H x Hx. apply H. auto.
    + split; [discriminate|]. intros H.
      assert (Hin : In a B) by (apply H; auto).
      apply setHas_In in Hin. congruence.
Qed.

(** C5, as the claim states it, fails: for "a b" against "ab" the word
    check fails and the content indicator still shows a match. *)
Lemma contentMatch_ignores_words :
  let a := verifyContentIntegrity (js "a b") (js "ab") (page "A" (js "a b")) in
  isMatch (wordMatch a) = false /\ isMatch (charMatch a) = true /\
  isMatch (contentMatch a) = true.
Proof. vm_compute. repeat split; reflexivity. Qed.

(** C5, amended.  The verifier shows the word indicator as the equality
    of the counts of white-space separated words, the character indicator
    as the equality of the lengths without white space, and the content
    indicator as a match exactly when the character check passes and every
    character (code point) of the original without white space occurs in
    the output without white space, a membership test that ignores order
    and multiplicity; the word check plays no part in the content
    indicator.  The warning banner is on afterwards exactly when it was on
    before or one of the three checks fails, and the output element is
    left as it is. *)
Theorem verifyContentIntegrity_checks (original processed : jstring) (a : app) :
  let a' := verifyContentIntegrity original processed a in
  isMatch (wordMatch a') = Nat.eqb (wordCount original) (wordCount processed) /\
  isMatch (charMatch a') =
    Nat.eqb (length (stripSpace original)) (length (stripSpace processed)) /\
  (isMatch (contentMatch a') = true <->
     isMatch (charMatch a') = true /\
     forall ch, In ch (codePoints (stripSpace original)) ->
                In ch (codePoints (stripSpace processed))) /\
  (warningShown a' = true <->
     warningShown a = true \/ isMatch (wordMatch a') = false \/
     isMatch (charMatch a') = false \/ isMatch (contentMatch a') = false) /\
  outputText a' = outputText a.
Proof.
  cbv zeta.
  assert (Hcov : allIn (newSet (nonSpace original)) (newSet (nonSpace processed)) = true <->
                 forall ch, In ch (codePoints (stripSpace original)) ->
                            In ch (codePoints (stripSpace processed))).
  { rewrite allIn_spec, !nonSpace_stripSpace. split; intros H x Hx.
    - apply newSet_In, H, newSet_In, Hx.
    - apply newSet_In, H, newSet_In, Hx. }
  unfold verifyContentIntegrity, contentVerified in *.
  unfold charsAgree in *. rewrite !nonSpace_stripSpace in *.
  unfold wordsAgree.
  set (w := Nat.eqb (wordCount original) (wordCount processed)).
  set (c := Nat.eqb (length (stripSpace original)) (length (stripSpace processed))).
  set (cov := allIn (newSet (stripSpace original)) (newSet (stripSpace processed))) in *.
  unfold updateVerificationIndicator, showWarning.
  destruct w, c, cov; cbn; repeat split; try tauto; try discriminate;
    try (intros [_ H]; apply Hcov in H; discriminate);
    try (intros; split; [reflexivity|apply Hcov; reflexivity]);
    try (intros [H|[H|[H|H]]]; try discriminate; assumption);
    auto.
Qed.

(** Order and multiplicity are not compared. *)
Lemma contentMatch_is_membership :
  contentVerified (js "aab") (js "bba") = true.
Proof. vm_compute. reflexivity. Qed.

(** ** Lines *)

Lemma splitOn_nonempty (d : char) (s : jstring) : splitOn d s <> [].
Proof.
  destruct s as [|c s]; simpl; [discriminate|].
  destruct (N.eqb c d); [discriminate|]. destruct (splitOn d s); discriminate.
Qed.

Lemma splitOn_free (d : char) (s : jstring) :
  forall l, In l (splitOn d s) -> ~ In d l.
Proof.
  induction s as [|c s IH]; simpl; intros l Hl.
  - destruct Hl as [<-|[]]. intros [].
  - destruct (N.eqb c d) eqn:E.
    + destruct Hl as [<-|Hl]; [intros []|auto].
    + apply N.eqb_neq in E. destruct (splitOn d s) as [|l0 ls] eqn:Es.
      * destruct Hl as [<-|[]]. intros [H|[]]. congruence.
      * destruct Hl as [<-|Hl].
        -- intros [H|H]; [congruence|]. apply (IH l0); simpl; auto.
        -- apply IH. simpl. auto.
Qed.

Lemma splitOn_line (d : char) (l rest : jstring) :
  ~ In d l ->
  splitOn d (l ++ d :: rest) = l :: splitOn d rest.
Proof.
  induction l as [|c l IH]; intros H; simpl.
  - rewrite N.eqb_refl. reflexivity.
  - destruct (N.eqb c d) eqn:E.
    + apply N.eqb_eq in E. exfalso. apply H. simpl. auto.
    + rewrite IH by (intros Hin; apply H; simpl; auto). reflexivity.
Qed.

Lemma splitOn_last (d : char) (l : jstring) : ~ In d l -> splitOn d l = [l].
Proof.
  induction l as [|c l IH]; intros H; simpl; [reflexivity|].
  destruct (N.eqb c d) eqn:E.
  - apply N.eqb_eq in E. exfalso. apply H. simpl. auto.
  - rewrite IH by (intros Hin; apply H; simpl; auto). reflexivity.
Qed.

Lemma splitOn_join (d : char) (ls : list jstring) :
  ls <> [] -> (forall l, In l ls -> ~ In d l) ->
  splitOn d (join [d] ls) = ls.
Proof.
  induction ls as [|l ls IH]; intros Hne H; [congruence|].
  destruct ls as [|l' ls].
  - simpl. apply splitOn_last. apply H. simpl. auto.
  - change (join [d] (l :: l' :: ls)) with (l ++ d :: join [d] (l' :: ls)).
    rewrite splitOn_line by (apply H; simpl; auto).
    rewrite IH; [reflexivity|discriminate|].
    intros x Hx. apply H. simpl. simpl in Hx. tauto.
Qed.

Lemma mapClass_In (p : char -> bool) (rep t : jstring) (c : char) :
  In c (mapClass p rep t) -> In c t \/ In c rep.
Proof.
  induction t as [|x t IH]; simpl; [tauto|].
  rewrite in_app_iff. destruct (p x); simpl; intuition auto.
Qed.

Lemma collapse_In (p : char -> bool) (rep t : jstring) (b : bool) (c : char) :
  In c (collapse p rep b t) -> In c t \/ In c rep.
Proof.
  revert b. induction t as [|x t IH]; intros b; simpl; [tauto|].
  destruct (p x); simpl.
  - rewrite in_app_iff. intros [H|H].
    + destruct b; [destruct H|auto].
    + destruct (IH _ H); auto.
  - intros [H|H]; [auto|]. destruct (IH _ H); auto.
Qed.

Lemma trimStart_In (s : jstring) (c : char) : In c (trimStart s) -> In c s.
Proof.
  induction s as [|x s IH]; simpl; [tauto|].
  destruct (isSpace x); simpl; intuition auto.
Qed.

Lemma trimEnd_In (s : jstring) (c : char) : In c (trimEnd s) -> In c s.
Proof.
  unfold trimEnd. intros H. apply in_rev in H. apply trimStart_In in H.
  apply in_rev. assumption.
Qed.

Lemma trim_In (s : jstring) (c : char) : In c (trim s) -> In c s.
Proof. unfold trim. intros H. apply trimEnd_In, trimStart_In in H. assumption. Qed.

Lemma trimStart_head (s t : jstring) (c : char) :
  trimStart s = c :: t -> isSpace c = false.
Proof.
  induction s as [|x s IH]; simpl; [discriminate|].
  destruct (isSpace x) eqn:E; [assumption|]. intros H. injection H as <- _. assumption.
Qed.

Lemma trimEnd_last (s t : jstring) (c : char) :
  trimEnd s = t ++ [c] -> isSpace c = false.
Proof.
  unfold trimEnd. intros H.
  apply (f_equal (@rev char)) in H. rewrite rev_involutive, rev_app_distr in H.
  simpl in H. apply trimStart_head in H. assumption.
Qed.

(** ** The white-space normalizer *)

(** C6, as the claim states it, fails in the structure-aware variant: a
    carriage return becomes a space, not a line feed, and a run of two
    no-break spaces becomes two spaces, not one. *)
Lemma normalizer_keeps_runs_and_cr :
  Structured.normalizeWhitespaceWithStructure [97; CR; 98]%N = [97; SP; 98]%N /\
  Structured.normalizeWhitespaceWithStructure [97; NBSP; NBSP; 98]%N = [97; SP; SP; 98]%N.
Proof. vm_compute. split; reflexivity. Qed.

Lemma normalizeLine_plain (line : jstring) :
  hasMarker line = false ->
  Structured.normalizeLine line =
  trimEnd (mapClass otherSpace [SP] (collapse (oneOf [SP; TAB]) [SP] false line)).
Proof.
  intros H. unfold Structured.normalizeLine. rewrite H.
  rewrite replaceStr_plus_class by reflexivity.
  rewrite replaceStr_Chr by reflexivity. reflexivity.
Qed.

Lemma normalizeLine_free (line : jstring) :
  ~ In NL line -> ~ In NL (Structured.normalizeLine line).
Proof.
  intros H Hin. destruct (hasMarker line) eqn:E.
  - unfold Structured.normalizeLine in Hin. rewrite E in Hin. auto.
  - rewrite normalizeLine_plain in Hin by assumption.
    apply trimEnd_In, mapClass_In in Hin. destruct Hin as [Hin|Hin].
    + apply collapse_In in Hin. destruct Hin as [Hin|Hin]; [auto|].
      destruct Hin as [Hin|[]]. discriminate.
    + destruct Hin as [Hin|[]]. discriminate.
Qed.

(** C6, amended.  The normalizer of the structure-aware variant works on
    the lines that line feeds delimit and keeps them apart.  A line that
    contains a token marker is left as it is.  On any other line every run
    of tabs and spaces becomes one space, then every carriage return, form
    feed, vertical tab and Unicode space or separator becomes one space
    each, and the white space at the end of the line is removed, so that
    such a line never ends in white space. *)
Theorem normalizeWhitespaceWithStructure_lines (text : jstring) :
  splitOn NL (Structured.normalizeWhitespaceWithStructure text) =
    map Structured.normalizeLine (splitOn NL text) /\
  forall line,
    (hasMarker line = true -> Structured.normalizeLine line = line) /\
    (hasMarker line = false ->
       Structured.normalizeLine line =
         trimEnd (mapClass otherSpace [SP] (collapse (oneOf [SP; TAB]) [SP] false line)) /\
       forall t c, Structured.normalizeLine line = t ++ [c] -> isSpace c = false).
Proof.
  split.
  - unfold Structured.normalizeWhitespaceWithStructure. apply splitOn_join.
    + pose proof (splitOn_nonempty NL text). destruct (splitOn NL text); [congruence|discriminate].
    + intros l Hl. apply in_map_iff in Hl as (l0 & <- & Hl0).
      apply normalizeLine_free. apply (splitOn_free _ _ _ Hl0).
  - intros line. split.
    + intros H. unfold Structured.normalizeLine. rewrite H. reflexivity.
    + intros H. split; [apply normalizeLine_plain; assumption|].
      intros t c E. rewrite normalizeLine_plain in E by assumption.
      apply trimEnd_last in E. assumption.
Qed.

(** ** Modes A and B of the structure-aware variant *)

Lemma trimStart_nil (s : jstring) : trimStart s = [] -> forallb isSpace s = true.
Proof.
  induction s as [|c s IH]; simpl; [reflexivity|].
  destruct (isSpace c); [exact IH|discriminate].
Qed.

Lemma trim_nil (s : jstring) : trim s = [] -> forallb isSpace s = true.
Proof.
  unfold trim, trimEnd. intros H.
  apply (f_equal (@rev char)) in H. rewrite rev_involutive in H. simpl in H.
  apply trimStart_nil in H. rewrite forallb_forall in H.
  destruct (trimStart s) as [|c t] eqn:E.
  - apply trimStart_nil. assumption.
  - pose proof (trimStart_head _ E) as Hc.
    rewrite (H c) in Hc; [discriminate|]. apply -> in_rev. simpl. auto.
Qed.

Lemma isPrefix_cons_In (c : char) (p s : jstring) :
  isPrefix (c :: p) s = true -> In c s.
Proof.
  destruct s as [|x s]; simpl; [discriminate|].
  intros H. apply andb_true_iff in H as [H _]. apply N.eqb_eq in H. auto.
Qed.

Lemma includes_cons_In (c : char) (p s : jstring) :
  includes s (c :: p) = true -> In c s.
Proof.
  induction s as [|x s IH]; intros H.
  - simpl in H. discriminate.
  - cbn [includes] in H. apply orb_true_iff in H as [H|H].
    + apply isPrefix_cons_In in H. assumption.
    + simpl. auto.
Qed.

Lemma hasMarker_not_blank (line : jstring) :
  hasMarker line = true -> isEmpty (trim line) = false.
Proof.
  intros H. assert (Hin : In 95%N line).
  { unfold hasMarker in H.
    apply orb_true_iff in H as [H|H]; [apply orb_true_iff in H as [H|H]|];
      apply (includes_cons_In _ _ _ H). }
  destruct (trim line) eqn:E; [|reflexivity].
  apply trim_nil in E. rewrite forallb_forall in E. apply E in Hin. discriminate.
Qed.

Lemma join_nonempty (sep : jstring) (l : list jstring) :
  l <> [] -> Forall (fun x => x <> []) l -> join sep l <> [].
Proof.
  destruct l as [|x l]; [congruence|]. intros _ H.
  apply Forall_inv in H. destruct l; simpl.
  - assumption.
  - destruct x; [congruence|discriminate].
Qed.

Lemma dropLeadingEmpty_snoc (l : list jstring) (x : jstring) :
  x <> [] -> dropLeadingEmpty (l ++ [x]) = dropLeadingEmpty l ++ [x].
Proof.
  intros Hx. induction l as [|y l IH]; simpl.
  - destruct x; [congruence|reflexivity].
  - destruct y; [exact IH|reflexivity].
Qed.

Lemma dropLeadingEmpty_app (l l' : list jstring) :
  dropLeadingEmpty l <> [] -> dropLeadingEmpty (l ++ l') = dropLeadingEmpty l ++ l'.
Proof.
  induction l as [|y l IH]; simpl; [congruence|].
  destruct y; [exact IH|reflexivity].
Qed.

Lemma dropLeadingEmpty_idem (l : list jstring) :
  dropLeadingEmpty (dropLeadingEmpty l) = dropLeadingEmpty l.
Proof.
  induction l as [|y l IH]; simpl; [reflexivity|].
  destruct y; [exact IH|reflexivity].
Qed.

Lemma dropLeadingEmpty_last (l : list jstring) (d : jstring) :
  dropLeadingEmpty l <> [] -> last (dropLeadingEmpty l) d = last l d.
Proof.
  induction l as [|y l IH]; simpl; [congruence|].
  destruct y.
  - intros H. rewrite IH by assumption.
    destruct l; [simpl in H; congruence|reflexivity].
  - reflexivity.
Qed.

Lemma dropLeadingEmpty_nil_last (l : list jstring) :
  dropLeadingEmpty l = [] -> last l [] = [].
Proof.
  induction l as [|y l IH]; simpl; [reflexivity|].
  destruct y; [|discriminate]. intros H. destruct l; [reflexivity|auto].
Qed.

Lemma endsBlank_snoc (l : list jstring) (x : jstring) :
  endsBlank (l ++ [x]) = isEmpty x.
Proof.
  unfold endsBlank. rewrite last_last, length_app. simpl.
  replace (0 <? length l + 1) with true by (symmetry; apply Nat.ltb_lt; lia).
  reflexivity.
Qed.

Lemma dedupAll_snoc (l : list jstring) (x : jstring) :
  dedupAll (l ++ [x]) = Structured.dedupB (dedupAll l) x.
Proof. unfold dedupAll. rewrite fold_left_app. reflexivity. Qed.

Lemma linesAgree_push (plA plB : list jstring) (x : jstring) :
  x <> [] -> linesAgree plA plB -> linesAgree (plA ++ [x]) (plB ++ [x]).
Proof.
  intros Hx [H1 H2]. unfold linesAgree. rewrite dedupAll_snoc.
  destruct (dedupAll plB) as [rB lwb]. simpl in *.
  unfold Structured.dedupB.
  assert (E : isEmpty x = false) by (destruct x; [congruence|reflexivity]).
  rewrite E. simpl. rewrite endsBlank_snoc, E. split; [|reflexivity].
  rewrite dropLeadingEmpty_snoc by assumption. congruence.
Qed.

Lemma linesAgree_flush (plA plB cp : list jstring) :
  Forall (fun x => x <> []) cp -> linesAgree plA plB ->
  linesAgree (flush plA cp) (flush plB cp).
Proof.
  intros Hcp H. destruct cp as [|x cp]; [exact H|].
  unfold flush. apply linesAgree_push; [|assumption].
  apply join_nonempty; [discriminate|assumption].
Qed.

Lemma linesAgree_blank (plA plB : list jstring) :
  linesAgree plA plB ->
  linesAgree
    (if 0 <? length plA
     then if negb (isEmpty (last plA [])) then plA ++ [[]] else plA
     else plA)
    (plB ++ [[]]).
Proof.
  intros [H1 H2]. unfold linesAgree. rewrite dedupAll_snoc.
  destruct (dedupAll plB) as [rB lwb]. simpl in *.
  unfold Structured.dedupB. simpl. subst plA lwb.
  destruct (endsBlank rB) eqn:E; cbn [fst snd].
  - split; [|symmetry; exact E]. unfold endsBlank in E.
    apply andb_true_iff in E as [E1 E2].
    destruct (dropLeadingEmpty rB) as [|y l] eqn:Ed; [reflexivity|].
    rewrite <- Ed. assert (Hn : dropLeadingEmpty rB <> []) by (rewrite Ed; discriminate).
    rewrite (@dropLeadingEmpty_last rB [] Hn), E2. simpl.
    destruct (0 <? length (dropLeadingEmpty rB)); reflexivity.
  - rewrite endsBlank_snoc. split; [|reflexivity].
    unfold endsBlank in E. apply andb_false_iff in E as [E|E].
    + apply Nat.ltb_ge in E. destruct rB; [reflexivity|simpl in E; lia].
    + assert (Hn : dropLeadingEmpty rB <> []).
      { intros Hd. apply dropLeadingEmpty_nil_last in Hd. rewrite Hd in E. discriminate. }
      rewrite (@dropLeadingEmpty_app rB [[]] Hn), (@dropLeadingEmpty_last rB [] Hn), E. simpl.
      destruct (dropLeadingEmpty rB); [congruence|reflexivity].
Qed.

Lemma trim_not_nil (line : jstring) : isEmpty (trim line) = false -> trim line <> [].
Proof. destruct (trim line); [discriminate|discriminate]. Qed.

Lemma modesAgree_step (accA accB : list jstring * list jstring) (line : jstring) :
  modesAgree accA accB ->
  modesAgree (Structured.stepA accA line) (Structured.stepB accB line).
Proof.
  destruct accA as [plA cpA], accB as [plB cpB].
  intros (Hcp & Hne & Hl). cbn [fst snd] in Hcp, Hne, Hl. subst cpB.
  fold (linesAgree plA plB) in Hl.
  unfold Structured.stepA, Structured.stepB.
  destruct (hasMarker line) eqn:Hm.
  - rewrite (hasMarker_not_blank _ Hm). cbn [orb].
    assert (Hx : line <> []) by (intros ->; discriminate).
    pose proof (linesAgree_push Hx (linesAgree_flush Hne Hl)) as [H1 H2].
    unfold modesAgree. cbn [fst snd].
    repeat split; [constructor|exact H1|exact H2].
  - cbn [orb]. destruct (isEmpty (trim line)) eqn:Hb.
    + pose proof (linesAgree_blank (linesAgree_flush Hne Hl)) as [H1 H2].
      cbn [andb].
      destruct (0 <? length (flush plA cpA));
        [destruct (negb (isEmpty (last (flush plA cpA) [])))|];
        unfold modesAgree; cbn [fst snd];
        repeat split; try constructor; assumption.
    + unfold modesAgree. cbn [fst snd].
      repeat split; [|exact (proj1 Hl)|exact (proj2 Hl)].
      apply Forall_app. split; [assumption|].
      constructor; [apply trim_not_nil; assumption|constructor].
Qed.

Lemma modesAgree_fold (lines : list jstring) :
  forall accA accB, modesAgree accA accB ->
  modesAgree (fold_left Structured.stepA lines accA)
             (fold_left Structured.stepB lines accB).
Proof.
  induction lines as [|l lines IH]; intros accA accB H; simpl; [assumption|].
  apply IH, modesAgree_step, H.
Qed.

(** The two mode engines of the structure-aware variant are one and the
    same function. *)
Lemma processModeA_processModeB (text : jstring) :
  Structured.processModeAWithStructure text = Structured.processModeBWithStructure text.
Proof.
  unfold Structured.processModeAWithStructure, Structured.processModeBWithStructure.
  assert (H0 : modesAgree ([], []) ([], [])).
  { repeat split; constructor. }
  pose proof (modesAgree_fold (splitOn NL text) H0) as H.
  destruct (fold_left Structured.stepA (splitOn NL text) ([], [])) as [plA cpA].
  destruct (fold_left Structured.stepB (splitOn NL text) ([], [])) as [plB cpB].
  destruct H as (Hcp & Hne & Hl). cbn [fst snd] in Hcp, Hne, Hl. subst cpB.
  fold (linesAgree plA plB) in Hl.
  destruct (linesAgree_flush Hne Hl) as [H1 _].
  fold (dedupAll (flush plB cpA)). rewrite H1, dropLeadingEmpty_idem. reflexivity.
Qed.

(** ** Blank lines and their pattern *)

Lemma notSpace_notNL (c : char) : isSpace c = false -> N.eqb NL c = false.
Proof.
  intros H. destruct (N.eqb NL c) eqn:E; [|reflexivity].
  apply N.eqb_eq in E. subst c. discriminate.
Qed.

Lemma tryBack_sepEnd (t : jstring) :
  forall b cs,
  tryBack (fun st => mt (chr NL) st Some) (MState b t cs) (runLength isSpace t) =
  option_map (fun wr => MState (rev (fst wr) ++ b) (snd wr) cs) (sepEnd t).
Proof.
  induction t as [|c t IH]; intros b cs.
  - reflexivity.
  - cbn [runLength sepEnd]. destruct (isSpace c) eqn:Hs.
    + rewrite tryBack_S. unfold advance at 1. cbn [after before caps].
      rewrite IH. destruct (sepEnd t) as [[w r]|]; cbn [option_map fst snd].
      * cbn [rev]. rewrite <- app_assoc. reflexivity.
      * unfold chr. rewrite mt_Chr. cbn [after].
        destruct (N.eqb NL c); reflexivity.
    + cbn [tryBack advanceBy]. unfold chr. rewrite mt_Chr. cbn [after].
      rewrite (notSpace_notNL _ Hs). reflexivity.
Qed.

Lemma exec_blankLineRe (b a : jstring) (cs : list (nat * jstring)) :
  exec blankLineRe (MState b a cs) =
  option_map (fun wr => MState (rev (NL :: fst wr) ++ b) (snd wr) []) (blankAt a).
Proof.
  unfold exec, blankLineRe. cbn [seqs before after].
  rewrite mt_Seq. unfold chr at 1. rewrite mt_Chr. cbn [after].
  destruct a as [|c t]; [reflexivity|]. cbn [blankAt].
  destruct (N.eqb NL c) eqn:E; [|reflexivity].
  apply N.eqb_eq in E. subst c.
  rewrite mt_Seq, mt_Star. unfold advance. cbn [after before caps].
  rewrite starLoop_class by (simpl; lia).
  cbn [after]. rewrite tryBack_sepEnd.
  destruct (sepEnd t) as [[w r]|]; cbn [option_map fst snd]; [|reflexivity].
  cbn [rev]. rewrite <- app_assoc. reflexivity.
Qed.

Lemma sepEnd_spec (t w r : jstring) :
  sepEnd t = Some (w, r) ->
  t = w ++ r /\ forallb isSpace w = true /\ exists w', w = w' ++ [NL].
Proof.
  revert w r. induction t as [|c t IH]; intros w r; cbn [sepEnd]; [discriminate|].
  destruct (isSpace c) eqn:Hs; [|discriminate].
  destruct (sepEnd t) as [[w0 r0]|].
  - intros H. injection H as <- <-. destruct (IH _ _ eq_refl) as (-> & Hw & w' & ->).
    repeat split.
    + cbn [forallb]. rewrite Hs. exact Hw.
    + exists (c :: w'). reflexivity.
  - destruct (N.eqb NL c) eqn:E; [|discriminate].
    apply N.eqb_eq in E. subst c. intros H. injection H as <- <-.
    repeat split. exists []. reflexivity.
Qed.

Lemma blankFrom_app (m t : jstring) :
  forall b, blankFrom b (m ++ t) = blankFrom b m || blankFrom (pendingAfter b m) t.
Proof.
  induction m as [|c m IH]; intros b; cbn [List.app blankFrom pendingAfter].
  - reflexivity.
  - destruct (N.eqb NL c); [|destruct (isSpace c)]; rewrite IH;
      try reflexivity. rewrite orb_assoc. reflexivity.
Qed.

Lemma blankFrom_mono (t : jstring) :
  forall b, blankFrom b t = false -> blankFrom false t = false.
Proof.
  induction t as [|c t IH]; intros b; cbn [blankFrom]; [reflexivity|].
  destruct (N.eqb NL c).
  - intros H. apply orb_false_iff in H as [_ H]. exact H.
  - destruct (isSpace c); [apply IH|trivial].
Qed.

Lemma blankFrom_true_sepEnd (t : jstring) :
  blankFrom true t = false -> sepEnd t = None.
Proof.
  induction t as [|c t IH]; cbn [blankFrom sepEnd]; [reflexivity|].
  destruct (N.eqb NL c) eqn:E; [discriminate|].
  destruct (isSpace c); [|reflexivity].
  intros H. rewrite (IH H). reflexivity.
Qed.

(** Without a blank line there is no match at any position. *)
Lemma noBlank_blankAt (x a : jstring) :
  hasBlankLine (x ++ a) = false -> blankAt a = None.
Proof.
  unfold hasBlankLine. rewrite blankFrom_app. intros H.
  apply orb_false_iff in H as [_ H]. apply blankFrom_mono in H.
  destruct a as [|c t]; [reflexivity|]. cbn [blankAt]. cbn [blankFrom] in H.
  destruct (N.eqb NL c); [|reflexivity].
  apply blankFrom_true_sepEnd. exact H.
Qed.

Lemma sepEnd_NL (t : jstring) : sepEnd (NL :: t) <> None.
Proof.
  cbn [sepEnd]. change (isSpace NL) with true. cbn iota.
  destruct (sepEnd t) as [[w r]|]; discriminate.
Qed.

(** Without a match at any position there is no blank line. *)
Lemma blankAt_noBlank (s : jstring) :
  forall b,
  (forall x a, s = x ++ a -> blankAt a = None) ->
  (b = true -> sepEnd s = None) ->
  blankFrom b s = false.
Proof.
  induction s as [|c s IH]; intros b Hall Hb; [reflexivity|].
  cbn [blankFrom].
  assert (Htl : forall x a, s = x ++ a -> blankAt a = None).
  { intros x a E. apply (Hall (c :: x)). rewrite E. reflexivity. }
  destruct (N.eqb NL c) eqn:E.
  - apply N.eqb_eq in E. subst c. destruct b.
    + exfalso. apply (sepEnd_NL s). apply Hb. reflexivity.
    + cbn [orb]. apply IH; [exact Htl|]. intros _.
      pose proof (Hall [] (NL :: s) eq_refl) as H. cbn [blankAt] in H.
      rewrite N.eqb_refl in H. exact H.
  - destruct (isSpace c) eqn:Hs.
    + apply IH; [exact Htl|]. intros Hb'. specialize (Hb Hb').
      cbn [sepEnd] in Hb. rewrite Hs, E in Hb.
      destruct (sepEnd s) as [[w r]|]; [discriminate|reflexivity].
    + apply IH; [exact Htl|discriminate].
Qed.

Lemma sepEnd_app_None (t z : jstring) : sepEnd (t ++ z) = None -> sepEnd t = None.
Proof.
  induction t as [|c t IH]; [reflexivity|]. cbn [List.app sepEnd].
  destruct (isSpace c); [|reflexivity].
  destruct (sepEnd (t ++ z)) as [[w r]|] eqn:E; [discriminate|].
  rewrite (IH eq_refl). destruct (N.eqb NL c); [discriminate|reflexivity].
Qed.

Lemma blankAt_app_None (a z : jstring) :
  a <> [] -> blankAt (a ++ z) = None -> blankAt a = None.
Proof.
  destruct a as [|c t]; [congruence|]. intros _. cbn [List.app blankAt].
  destruct (N.eqb NL c); [apply sepEnd_app_None|reflexivity].
Qed.

Lemma blankAt_spec (a w r : jstring) :
  blankAt a = Some (w, r) ->
  a = NL :: w ++ r /\ forallb isSpace w = true /\ exists w', w = w' ++ [NL].
Proof.
  destruct a as [|c t]; cbn [blankAt]; [discriminate|].
  destruct (N.eqb NL c) eqn:E; [|discriminate].
  apply N.eqb_eq in E. subst c. intros H.
  destruct (sepEnd_spec _ H) as (-> & Hw & Hw'). auto.
Qed.

Lemma consumed_app (m r b b' : jstring) (cs cs' : list (nat * jstring)) :
  consumed (MState b (m ++ r) cs) (MState b' r cs') = m.
Proof.
  unfold consumed. cbn [after]. rewrite length_app.
  replace (length m + length r - length r) with (length m) by lia.
  rewrite firstn_app, firstn_all, Nat.sub_diag. cbn [firstn]. apply app_nil_r.
Qed.

(** ** Splitting at blank lines *)

Lemma splitLoop_match (fuel : nat) (piece b a w r : jstring) (cs : list (nat * jstring)) :
  blankAt a = Some (w, r) ->
  splitLoop (S fuel) blankLineRe piece (MState b a cs) =
  rev piece :: splitLoop fuel blankLineRe [] (MState (rev (NL :: w) ++ b) r []).
Proof.
  intros H. cbn [splitLoop after]. rewrite exec_blankLineRe, H.
  destruct (blankAt_spec _ H) as (-> & _ & _). cbn [option_map fst snd].
  change (NL :: w ++ r) with ((NL :: w) ++ r) at 1.
  rewrite consumed_app. reflexivity.
Qed.

Lemma splitLoop_nomatch (fuel : nat) (piece b rest : jstring) (c : char)
  (cs : list (nat * jstring)) :
  blankAt (c :: rest) = None ->
  splitLoop (S fuel) blankLineRe piece (MState b (c :: rest) cs) =
  splitLoop fuel blankLineRe (c :: piece) (MState (c :: b) rest cs).
Proof.
  intros H. cbn [splitLoop after]. rewrite exec_blankLineRe, H. reflexivity.
Qed.

(** A text without a blank line is its own single piece. *)
Lemma splitLoop_noBlank (fuel : nat) :
  forall piece b a cs, length a < fuel ->
  (forall x y, a = x ++ y -> blankAt y = None) ->
  splitLoop fuel blankLineRe piece (MState b a cs) = [rev piece ++ a].
Proof.
  induction fuel as [|fuel IH]; intros piece b a cs Hf Hall; [lia|].
  destruct a as [|c rest].
  - cbn [splitLoop after]. rewrite app_nil_r. reflexivity.
  - rewrite splitLoop_nomatch by (apply (Hall [] _ eq_refl)).
    rewrite IH.
    + cbn [rev]. rewrite <- app_assoc. reflexivity.
    + simpl in Hf. lia.
    + intros x y E. apply (Hall (c :: x)). rewrite E. reflexivity.
Qed.

Lemma splitRe_noBlank (text : jstring) :
  hasBlankLine text = false -> splitRe blankLineRe text = [text].
Proof.
  intros H. destruct text as [|c t]; [reflexivity|].
  unfold splitRe, start. rewrite splitLoop_noBlank; [reflexivity|lia|].
  intros x y E. apply (noBlank_blankAt x). rewrite <- E. exact H.
Qed.

Lemma app_snoc_split (A : Type) (l x y : list A) (c : A) :
  l ++ [c] = x ++ y -> y <> [] -> exists y0, y = y0 ++ [c] /\ l = x ++ y0.
Proof.
  intros E Hy. destruct (exists_last Hy) as (y0 & d & ->).
  rewrite app_assoc in E. apply app_inj_tail in E as [E ->].
  exists y0. auto.
Qed.

Lemma noBlank_of_suffixes (p z : jstring) :
  (forall x y, p = x ++ y -> y <> [] -> blankAt (y ++ z) = None) ->
  hasBlankLine p = false.
Proof.
  intros H. apply blankAt_noBlank; [|discriminate].
  intros x a E. destruct a as [|c a]; [reflexivity|].
  apply (@blankAt_app_None (c :: a) z); [discriminate|].
  apply (H x); [exact E|discriminate].
Qed.

(** No piece of a split at blank lines holds a blank line. *)
Lemma splitLoop_pieces (fuel : nat) :
  forall piece b a cs, length a < fuel ->
  (forall x y, rev piece = x ++ y -> y <> [] -> blankAt (y ++ a) = None) ->
  forall p, In p (splitLoop fuel blankLineRe piece (MState b a cs)) ->
  hasBlankLine p = false.
Proof.
  induction fuel as [|fuel IH]; intros piece b a cs Hf Hinv p Hp; [lia|].
  destruct a as [|c rest].
  - cbn [splitLoop after] in Hp. destruct Hp as [<-|[]].
    apply (noBlank_of_suffixes [] Hinv).
  - destruct (blankAt (c :: rest)) as [[w r]|] eqn:E.
    + erewrite splitLoop_match in Hp by exact E.
      destruct Hp as [<-|Hp].
      * apply (noBlank_of_suffixes _ Hinv).
      * destruct (blankAt_spec _ E) as (Ea & _ & _).
        apply (IH [] (rev (NL :: w) ++ b) r []); [| |exact Hp].
        -- apply (f_equal (@length char)) in Ea. simpl in Ea, Hf.
           rewrite length_app in Ea. lia.
        -- intros x y E' Hy. destruct x; destruct y; cbn in E'; congruence.
    + rewrite splitLoop_nomatch in Hp by exact E.
      apply (IH (c :: piece) (c :: b) rest cs); [simpl in Hf; lia| |exact Hp].
      intros x y Exy Hy. cbn [rev] in Exy.
      destruct (app_snoc_split _ _ _ Exy Hy) as (y0 & -> & Ep).
      rewrite <- app_assoc. cbn [List.app].
      destruct y0 as [|d y0]; [exact E|].
      apply (Hinv x); [exact Ep|discriminate].
Qed.

Lemma splitRe_pieces (text p : jstring) :
  In p (splitRe blankLineRe text) -> hasBlankLine p = false.
Proof.
  destruct text as [|c t].
  - cbn. intros [<-|[]]. reflexivity.
  - unfold splitRe, start. apply splitLoop_pieces; [simpl; lia|].
    intros [|] ? E ?; cbn in E; [congruence|discriminate].
Qed.

Lemma splitIntoBatches_noBlank (text batch : jstring) :
  In batch (splitIntoBatches text) -> hasBlankLine batch = false.
Proof.
  unfold splitIntoBatches. intros H. apply filter_In in H as [H _].
  apply (splitRe_pieces _ _ H).
Qed.

Lemma splitLoop_scan (z b : jstring) :
  forall fuel piece bk cs,
  (forall x a, b = x ++ a -> a <> [] -> blankAt (a ++ z) = None) ->
  length (b ++ z) < fuel ->
  splitLoop fuel blankLineRe piece (MState bk (b ++ z) cs) =
  splitLoop (fuel - length b) blankLineRe (rev b ++ piece) (MState (rev b ++ bk) z cs).
Proof.
  induction b as [|c b IH]; intros fuel piece bk cs Hall Hf.
  - cbn. rewrite Nat.sub_0_r. reflexivity.
  - destruct fuel as [|fuel]; [lia|]. cbn [List.app].
    rewrite splitLoop_nomatch by (apply (Hall [] (c :: b)); [reflexivity|discriminate]).
    rewrite IH.
    + cbn [rev length Nat.sub]. rewrite <- !app_assoc. reflexivity.
    + intros x a E Ha. apply (Hall (c :: x)); [rewrite E; reflexivity|exact Ha].
    + simpl in Hf. lia.
Qed.

Lemma sepEnd_app_nonSpace (t z : jstring) :
  existsb (fun c => negb (isSpace c)) t = true ->
  sepEnd t = None -> sepEnd (t ++ z) = None.
Proof.
  induction t as [|c t IH]; cbn [existsb List.app sepEnd]; [discriminate|].
  destruct (isSpace c); cbn [negb orb]; [|reflexivity].
  intros Hex H. destruct (sepEnd t) as [[w r]|]; [discriminate|].
  rewrite (IH Hex eq_refl). destruct (N.eqb NL c); [discriminate|reflexivity].
Qed.

Lemma last_nonSpace_exists (t : jstring) (d : char) :
  t <> [] -> isSpace (last t d) = false ->
  existsb (fun c => negb (isSpace c)) t = true.
Proof.
  intros Hne H. apply existsb_exists. exists (last t d). split.
  - destruct (exists_last Hne) as (t' & c & ->). rewrite last_last.
    apply in_or_app. right. simpl. auto.
  - rewrite H. reflexivity.
Qed.

Lemma isBatch_parts (b : jstring) :
  isBatch b = true ->
  isSpace (hd SP b) = false /\ isSpace (last b SP) = false /\ hasBlankLine b = false.
Proof.
  unfold isBatch. intros H.
  apply andb_true_iff in H as [H H3]. apply andb_true_iff in H as [H1 H2].
  repeat split; apply negb_true_iff; assumption.
Qed.

Lemma isBatch_cons (b : jstring) :
  isBatch b = true -> exists c t, b = c :: t /\ isSpace c = false.
Proof.
  intros H. destruct (isBatch_parts _ H) as (H1 & _ & _).
  destruct b as [|c t]; [discriminate|]. exists c, t. auto.
Qed.

Lemma last_app_right (A : Type) (x a : list A) (d : A) :
  a <> [] -> last (x ++ a) d = last a d.
Proof.
  intros Ha. destruct (exists_last Ha) as (a' & c & ->).
  rewrite app_assoc, !last_last. reflexivity.
Qed.

(** Inside a batch no blank-line boundary starts, whatever follows it. *)
Lemma isBatch_no_match (b z x a : jstring) :
  isBatch b = true -> b = x ++ a -> a <> [] -> blankAt (a ++ z) = None.
Proof.
  intros Hb E Ha. destruct (isBatch_parts _ Hb) as (_ & Hl & Hn).
  destruct a as [|c a]; [congruence|]. cbn [List.app blankAt].
  destruct (N.eqb NL c) eqn:Ec; [|reflexivity].
  apply N.eqb_eq in Ec. subst c.
  assert (Hsep : sepEnd a = None).
  { pose proof (@noBlank_blankAt x (NL :: a)) as H. rewrite <- E in H.
    specialize (H Hn). cbn [blankAt] in H. rewrite N.eqb_refl in H. exact H. }
  apply sepEnd_app_nonSpace; [|exact Hsep].
  assert (Hla : last b SP = last (NL :: a) SP).
  { rewrite E. apply last_app_right. discriminate. }
  destruct a as [|d a].
  - rewrite Hla in Hl. discriminate.
  - apply (@last_nonSpace_exists (d :: a) SP); [discriminate|].
    rewrite Hla in Hl. exact Hl.
Qed.

Lemma sepEnd_full (t r : jstring) :
  forallb isSpace t = true -> N.eqb NL (last t SP) = true ->
  sepEnd r = None ->
  sepEnd (t ++ r) = Some (t, r).
Proof.
  induction t as [|x t IH]; intros Hs Hl Hr.
  - discriminate.
  - cbn [forallb] in Hs. apply andb_true_iff in Hs as [Hx Hs].
    cbn [List.app sepEnd]. rewrite Hx. destruct t as [|y t].
    + cbn [List.app]. cbn [last] in Hl. rewrite Hr, Hl. reflexivity.
    + rewrite IH; [reflexivity|exact Hs|exact Hl|exact Hr].
Qed.

Lemma isSeparator_match (s r : jstring) :
  isSeparator s = true -> (exists c t, r = c :: t /\ isSpace c = false) ->
  exists w, s = NL :: w /\ blankAt (s ++ r) = Some (w, r).
Proof.
  destruct s as [|c t]; [discriminate|]. cbn [isSeparator].
  intros H (d & r' & -> & Hd).
  apply andb_true_iff in H as [H H3]. apply andb_true_iff in H as [H1 H2].
  pose proof H1 as Hc. apply N.eqb_eq in Hc. subst c.
  exists t. split; [reflexivity|]. cbn [List.app blankAt]. rewrite N.eqb_refl.
  apply sepEnd_full; [exact H2|exact H3|]. cbn [sepEnd]. rewrite Hd. reflexivity.
Qed.

Lemma tailOf_cons_start (rest : list (jstring * jstring)) (b : jstring) :
  isBatch b = true ->
  exists c t, b ++ tailOf rest = c :: t /\ isSpace c = false.
Proof.
  intros H. destruct (isBatch_cons _ H) as (c & t & -> & Hc).
  exists c, (t ++ tailOf rest). auto.
Qed.

(** Splitting a woven text gives back the batches. *)
Lemma splitLoop_weave (rest : list (jstring * jstring)) :
  forall b fuel piece bk cs,
  wellFormed b rest ->
  length (b ++ tailOf rest) < fuel ->
  splitLoop fuel blankLineRe piece (MState bk (b ++ tailOf rest) cs) =
  (rev piece ++ b) :: map snd rest.
Proof.
  induction rest as [|[s b'] rest IH]; intros b fuel piece bk cs [Hb Hrest] Hf.
  - cbn [tailOf map concat] in *.
    rewrite splitLoop_scan by (try exact Hf; intros x a; apply isBatch_no_match; exact Hb).
    rewrite app_nil_r in Hf.
    destruct (fuel - length b) eqn:E; [lia|].
    cbn [splitLoop after]. rewrite rev_app_distr, rev_involutive. reflexivity.
  - inversion Hrest as [|? ? [Hs Hb'] Hrest']; subst. cbn [fst snd] in Hs, Hb'.
    assert (Et : tailOf ((s, b') :: rest) = s ++ (b' ++ tailOf rest))
      by (unfold tailOf; cbn [map concat fst snd]; rewrite <- app_assoc; reflexivity).
    rewrite Et in *.
    rewrite splitLoop_scan by (try exact Hf; intros x a; apply isBatch_no_match; exact Hb).
    destruct (@isSeparator_match s (b' ++ tailOf rest) Hs (@tailOf_cons_start rest b' Hb'))
      as (w & -> & Hm).
    rewrite !length_app in Hf. cbn [length] in Hf.
    destruct (fuel - length b) as [|f] eqn:E; [lia|].
    erewrite splitLoop_match by exact Hm.
    rewrite IH; [|split; assumption|rewrite length_app; lia].
    rewrite rev_app_distr, rev_involutive. reflexivity.
Qed.

Lemma trimStart_id (s : jstring) : isSpace (hd SP s) = false -> trimStart s = s.
Proof. destruct s as [|c s]; cbn; [reflexivity|]. intros ->. reflexivity. Qed.

Lemma trim_id (s : jstring) :
  isSpace (hd SP s) = false -> isSpace (last s SP) = false -> trim s = s.
Proof.
  intros H1 H2. unfold trim, trimEnd. rewrite (trimStart_id _ H1).
  rewrite trimStart_id; [apply rev_involutive|].
  destruct s as [|c s]; [discriminate|].
  destruct (@exists_last _ (c :: s)) as (t & d & E); [discriminate|].
  rewrite E in *. rewrite last_last in H2. rewrite rev_app_distr. exact H2.
Qed.

Lemma isBatch_trim (b : jstring) : isBatch b = true -> trim b = b.
Proof.
  intros H. destruct (isBatch_parts _ H) as (H1 & H2 & _). apply trim_id; assumption.
Qed.

Lemma isBatch_truthy (b : jstring) : isBatch b = true -> truthy (trim b) = true.
Proof.
  intros H. rewrite (isBatch_trim _ H).
  destruct (isBatch_cons _ H) as (c & t & -> & _). reflexivity.
Qed.

Lemma splitRe_nonempty (r : regex) (text : jstring) :
  text <> [] -> splitRe r text = splitLoop (S (2 * length text)) r [] (start text).
Proof. destruct text; [congruence|reflexivity]. Qed.

Lemma weave_batches (b : jstring) (rest : list (jstring * jstring)) :
  wellFormed b rest -> splitIntoBatches (weave b rest) = b :: map snd rest.
Proof.
  intros H. unfold splitIntoBatches, weave.
  destruct (@tailOf_cons_start rest b (proj1 H)) as (c & t & E & _).
  rewrite splitRe_nonempty by (rewrite E; discriminate). unfold start.
  rewrite splitLoop_weave; [|exact H|lia]. cbn [rev List.app].
  destruct H as [Hb Hrest]. cbn [filter]. rewrite (isBatch_truthy _ Hb). f_equal.
  clear E. induction Hrest as [|[s b'] rest' [_ Hb'] _ IH]; [reflexivity|].
  cbn [snd] in Hb'. cbn [map filter snd]. rewrite (isBatch_truthy _ Hb'), IH. reflexivity.
Qed.



Lemma script_output (a : app) :
  truthy (trim (inputText a)) = true ->
  outputText (Script.processText a) =
  join [NL; NL]
    (snd (Script.processBatches (mode a) (splitIntoBatches (trim (inputText a))) (Prot [] 1))).
Proof.
  intros H. unfold Script.processText. rewrite H. cbn [negb].
  unfold Script.run.
  destruct (Script.processBatches _ _ _) as [p outs].
  rewrite outputText_verifyContentIntegrity. reflexivity.
Qed.

Lemma structured_output (a : app) :
  truthy (trim (inputText a)) = true ->
  outputText (Structured.processText a) =
  join [NL; NL]
    (snd (Structured.processBatches (mode a) (splitIntoBatches (inputText a)) (Prot [] 1))).
Proof.
  intros H. unfold Structured.processText. rewrite H. cbn [negb].
  unfold Structured.run.
  destruct (Structured.processBatches _ _ _) as [p outs].
  rewrite outputText_verifyContentIntegrity. reflexivity.
Qed.

(** ** The batch orchestrator *)


(** ** Every match is a piece of the text *)

Lemma isPrefixCi_length (ci : bool) (p s : jstring) :
  isPrefixCi ci p s = true -> length p <= length s.
Proof.
  revert s. induction p as [|x p IH]; intros [|y s]; simpl; try lia; try discriminate.
  intros H. apply andb_true_iff in H as [_ H]. apply IH in H. lia.
Qed.

Lemma reach_advanceBy (n : nat) (st : mstate) :
  n <= length (after st) -> reach st (advanceBy n st).
Proof.
  destruct st as [b a cs]. cbn [after]. intros H.
  rewrite advanceBy_firstn by exact H.
  exists (firstn n a). cbn [after before]. split; [|reflexivity].
  symmetry. apply firstn_skipn.
Qed.

Lemma starLoop_reach (body : mstate -> (mstate -> option mstate) -> option mstate)
  (greedy : bool) (k : mstate -> option mstate) :
  (forall st k' x, body st k' = Some x -> exists st', reach st st' /\ k' st' = Some x) ->
  forall n st x, starLoop body greedy k n st = Some x ->
  exists st', reach st st' /\ k st' = Some x.
Proof.
  intros Hbody. induction n as [|n IH]; intros st x H.
  - exists st. split; [apply reach_refl|exact H].
  - cbn [starLoop] in H.
    assert (Hagain : forall y,
      body st (fun st' => if length (after st') <? length (after st)
                          then starLoop body greedy k n st' else None) = Some y ->
      exists st', reach st st' /\ k st' = Some y).
    { intros y Hy. apply Hbody in Hy as (st1 & Hr1 & Hy).
      destruct (length (after st1) <? length (after st)); [|discriminate].
      apply IH in Hy as (st2 & Hr2 & Hy). exists st2.
      split; [exact (reach_trans Hr1 Hr2)|exact Hy]. }
    destruct greedy.
    + destruct (body st _) as [y|] eqn:E.
      * injection H as ->. apply Hagain. reflexivity.
      * exists st. split; [apply reach_refl|exact H].
    + destruct (k st) as [y|] eqn:E.
      * injection H as ->. exists st. split; [apply reach_refl|exact E].
      * apply Hagain. exact H.
Qed.

Lemma mt_reach (r : regex) :
  forall st k x, mt r st k = Some x -> exists st', reach st st' /\ k st' = Some x.
Proof.
  induction r as [|p|r1 IH1 r2 IH2|r1 IH1 r2 IH2|g r IH| | | |n r IH|ci n];
    intros st k x H.
  - exists st. split; [apply reach_refl|exact H].
  - rewrite mt_Chr in H. destruct (after st) as [|c rest] eqn:E; [discriminate|].
    destruct (p c); [|discriminate].
    exists (advance st). split; [exact (reach_advance _ E)|exact H].
  - rewrite mt_Seq in H. apply IH1 in H as (st1 & Hr1 & H).
    apply IH2 in H as (st2 & Hr2 & H). exists st2.
    split; [exact (reach_trans Hr1 Hr2)|exact H].
  - cbn [mt] in H. destruct (mt r1 st k) as [y|] eqn:E.
    + injection H as ->. apply IH1. exact E.
    + apply IH2. exact H.
  - rewrite mt_Star in H. apply (@starLoop_reach (mt r) g k IH) in H. exact H.
  - cbn [mt] in H. exists st. split; [apply reach_refl|].
    destruct (before st) as [|c ?]; [exact H|]. destruct (isLineTerminator c); [exact H|discriminate].
  - cbn [mt] in H. exists st. split; [apply reach_refl|].
    destruct (after st) as [|c ?]; [exact H|]. destruct (isLineTerminator c); [exact H|discriminate].
  - cbn [mt] in H. exists st. split; [apply reach_refl|].
    destruct (xorb _ _); [exact H|discriminate].
  - cbn [mt] in H. apply IH in H as (st1 & Hr1 & H).
    eexists. split; [|exact H].
    destruct Hr1 as (m & H1 & H2). exists m. split; assumption.
  - cbn [mt] in H. destruct (getCap n (caps st)) as [s|].
    + destruct (isPrefixCi ci s (after st)) eqn:E; [|discriminate].
      exists (advanceBy (length s) st). split; [|exact H].
      apply reach_advanceBy. apply (isPrefixCi_length _ _ _ E).
    + exists st. split; [apply reach_refl|exact H].
Qed.

Lemma exec_reach (r : regex) (st st' : mstate) :
  exec r st = Some st' -> reach st st'.
Proof.
  unfold exec. intros H. apply mt_reach in H as (st1 & (m & H1 & H2) & H).
  injection H as ->. exists m. split; assumption.
Qed.

(** The result of a global replacement is the text with some of its
    substrings replaced by what the callback returned for them. *)
Lemma replaceLoop_rewrites (S : Type) (r : regex)
  (f : S -> jstring -> jstring -> jstring -> S * jstring)
  (ok : jstring -> jstring -> Prop) :
  (forall s pre m post, ok m (snd (f s pre m post))) ->
  forall fuel s st, length (after st) < fuel ->
  Rewrites ok (after st) (snd (replaceLoop fuel r f s st)).
Proof.
  intros Hok. induction fuel as [|fuel IH]; intros s st Hf; [lia|].
  assert (Hadv : forall c rest, after st = c :: rest -> after (advance st) = rest).
  { intros c rest Ea. unfold advance. rewrite Ea. reflexivity. }
  cbn [replaceLoop]. destruct (exec r st) as [st'|] eqn:E.
  - pose proof (exec_reach _ _ E) as Hr.
    pose proof (reach_consumed Hr) as Hc.
    pose proof (Hok s (rev (before st)) (consumed st st') (after st')) as Hm.
    destruct (f s (rev (before st)) (consumed st st') (after st')) as [s1 rep].
    cbn [snd] in Hm. revert Hc Hm.
    destruct (consumed st st') as [|c0 m]; intros Hc Hm.
    + destruct (after st) as [|c rest] eqn:Ea.
      * cbn [snd]. rewrite <- (app_nil_r rep).
        apply (rw_rep [] rep Hm). constructor.
      * specialize (IH s1 (advance st)). rewrite (Hadv _ _ eq_refl) in IH.
        destruct (replaceLoop fuel r f s1 (advance st)) as [s2 out]. cbn [snd] in *.
        apply (rw_rep [] rep Hm). constructor. apply IH. simpl in Hf. lia.
    + specialize (IH s1 st').
      destruct (replaceLoop fuel r f s1 st') as [s2 out]. cbn [snd] in *.
      rewrite Hc. apply (rw_rep (c0 :: m) rep Hm). apply IH.
      rewrite Hc in Hf. simpl in Hf. rewrite length_app in Hf. lia.
  - destruct (after st) as [|c rest] eqn:Ea.
    + constructor.
    + specialize (IH s (advance st)). rewrite (Hadv _ _ eq_refl) in IH.
      destruct (replaceLoop fuel r f s (advance st)) as [s2 out]. cbn [snd] in *.
      constructor. apply IH. simpl in Hf. lia.
Qed.

Lemma replaceWith_rewrites (S : Type) (r : regex)
  (f : S -> jstring -> jstring -> jstring -> S * jstring)
  (ok : jstring -> jstring -> Prop) (s : S) (text : jstring) :
  (forall s pre m post, ok m (snd (f s pre m post))) ->
  Rewrites ok text (snd (replaceWith r f s text)).
Proof.
  intros Hok. unfold replaceWith.
  change text with (after (start text)) at 1.
  apply replaceLoop_rewrites; [exact Hok|]. simpl. lia.
Qed.


(** ** Replacements that keep a text free of blank lines *)

Lemma blankFrom_nonSpace (rep : jstring) :
  forallb (fun c => negb (isSpace c)) rep = true ->
  forall b, blankFrom b rep = false /\ (rep <> [] -> pendingAfter b rep = false).
Proof.
  induction rep as [|c rep IH]; intros H b.
  - split; [reflexivity|congruence].
  - cbn [forallb] in H. apply andb_true_iff in H as [Hc H].
    apply negb_true_iff in Hc. cbn [blankFrom pendingAfter].
    rewrite (notSpace_notNL _ Hc), Hc. destruct (IH H false) as [H1 H2].
    split; [exact H1|]. intros _. destruct rep as [|d rep]; [reflexivity|].
    apply H2. discriminate.
Qed.

Lemma Rewrites_noBlank (t t' : jstring) :
  Rewrites keptOrSolid t t' ->
  forall b, blankFrom b t = false -> blankFrom b t' = false.
Proof.
  induction 1 as [|c t t' _ IH|m rep t t' Hok _ IH]; intros b H.
  - reflexivity.
  - cbn [blankFrom] in *. destruct (N.eqb NL c).
    + apply orb_false_iff in H as [-> H]. cbn [orb]. apply IH. exact H.
    + destruct (isSpace c); apply IH; exact H.
  - rewrite blankFrom_app in *. apply orb_false_iff in H as [H1 H2].
    destruct Hok as [->|[Hne Hs]].
    + rewrite H1. cbn [orb]. apply IH. exact H2.
    + destruct (blankFrom_nonSpace _ Hs b) as [-> Hp]. rewrite (Hp Hne).
      cbn [orb]. apply IH. apply (blankFrom_mono _ _ H2).
Qed.

Lemma js_String (c : ascii) (s : string) : js (String c s) = N_of_ascii c :: js s.
Proof. reflexivity. Qed.

Lemma uint_nonSpace (d : Decimal.uint) :
  forallb (fun c => negb (isSpace c)) (js (NilEmpty.string_of_uint d)) = true.
Proof.
  induction d; cbn [NilEmpty.string_of_uint]; try reflexivity;
    rewrite js_String; cbn [forallb]; rewrite IHd; reflexivity.
Qed.

Lemma decimal_nonSpace (n : N) :
  forallb (fun c => negb (isSpace c)) (decimal n) = true.
Proof.
  unfold decimal, NilZero.string_of_uint.
  destruct (N.to_uint n) eqn:E; try reflexivity; rewrite <- E; apply uint_nonSpace.
Qed.

Lemma token_solid (prefix : jstring) (n : N) :
  prefix <> [] -> forallb (fun c => negb (isSpace c)) prefix = true ->
  solid (prefix ++ decimal n ++ js "__").
Proof.
  intros Hne Hp. split.
  - destruct prefix; [congruence|discriminate].
  - rewrite !forallb_app, Hp, decimal_nonSpace. reflexivity.
Qed.

Lemma protectMatch_keptOrSolid (q : prot) (m : jstring) :
  keptOrSolid m (snd (Script.protectMatch q m)).
Proof.
  unfold Script.protectMatch. destruct (includes m (js "__PROTECTED_")).
  - left. reflexivity.
  - right. apply token_solid; [discriminate|reflexivity].
Qed.

Lemma protectContent_noBlank (text : jstring) (p : prot) :
  hasBlankLine text = false ->
  hasBlankLine (snd (Script.protectContent text p)) = false.
Proof.
  unfold Script.protectContent. generalize Script.patterns. intros pats.
  change text with (snd (p, text)) at 1. generalize (p, text).
  induction pats as [|r pats IH]; intros acc H; [exact H|].
  cbn [fold_left]. apply IH.
  apply (@Rewrites_noBlank (snd acc)); [|exact H].
  apply replaceWith_rewrites. intros s pre m post. apply protectMatch_keptOrSolid.
Qed.

Lemma blankFrom_mapClass (p : char -> bool) (t : jstring) :
  (forall c, p c = true -> isSpace c = true /\ N.eqb NL c = false) ->
  forall b, blankFrom b (mapClass p [SP] t) = blankFrom b t.
Proof.
  intros Hp. induction t as [|c t IH]; intros b; [reflexivity|].
  cbn [mapClass flat_map]. fold (mapClass p [SP] t).
  destruct (p c) eqn:E.
  - destruct (Hp c E) as [Hs Hn]. cbn [List.app blankFrom].
    rewrite Hs, Hn. change (N.eqb NL SP) with false. change (isSpace SP) with true.
    cbn iota. apply IH.
  - cbn [List.app blankFrom]. rewrite !IH. reflexivity.
Qed.

Lemma blankFrom_collapse (p : char -> bool) (t : jstring) :
  (forall c, p c = true -> isSpace c = true /\ N.eqb NL c = false) ->
  forall b inRun, blankFrom b (collapse p [SP] inRun t) = blankFrom b t.
Proof.
  intros Hp. induction t as [|c t IH]; intros b inRun; [reflexivity|].
  cbn [collapse]. destruct (p c) eqn:E.
  - destruct (Hp c E) as [Hs Hn]. cbn [blankFrom]. rewrite Hs, Hn.
    destruct inRun; cbn [List.app blankFrom].
    + apply IH.
    + change (N.eqb NL SP) with false. change (isSpace SP) with true.
      cbn iota. apply IH.
  - cbn [blankFrom]. rewrite !IH. reflexivity.
Qed.

Lemma mapClass_id (p : char -> bool) (rep t : jstring) :
  (forall c, In c t -> p c = false) -> mapClass p rep t = t.
Proof.
  induction t as [|c t IH]; intros H; [reflexivity|].
  cbn [mapClass flat_map]. fold (mapClass p rep t).
  rewrite (H c) by (simpl; auto). rewrite IH by (intros d Hd; apply H; simpl; auto).
  reflexivity.
Qed.

(** A pattern that starts with a class none of the code units is in
    matches nowhere. *)
Lemma replaceLoop_no_head (p : char -> bool) (r : regex)
  (g : unit -> jstring -> jstring -> jstring -> unit * jstring) :
  forall fuel b a cs, length a < fuel ->
  (forall c, In c a -> p c = false) ->
  snd (replaceLoop fuel (Seq (Chr p) r) g tt (MState b a cs)) = a.
Proof.
  induction fuel as [|fuel IH]; intros b a cs Hf H; [lia|].
  rewrite replaceLoop_unit. unfold exec. rewrite mt_Seq, mt_Chr. cbn [after before].
  destruct a as [|c rest]; [reflexivity|].
  rewrite (H c) by (simpl; auto). unfold advance. cbn [after before caps].
  rewrite IH; [reflexivity|simpl in Hf; lia|].
  intros d Hd. apply H. simpl. auto.
Qed.

Lemma unicodeSpace_white (c : char) :
  unicodeSpace c = true -> isSpace c = true /\ N.eqb NL c = false.
Proof.
  unfold unicodeSpace, isSpace, isWhiteSpace, isLineTerminator, oneOf, existsb.
  repeat match goal with
         | |- context [N.eqb c ?k] =>
             destruct (N.eqb_spec c k); [subst c; intros _; split; reflexivity|]
         end.
  cbn [orb]. intros H. rewrite H. split; [reflexivity|].
  apply N.eqb_neq. intros <-. discriminate.
Qed.

Lemma space_white (c : char) :
  N.eqb SP c = true -> isSpace c = true /\ N.eqb NL c = false.
Proof. intros H. apply N.eqb_eq in H. subst c. split; reflexivity. Qed.

Lemma mapClass_removes (p : char -> bool) (t : jstring) (c : char) :
  p SP = false -> In c (mapClass p [SP] t) -> p c = false.
Proof.
  intros Hsp. induction t as [|x t IH]; [intros []|].
  cbn [mapClass flat_map]. fold (mapClass p [SP] t). destruct (p x) eqn:E.
  - cbn [List.app]. intros [<-|H]; [exact Hsp|exact (IH H)].
  - cbn [List.app]. intros [<-|H]; [exact E|exact (IH H)].
Qed.

Lemma normalizeWhitespace_eq (text : jstring) :
  Script.normalizeWhitespace text =
  collapse (N.eqb SP) [SP] false (mapClass unicodeSpace [SP] text).
Proof.
  unfold Script.normalizeWhitespace, spacesRe, chr.
  rewrite (replaceStr_Chr unicodeSpace [SP] text) by reflexivity.
  rewrite (replaceStr_plus_class (N.eqb SP)) by reflexivity.
  set (t2 := collapse _ _ _ _).
  assert (Hcr : forall c, In c t2 -> N.eqb CR c = false).
  { intros c Hc. unfold t2 in Hc. apply collapse_In in Hc as [Hc|[<-|[]]]; [|reflexivity].
    apply mapClass_removes in Hc; [|reflexivity].
    destruct (N.eqb_spec CR c); [subst c; discriminate|reflexivity]. }
  assert (E1 : replaceStr (lit [CR; NL]) [NL] t2 = t2).
  { rewrite replaceStr_unfold. unfold start. cbn [lit fold_right]. unfold chr.
    apply replaceLoop_no_head; [lia|exact Hcr]. }
  rewrite E1. rewrite replaceStr_Chr by reflexivity.
  apply mapClass_id. exact Hcr.
Qed.

Lemma normalizeWhitespace_noBlank (text : jstring) :
  hasBlankLine text = false -> hasBlankLine (Script.normalizeWhitespace text) = false.
Proof.
  intros H. rewrite normalizeWhitespace_eq. unfold hasBlankLine.
  rewrite blankFrom_collapse by exact space_white.
  rewrite blankFrom_mapClass by exact unicodeSpace_white. exact H.
Qed.

(** ** Modes A and B of script.js *)

Lemma processModeA_eq (text : jstring) :
  Script.processModeA text =
  trim (collapse (N.eqb SP) [SP] false (mapClass (N.eqb NL) [SP] text)).
Proof.
  unfold Script.processModeA, spacesRe, chr.
  rewrite replaceStr_Chr by reflexivity.
  rewrite replaceStr_plus_class by reflexivity. reflexivity.
Qed.

Lemma processModeA_blank (text : jstring) :
  truthy (trim text) = false -> Script.processModeA text = [].
Proof.
  intros H. rewrite processModeA_eq. apply trim_blank.
  assert (Ht : forallb isSpace text = true).
  { apply trim_nil. destruct (trim text); [reflexivity|discriminate]. }
  rewrite forallb_forall in *. intros c Hc.
  apply collapse_In in Hc as [Hc|[<-|[]]]; [|reflexivity].
  apply mapClass_In in Hc as [Hc|[<-|[]]]; [|reflexivity]. apply Ht. exact Hc.
Qed.

(** On a text without a blank line the two mode engines of script.js
    give the same result. *)
Lemma processModeB_noBlank (text : jstring) :
  hasBlankLine text = false -> Script.processModeB text = Script.processModeA text.
Proof.
  intros H. unfold Script.processModeB. rewrite (splitRe_noBlank _ H).
  cbn [filter]. destruct (truthy (trim text)) eqn:E.
  - reflexivity.
  - rewrite (processModeA_blank _ E). reflexivity.
Qed.

Lemma script_processBatch_A_B (batch : jstring) (p : prot) :
  hasBlankLine batch = false ->
  Script.processBatch "A" batch p = Script.processBatch "B" batch p.
Proof.
  intros H. unfold Script.processBatch.
  pose proof (protectContent_noBlank batch p H) as Hp.
  destruct (Script.protectContent batch p) as [p1 t]. cbn [snd] in Hp.
  change (Script.applyMode "B" (Script.normalizeWhitespace t))
    with (Script.processModeB (Script.normalizeWhitespace t)).
  rewrite (processModeB_noBlank _ (normalizeWhitespace_noBlank _ Hp)). reflexivity.
Qed.

Lemma script_processBatches_A_B (batches : list jstring) :
  Forall (fun batch => hasBlankLine batch = false) batches ->
  forall p, Script.processBatches "A" batches p = Script.processBatches "B" batches p.
Proof.
  induction 1 as [|batch batches Hb _ IH]; intros p; [reflexivity|].
  cbn [Script.processBatches]. rewrite (script_processBatch_A_B _ p Hb).
  destruct (Script.processBatch "B" batch p) as [p1 out]. rewrite IH. reflexivity.
Qed.

Lemma structured_processBatches_A_B (batches : list jstring) :
  forall p, Structured.processBatches "A" batches p = Structured.processBatches "B" batches p.
Proof.
  induction batches as [|batch batches IH]; intros p; [reflexivity|].
  cbn [Structured.processBatches].
  assert (E : Structured.processBatch "A" batch p = Structured.processBatch "B" batch p).
  { unfold Structured.processBatch.
    destruct (Structured.protectStructureAndContent batch p) as [p1 t].
    change (Structured.applyMode "A" (Structured.normalizeWhitespaceWithStructure t))
      with (Structured.processModeAWithStructure (Structured.normalizeWhitespaceWithStructure t)).
    rewrite processModeA_processModeB. reflexivity. }
  rewrite E. destruct (Structured.processBatch "B" batch p) as [p1 out].
  rewrite IH. reflexivity.
Qed.

(** C10.  Modes A (single paragraph) and B (clean paragraph) give the
    same output on every input.  In script.js this is because no batch,
    and no batch after protection and normalization, holds a blank line,
    the only thing the two mode engines treat differently; in the
    structure-aware variant the two mode engines are the same function. *)
Theorem modes_A_and_B_agree (a : app) :
  outputText (Script.processText (withMode "A" a)) =
    outputText (Script.processText (withMode "B" a)) /\
  outputText (Structured.processText (withMode "A" a)) =
    outputText (Structured.processText (withMode "B" a)).
Proof.
  destruct (truthy (trim (inputText a))) eqn:E.
  - rewrite !script_output, !structured_output by exact E.
    cbn [withMode mode inputText]. split.
    + rewrite script_processBatches_A_B; [reflexivity|].
      apply Forall_forall. intros batch Hb. apply (splitIntoBatches_noBlank _ _ Hb).
    + rewrite structured_processBatches_A_B. reflexivity.
  - unfold Script.processText, Structured.processText.
    cbn [withMode mode inputText]. rewrite E. split; reflexivity.
Qed.

(** ** Literal patterns *)

Lemma mt_lit (t : jstring) :
  forall b a cs k,
  mt (lit t) (MState b a cs) k =
  if isPrefix t a then k (MState (rev t ++ b) (skipn (length t) a) cs) else None.
Proof.
  induction t as [|x t IH]; intros b a cs k.
  - reflexivity.
  - cbn [lit fold_right]. fold (lit t). rewrite mt_Seq. unfold chr at 1.
    rewrite mt_Chr. cbn [after]. destruct a as [|y a]; [reflexivity|].
    cbn [isPrefix]. destruct (N.eqb x y) eqn:E; [|reflexivity].
    apply N.eqb_eq in E. subst y. unfold advance. cbn [after before caps andb].
    rewrite IH. cbn [rev length skipn]. rewrite <- app_assoc. reflexivity.
Qed.

Lemma exec_lit (t b a : jstring) (cs : list (nat * jstring)) :
  exec (lit t) (MState b a cs) =
  if isPrefix t a then Some (MState (rev t ++ b) (skipn (length t) a) []) else None.
Proof. unfold exec. cbn [before after]. apply mt_lit. Qed.

Lemma isPrefix_app (p s : jstring) : isPrefix p s = true -> s = p ++ skipn (length p) s.
Proof.
  revert s. induction p as [|x p IH]; intros [|y s]; cbn; try reflexivity; try discriminate.
  intros H. apply andb_true_iff in H as [H1 H2]. apply N.eqb_eq in H1. subst y.
  f_equal. apply IH. exact H2.
Qed.

Lemma isPrefix_refl_app (p r : jstring) : isPrefix p (p ++ r) = true.
Proof. induction p as [|x p IH]; cbn; [reflexivity|]. rewrite N.eqb_refl. exact IH. Qed.

Lemma regExpOfEscaped_lit (s : jstring) :
  (forall c, In c s -> N.eqb c 92 = false) -> regExpOfEscaped s = lit s.
Proof.
  induction s as [|c s IH]; intros H; [reflexivity|].
  cbn [regExpOfEscaped lit fold_right]. fold (lit s).
  rewrite (H c) by (simpl; auto). rewrite IH; [reflexivity|].
  intros d Hd. apply H. simpl. auto.
Qed.

Lemma replaceLoop_Chr_none (p : char -> bool)
  (g : unit -> jstring -> jstring -> jstring -> unit * jstring) :
  forall fuel b a cs, length a < fuel ->
  (forall c, In c a -> p c = false) ->
  snd (replaceLoop fuel (Chr p) g tt (MState b a cs)) = a.
Proof.
  induction fuel as [|fuel IH]; intros b a cs Hf H; [lia|].
  rewrite replaceLoop_unit, exec_Chr.
  destruct a as [|c rest]; [reflexivity|].
  rewrite (H c) by (simpl; auto). unfold advance. cbn [after before caps].
  rewrite IH; [reflexivity|simpl in Hf; lia|].
  intros d Hd. apply H. simpl. auto.
Qed.

Lemma escapeRegExp_id (s : jstring) :
  (forall c, In c s -> isMeta c = false) -> escapeRegExp s = s.
Proof.
  intros H. unfold escapeRegExp. rewrite replaceStr_unfold. unfold start.
  apply replaceLoop_Chr_none; [lia|exact H].
Qed.

Lemma digit_facts (c : char) :
  isDigit c = true -> isMeta c = false /\ N.eqb c 92 = false /\ N.eqb 95 c = false.
Proof.
  unfold isDigit, inRange. intros H. apply andb_true_iff in H as [H1 H2].
  apply N.leb_le in H1, H2. unfold isMeta, oneOf, existsb.
  repeat split;
    repeat match goal with
           | |- context [N.eqb ?x ?y] => destruct (N.eqb_spec x y); [lia|]
           end; reflexivity.
Qed.

Lemma tokenOf_chars (d : jstring) (c : char) :
  forallb isDigit d = true -> In c (tokenOf d) ->
  isMeta c = false /\ N.eqb c 92 = false.
Proof.
  intros Hd Hc. unfold tokenOf in Hc. rewrite !in_app_iff in Hc.
  destruct Hc as [Hc|[Hc|Hc]].
  - unfold tokenPrefix in Hc. cbn in Hc.
    repeat (destruct Hc as [<-|Hc]; [split; reflexivity|]). destruct Hc.
  - rewrite forallb_forall in Hd. destruct (digit_facts _ (Hd c Hc)) as (H1 & H2 & _). auto.
  - cbn in Hc. repeat (destruct Hc as [<-|Hc]; [split; reflexivity|]). destruct Hc.
Qed.

(** Restoring one entry of the table is the replacement of the literal
    token. *)
Lemma restoreOne_lit (restored d orig : jstring) :
  forallb isDigit d = true ->
  restoreOne restored (tokenOf d, orig) = replaceStr (lit (tokenOf d)) orig restored.
Proof.
  intros Hd. unfold restoreOne. cbn [fst snd].
  rewrite escapeRegExp_id by (intros c Hc; apply (tokenOf_chars Hd Hc)).
  rewrite regExpOfEscaped_lit by (intros c Hc; apply (tokenOf_chars Hd Hc)).
  reflexivity.
Qed.

(** ** The shape of tokenized texts *)

Lemma tokenPrefix_eq : tokenPrefix = [95; 95; 80; 82; 79; 84; 69; 67; 84; 69; 68; 95]%N.
Proof. reflexivity. Qed.

Lemma tokenSuffix_eq : tokenSuffix = [95; 95]%N.
Proof. reflexivity. Qed.

Lemma tokenOf_eq (d : jstring) :
  tokenOf d = [95; 95; 80; 82; 79; 84; 69; 67; 84; 69; 68; 95]%N ++ d ++ [95; 95]%N.
Proof. reflexivity. Qed.

Lemma free_app (x y : jstring) : free (x ++ y) = free x && free y.
Proof. apply forallb_app. Qed.

Lemma free_not_In (s : jstring) : free s = true -> ~ In 95%N s.
Proof.
  unfold free. rewrite forallb_forall. intros H Hin. apply H in Hin. discriminate.
Qed.

Lemma digits_parts (d : jstring) :
  digits d = true -> d <> [] /\ forallb isDigit d = true.
Proof.
  unfold digits. intros H. apply andb_true_iff in H as [H1 H2].
  split; [|exact H2]. destruct d; [discriminate|discriminate].
Qed.

Lemma digits_head (d z : jstring) :
  digits d = true -> exists e r, d ++ z = e :: r /\ isDigit e = true.
Proof.
  intros H. destruct (digits_parts _ H) as [Hne Hd].
  destruct d as [|e d]; [congruence|]. exists e, (d ++ z).
  cbn [forallb] in Hd. apply andb_true_iff in Hd as [He _]. auto.
Qed.

Lemma clean_parts (s : jstring) :
  clean s = true -> free s = true /\ noDollar s = true.
Proof. unfold clean. intros H. apply andb_true_iff in H. exact H. Qed.

(** In a tokenized text the first underscore is followed by another. *)
Lemma flat_first_underscore (segs : list seg) :
  forallb segOk segs = true ->
  forall a b, flat segs = a ++ 95%N :: b -> free a = true -> exists b', b = 95%N :: b'.
Proof.
  induction segs as [|sg segs IH]; intros Hok a b E Ha.
  - destruct a; discriminate.
  - cbn [forallb] in Hok. apply andb_true_iff in Hok as [Hsg Hok].
    unfold flat in E. cbn [map concat] in E. fold (flat segs) in E.
    destruct sg as [s|d]; cbn [segText segOk] in *.
    + apply app_eq_app in E as [x [[E1 E2]|[E1 E2]]].
      * destruct x as [|c x].
        -- cbn in E2. apply (IH Hok [] b); [symmetry; exact E2|reflexivity].
        -- cbn in E2. injection E2 as <- _. exfalso.
           apply (free_not_In _ (proj1 (clean_parts _ Hsg))).
           rewrite E1. apply in_or_app. right. simpl. auto.
      * subst a. rewrite free_app in Ha. apply andb_true_iff in Ha as [_ Hx].
        apply (IH Hok x b E2 Hx).
    + rewrite tokenOf_eq in E. destruct a as [|c a].
      * cbn in E. injection E as <-. eexists. reflexivity.
      * cbn in E. injection E as <- _. discriminate.
Qed.

Lemma isPrefix_same (p a b : jstring) : isPrefix (p ++ a) (p ++ b) = isPrefix a b.
Proof. induction p as [|x p IH]; cbn; [reflexivity|]. rewrite N.eqb_refl. exact IH. Qed.

Lemma digit_not_underscore (e : char) : isDigit e = true -> N.eqb 95 e = false.
Proof. intros H. apply (digit_facts _ H). Qed.

Lemma digits_prefix (d : jstring) :
  forall d' u v,
  forallb isDigit d = true -> forallb isDigit d' = true ->
  isPrefix (d ++ 95%N :: u) (d' ++ 95%N :: v) = true -> d = d'.
Proof.
  induction d as [|x d IH]; intros [|e d'] u v Hd Hd' H.
  - reflexivity.
  - cbn [List.app isPrefix] in H. cbn [forallb] in Hd'.
    apply andb_true_iff in Hd' as [He _].
    rewrite (digit_not_underscore _ He) in H. discriminate.
  - cbn [List.app isPrefix] in H. cbn [forallb] in Hd.
    apply andb_true_iff in Hd as [Hx _].
    rewrite N.eqb_sym, (digit_not_underscore _ Hx) in H. discriminate.
  - cbn [List.app isPrefix] in H. cbn [forallb] in Hd, Hd'.
    apply andb_true_iff in Hd as [_ Hd].
    apply andb_true_iff in Hd' as [_ Hd']. apply andb_true_iff in H as [Hx H].
    apply N.eqb_eq in Hx. subst e. f_equal. apply (IH d' u v Hd Hd' H).
Qed.

(** At the start of a token only that token matches. *)
Lemma token_match_same (d d' z : jstring) :
  digits d = true -> digits d' = true ->
  isPrefix (tokenOf d) (tokenOf d' ++ z) = true -> d = d'.
Proof.
  intros Hd Hd' H. unfold tokenOf in H. rewrite <- !app_assoc in H.
  rewrite isPrefix_same in H. rewrite tokenSuffix_eq in H. cbn [List.app] in H.
  apply (digits_prefix _ _ _ _ (proj2 (digits_parts _ Hd)) (proj2 (digits_parts _ Hd')) H).
Qed.

Lemma isPrefix_token_digit (d s : jstring) (e : char) :
  isDigit e = true -> isPrefix (tokenOf d) (e :: s) = false.
Proof.
  intros He. rewrite tokenOf_eq. cbn [List.app isPrefix].
  rewrite (digit_not_underscore _ He). reflexivity.
Qed.

Lemma no_match_in_prefix (d x y s : jstring) (e : char) :
  tokenPrefix = x ++ y -> x <> [] -> y <> [] -> N.eqb 95 e = false ->
  isPrefix (tokenOf d) (y ++ e :: s) = false.
Proof.
  intros E Hx Hy He. rewrite tokenPrefix_eq in E. rewrite tokenOf_eq.
  destruct x as [|c x]; [congruence|]. clear Hx.
  cbn [List.app] in E. injection E as _ E.
  do 11 (destruct x as [|? x];
         [cbn [List.app] in E; subst y;
          first [reflexivity | cbn [List.app isPrefix]; rewrite He; reflexivity]
         |cbn [List.app] in E; injection E as _ E]).
  destruct x; destruct y; try discriminate; congruence.
Qed.

Lemma isPrefix_cons (a b : char) (p s : jstring) :
  isPrefix (a :: p) (b :: s) = N.eqb a b && isPrefix p s.
Proof. reflexivity. Qed.

Lemma no_match_after_token (d : jstring) (segs : list seg) :
  digits d = true -> forallb segOk segs = true ->
  isPrefix (tokenOf d) (tokenSuffix ++ flat segs) = false /\
  isPrefix (tokenOf d) (95%N :: flat segs) = false.
Proof.
  intros Hd Hok. rewrite tokenOf_eq, tokenSuffix_eq. split.
  - destruct (isPrefix _ _) eqn:H; [exfalso|reflexivity].
    cbn [List.app] in H. rewrite !isPrefix_cons, !N.eqb_refl in H. cbn [andb] in H.
    apply isPrefix_app in H. set (r := skipn _ (flat segs)) in H. clearbody r.
    destruct (@flat_first_underscore segs Hok [80; 82; 79; 84; 69; 67; 84; 69; 68]%N
                ((d ++ [95; 95]%N) ++ r) H eq_refl) as (b' & Hb).
    destruct (digits_parts _ Hd) as [Hne Hdd].
    destruct d as [|e d0]; [congruence|].
    cbn [List.app] in Hb. injection Hb as -> _. discriminate.
  - destruct (isPrefix _ _) eqn:H; [exfalso|reflexivity].
    cbn [List.app] in H. rewrite isPrefix_cons, N.eqb_refl in H. cbn [andb] in H.
    apply isPrefix_app in H. set (r := skipn _ (flat segs)) in H. clearbody r.
    destruct (@flat_first_underscore segs Hok [] _ H eq_refl) as (b' & Hb).
    discriminate.
Qed.

Lemma digits_suffix_head (l l2 z : jstring) :
  forallb isDigit (l ++ l2) = true -> l2 <> [] ->
  exists e r, l2 ++ z = e :: r /\ isDigit e = true.
Proof.
  intros H Hne. rewrite forallb_app in H. apply andb_true_iff in H as [_ H].
  destruct l2 as [|e l2]; [congruence|]. cbn [forallb] in H.
  apply andb_true_iff in H as [He _]. exists e, (l2 ++ z). auto.
Qed.

(** Inside a token of the text no token of the table matches. *)
Lemma no_match_inside (d d' : jstring) (segs : list seg) :
  digits d = true -> digits d' = true -> forallb segOk segs = true ->
  forall x y, tokenOf d' = x ++ y -> x <> [] -> y <> [] ->
  isPrefix (tokenOf d) (y ++ flat segs) = false.
Proof.
  intros Hd Hd' Hok x y E Hx Hy. unfold tokenOf in E.
  destruct (@no_match_after_token d segs Hd Hok) as [HC1 HC2].
  apply app_eq_app in E as [l [[E1 E2]|[E1 E2]]].
  - subst y. rewrite <- app_assoc.
    destruct (@digits_head d' (tokenSuffix ++ flat segs) Hd') as (e & r & Ee & He).
    rewrite <- app_assoc, Ee. destruct l as [|c l].
    + apply isPrefix_token_digit. exact He.
    + apply (@no_match_in_prefix d x (c :: l) r e E1 Hx); [discriminate|].
      apply digit_not_underscore. exact He.
  - apply app_eq_app in E2 as [l2 [[E3 E4]|[E3 E4]]].
    + subst y. rewrite <- app_assoc. destruct l2 as [|c l2].
      * exact HC1.
      * destruct (digits_parts _ Hd') as [_ Hdd]. rewrite E3 in Hdd.
        destruct (@digits_suffix_head l (c :: l2) (tokenSuffix ++ flat segs) Hdd)
          as (e & r & Ee & He); [discriminate|].
        rewrite Ee. apply isPrefix_token_digit. exact He.
    + rewrite tokenSuffix_eq in E4. destruct l2 as [|c l2].
      * cbn [List.app] in E4. subst y. exact HC1.
      * cbn [List.app] in E4. injection E4 as <- E4. destruct l2 as [|c2 l2].
        -- cbn [List.app] in E4. subst y. exact HC2.
        -- cbn [List.app] in E4. injection E4 as _ E4.
           destruct l2; destruct y; try discriminate; congruence.
Qed.

(** ** Restoration of a tokenized text *)

Lemma skipn_app_exact (A : Type) (p z : list A) : skipn (length p) (p ++ z) = z.
Proof. induction p as [|x p IH]; [reflexivity|exact IH]. Qed.

(** Over a stretch of text where the token starts nowhere, the replacement
    copies the text. *)
Lemma replaceLoop_lit_scan (tok z : jstring)
  (g : unit -> jstring -> jstring -> jstring -> unit * jstring) (s : jstring) :
  forall fuel b cs,
  (forall x y, s = x ++ y -> y <> [] -> isPrefix tok (y ++ z) = false) ->
  length (s ++ z) < fuel ->
  snd (replaceLoop fuel (lit tok) g tt (MState b (s ++ z) cs)) =
  s ++ snd (replaceLoop (fuel - length s) (lit tok) g tt (MState (rev s ++ b) z cs)).
Proof.
  induction s as [|c s IH]; intros fuel b cs Hall Hf.
  - cbn. rewrite Nat.sub_0_r. reflexivity.
  - destruct fuel as [|fuel]; [lia|].
    rewrite replaceLoop_unit, exec_lit.
    rewrite (Hall [] (c :: s) eq_refl) by discriminate.
    cbn [List.app after]. unfold advance. cbn [after before caps].
    rewrite IH.
    + cbn [rev length Nat.sub]. rewrite <- app_assoc. reflexivity.
    + intros x y E Hy. apply (Hall (c :: x)); [rewrite E; reflexivity|exact Hy].
    + simpl in Hf. lia.
Qed.

Lemma jeqb_false (a b : jstring) : jeqb a b = false -> a <> b.
Proof. intros H E. apply jeqb_eq in E. congruence. Qed.

Lemma tokenOf_cons (d : jstring) : exists t, tokenOf d = 95%N :: t.
Proof. rewrite tokenOf_eq. eexists. reflexivity. Qed.

Lemma flat_cons (sg : seg) (segs : list seg) : flat (sg :: segs) = segText sg ++ flat segs.
Proof. reflexivity. Qed.

Lemma restoreLoop_segs (d orig : jstring) (segs : list seg) :
  digits d = true -> noDollar orig = true -> forallb segOk segs = true ->
  forall fuel b cs, length (flat segs) < fuel ->
  snd (replaceLoop fuel (lit (tokenOf d)) (byString orig) tt (MState b (flat segs) cs)) =
  flat (map (restoreSeg d orig) segs).
Proof.
  intros Hd Ho. induction segs as [|sg segs IH]; intros Hok fuel b cs Hf.
  - destruct fuel as [|fuel]; [lia|].
    rewrite replaceLoop_unit, exec_lit.
    destruct (tokenOf_cons d) as (t & ->). reflexivity.
  - cbn [forallb] in Hok. apply andb_true_iff in Hok as [Hsg Hok].
    cbn [map]. rewrite !flat_cons in *. rewrite length_app in Hf.
    destruct sg as [s|d']; cbn [segText segOk restoreSeg] in *.
    + rewrite replaceLoop_lit_scan; [| |rewrite length_app; lia].
      * rewrite IH; [reflexivity|exact Hok|lia].
      * intros x y E Hy. destruct y as [|c y]; [congruence|].
        destruct (tokenOf_cons d) as (t & ->). cbn [List.app isPrefix].
        assert (Hc : In c s) by (rewrite E; apply in_or_app; right; simpl; auto).
        apply clean_parts in Hsg as [Hsg _].
        unfold free in Hsg. rewrite forallb_forall in Hsg. apply Hsg in Hc.
        apply negb_true_iff in Hc. rewrite Hc. reflexivity.
    + destruct (jeqb d' d) eqn:Ej.
      * apply jeqb_eq in Ej. subst d'. destruct fuel as [|fuel]; [lia|].
        assert (Hl : 0 < length (tokenOf d)) by (rewrite tokenOf_eq; simpl; lia).
        rewrite replaceLoop_unit, exec_lit, isPrefix_refl_app, skipn_app_exact.
        rewrite consumed_app. cbn [byString snd after segText].
        rewrite getSubstitution_plain by exact Ho.
        destruct (tokenOf_cons d) as (t & Et). rewrite Et at 1.
        rewrite IH; [reflexivity|exact Hok|lia].
      * rewrite replaceLoop_lit_scan; [| |rewrite length_app; lia].
        -- rewrite IH; [reflexivity|exact Hok|lia].
        -- intros x y E Hy. destruct x as [|c x].
           ++ cbn [List.app] in E. subst y.
              destruct (isPrefix _ _) eqn:H; [|reflexivity].
              apply (token_match_same _ _ _ Hd Hsg) in H. subst d'.
              apply jeqb_false in Ej. congruence.
           ++ apply (@no_match_inside d d' segs Hd Hsg Hok (c :: x) y E);
                [discriminate|exact Hy].
Qed.

Lemma restoreOne_segs (d orig : jstring) (segs : list seg) :
  digits d = true -> noDollar orig = true -> forallb segOk segs = true ->
  restoreOne (flat segs) (tokenOf d, orig) = flat (map (restoreSeg d orig) segs).
Proof.
  intros Hd Ho Hok.
  rewrite restoreOne_lit by apply (digits_parts _ Hd).
  rewrite replaceStr_unfold. unfold start.
  apply restoreLoop_segs; [exact Hd|exact Ho|exact Hok|lia].
Qed.

Lemma restoreSeg_ok (d orig : jstring) (segs : list seg) :
  clean orig = true -> forallb segOk segs = true ->
  forallb segOk (map (restoreSeg d orig) segs) = true.
Proof.
  intros Ho. induction segs as [|sg segs IH]; intros H; [reflexivity|].
  cbn [forallb map] in *. apply andb_true_iff in H as [Hsg H].
  rewrite (IH H), andb_true_r. destruct sg as [s|d']; cbn [restoreSeg segOk] in *.
  - exact Hsg.
  - destruct (jeqb d' d); [exact Ho|exact Hsg].
Qed.

Lemma restoreSeg_toks (d orig d' : jstring) (segs : list seg) :
  In (Tok d') (map (restoreSeg d orig) segs) -> In (Tok d') segs /\ d' <> d.
Proof.
  induction segs as [|sg segs IH]; [intros []|].
  cbn [map]. intros [H|H].
  - destruct sg as [s|d0]; cbn [restoreSeg] in H; [discriminate|].
    destruct (jeqb d0 d) eqn:E; [discriminate|]. injection H as ->.
    split; [simpl; auto|apply jeqb_false; exact E].
  - destruct (IH H) as [H1 H2]. split; [simpl; auto|exact H2].
Qed.

(** The sequence of restorations of a table on a tokenized text. *)
Lemma restore_segs (entries : list (jstring * jstring)) :
  forallb entryOk entries = true ->
  forall segs, forallb segOk segs = true ->
  exists segs',
    Script.restoreProtectedContent (flat segs) (tableOf entries) = flat segs' /\
    forallb segOk segs' = true /\
    forall d', In (Tok d') segs' -> In (Tok d') segs /\ ~ In d' (map fst entries).
Proof.
  unfold Script.restoreProtectedContent.
  induction entries as [|[d orig] entries IH]; intros He segs Hok.
  - exists segs. repeat split; auto.
  - cbn [forallb] in He. apply andb_true_iff in He as [Hde He].
    unfold entryOk in Hde. cbn [fst snd] in Hde.
    apply andb_true_iff in Hde as [Hd Hf]. destruct (clean_parts _ Hf) as [_ Ho].
    cbn [tableOf map fold_left fst snd].
    rewrite (restoreOne_segs _ _ _ Hd Ho Hok).
    destruct (IH He _ (restoreSeg_ok d orig segs Hf Hok)) as (segs' & E & Hok' & Ht).
    exists segs'. split; [exact E|]. split; [exact Hok'|].
    intros d' Hd'. destruct (Ht d' Hd') as [H1 H2].
    apply restoreSeg_toks in H1 as [H1 H3]. split; [exact H1|].
    cbn [map fst]. intros [H|H]; [congruence|auto].
Qed.

Lemma flat_free (segs : list seg) :
  forallb segOk segs = true -> (forall d, ~ In (Tok d) segs) -> free (flat segs) = true.
Proof.
  induction segs as [|sg segs IH]; intros Hok Hn; [reflexivity|].
  cbn [forallb] in Hok. apply andb_true_iff in Hok as [Hsg Hok].
  rewrite flat_cons, free_app.
  destruct sg as [s|d]; cbn [segText segOk] in *.
  - rewrite (proj1 (clean_parts _ Hsg)), IH; [reflexivity|exact Hok|].
    intros d Hd. apply (Hn d). simpl. auto.
  - exfalso. apply (Hn d). simpl. auto.
Qed.

Lemma finalCleanup_free (t : jstring) :
  free t = true -> ~ In 95%N (Script.finalCleanup t).
Proof.
  intros H Hin. unfold Script.finalCleanup, spacesRe, chr in Hin.
  apply trim_In in Hin. rewrite replaceStr_plus_class in Hin by reflexivity.
  apply collapse_In in Hin as [Hin|[Hin|[]]]; [|discriminate].
  apply (free_not_In _ H Hin).
Qed.

Lemma not_In_includes (t p : jstring) :
  ~ In 95%N t -> includes t (95%N :: p) = false.
Proof.
  intros H. destruct (includes t (95%N :: p)) eqn:E; [|reflexivity].
  exfalso. apply H. apply (includes_cons_In _ _ _ E).
Qed.

(** ** Token resolution *)


(** In the structure-preserving variant a marker reaches the output even
    when the input holds none: the block rules have no test for tokens, so
    the token of a fenced code block ends up inside the original of the
    HTML block around it; restoration goes by token length, longest first,
    and has already passed the longer code block token when the HTML
    block token brings it back. *)
Lemma nested_block_token_survives :
  structuredOutput "A"
    (js "<div>" ++ [NL] ++ js "```" ++ [NL] ++ js "code" ++ [NL] ++ js "```" ++ [NL]
     ++ js "</div>")
  = js "<div>" ++ [NL] ++ js "__MULTILINE_BLOCK_1__" ++ [NL] ++ js "</div>".
Proof. vm_compute. reflexivity. Qed.

Lemma covered_In (segs : list seg) (entries : list (jstring * jstring)) (d : jstring) :
  covered segs entries = true -> In (Tok d) segs -> In d (map fst entries).
Proof.
  unfold covered. rewrite forallb_forall. intros H Hin. specialize (H _ Hin).
  cbn in H. apply existsb_exists in H as (x & Hx & E).
  apply jeqb_eq in E. subst. exact Hx.
Qed.

(** The restoration step by itself.  In script.js the output of a batch
    holds no token marker whenever the text handed to restoration is made of pieces
    without an underscore and of tokens that all have an entry in the
    protection table, and no original of the table holds an underscore or
    a dollar sign: restoration then replaces every token by its original
    and the final cleanup brings no marker back. *)
Theorem tokens_resolved (m : string) (batch : jstring) (p : prot)
  (segs : list seg) (entries : list (jstring * jstring)) :
  Script.applyMode m (Script.normalizeWhitespace (snd (Script.protectContent batch p)))
    = flat segs ->
  pm (fst (Script.protectContent batch p)) = tableOf entries ->
  forallb segOk segs = true ->
  forallb entryOk entries = true ->
  covered segs entries = true ->
  let out := snd (Script.processBatch m batch p) in
  includes out (js "__PROTECTED_") = false /\
  includes out (js "__STRUCTURED_") = false /\
  includes out (js "__MULTILINE_BLOCK_") = false /\
  includes out (js "__HTML_BLOCK_") = false.
Proof.
  intros Et Em Hok He Hc out.
  assert (Hout : ~ In 95%N out).
  { unfold out, Script.processBatch.
    destruct (Script.protectContent batch p) as [p1 t]. cbn [fst snd] in *.
    rewrite Et, Em.
    destruct (restore_segs entries He segs Hok) as (segs' & E & Hok' & Ht).
    rewrite E. apply finalCleanup_free. apply flat_free; [exact Hok'|].
    intros d Hd. destruct (Ht d Hd) as [H1 H2]. apply H2.
    apply (covered_In _ _ _ Hc H1). }
  repeat split; apply not_In_includes; exact Hout.
Qed.

Lemma tokens_resolved_witness :
  let out := snd (Script.processBatch "A" (js "Visit https://example.com/path  now")
                    (Prot [] 1)) in
  includes out (js "__PROTECTED_") = false /\
  includes out (js "__STRUCTURED_") = false /\
  includes out (js "__MULTILINE_BLOCK_") = false /\
  includes out (js "__HTML_BLOCK_") = false.
Proof.
  apply (@tokens_resolved "A" (js "Visit https://example.com/path  now") (Prot [] 1)
           [Plain (js "Visit "); Tok (js "1"); Plain (js " now")]
           [(js "1", js "https://example.com/path")]);
    vm_compute; reflexivity.
Defined.

(** The batches of one run share the protection table: marker text in a
    later batch is restored from the entry an earlier batch made. *)
Lemma batch_sees_earlier_table :
  scriptOutput "A" (js "`x`" ++ [NL; NL] ++ js "__PROTECTED_1__")
    = js "`x`" ++ [NL; NL] ++ js "`x`" /\
  scriptOutput "A" (js "__PROTECTED_1__") = js "__PROTECTED_1__".
Proof. vm_compute. split; reflexivity. Qed.

(** ** Tables and tokens *)

Lemma tokenOf_inj (d d' : jstring) : tokenOf d' = tokenOf d -> d' = d.
Proof.
  unfold tokenOf. intros H. apply app_inv_head in H. apply app_inv_tail in H. exact H.
Qed.

Lemma jeqb_refl (a : jstring) : jeqb a a = true.
Proof. apply jeqb_eq. reflexivity. Qed.

Lemma jeqb_tokenOf (d d' : jstring) : jeqb (tokenOf d') (tokenOf d) = jeqb d' d.
Proof.
  destruct (jeqb d' d) eqn:E.
  - apply jeqb_eq in E. subst. apply jeqb_refl.
  - destruct (jeqb (tokenOf d') (tokenOf d)) eqn:E'; [|reflexivity].
    apply jeqb_eq, tokenOf_inj in E'. subst. rewrite jeqb_refl in E. discriminate.
Qed.

Lemma mapSet_tableOf (d m : jstring) (entries : list (jstring * jstring)) :
  mapSet (tokenOf d) m (tableOf entries) = tableOf (setEntry d m entries).
Proof.
  induction entries as [|[d' m'] es IH]; [reflexivity|].
  cbn [tableOf map mapSet setEntry fst snd]. rewrite jeqb_tokenOf.
  destruct (jeqb d' d); [reflexivity|]. fold (tableOf es). rewrite IH. reflexivity.
Qed.

Lemma setEntry_ok (d m : jstring) (entries : list (jstring * jstring)) :
  digits d = true -> clean m = true -> forallb entryOk entries = true ->
  forallb entryOk (setEntry d m entries) = true.
Proof.
  intros Hd Hm. induction entries as [|[d' m'] es IH]; intros H.
  - cbn. unfold entryOk. cbn [fst snd]. rewrite Hd, Hm. reflexivity.
  - cbn [forallb setEntry] in *. apply andb_true_iff in H as [H1 H2].
    destruct (jeqb d' d); cbn [forallb].
    + unfold entryOk at 1. cbn [fst snd]. rewrite Hd, Hm, H2. reflexivity.
    + rewrite H1, (IH H2). reflexivity.
Qed.

Lemma setEntry_keys (d m : jstring) (entries : list (jstring * jstring)) :
  In d (map fst (setEntry d m entries)) /\
  forall d', In d' (map fst entries) -> In d' (map fst (setEntry d m entries)).
Proof.
  induction entries as [|[d0 m0] es [IH1 IH2]].
  - cbn. split; [auto|intros ? []].
  - cbn [setEntry]. destruct (jeqb d0 d) eqn:E.
    + apply jeqb_eq in E. subst d0. cbn. split; [auto|trivial].
    + cbn [map fst In]. split; [auto|]. intros d' [H|H]; auto.
Qed.

Lemma uint_digits (d : Decimal.uint) :
  forallb isDigit (js (NilEmpty.string_of_uint d)) = true.
Proof.
  induction d; cbn [NilEmpty.string_of_uint]; try reflexivity;
    rewrite js_String; cbn [forallb]; rewrite IHd; reflexivity.
Qed.

Lemma decimal_digits (n : N) : digits (decimal n) = true.
Proof.
  unfold digits, decimal, NilZero.string_of_uint.
  destruct (N.to_uint n) eqn:E; try reflexivity;
    rewrite <- E at 2; rewrite uint_digits, andb_true_r; reflexivity.
Qed.

Lemma includes_app (x p y : jstring) : includes (x ++ p ++ y) p = true.
Proof.
  induction x as [|c x IH].
  - cbn [List.app]. destruct (p ++ y) eqn:E; cbn [includes];
      rewrite <- E, isPrefix_refl_app; reflexivity.
  - cbn [List.app includes]. rewrite IH. apply orb_true_r.
Qed.

Lemma flat_app (a b : list seg) : flat (a ++ b) = flat a ++ flat b.
Proof. unfold flat. rewrite map_app, concat_app. reflexivity. Qed.

Lemma includes_flat_tok (segs : list seg) (d : jstring) :
  In (Tok d) segs -> includes (flat segs) tokenPrefix = true.
Proof.
  intros H. apply in_split in H as (s1 & s2 & ->).
  rewrite flat_app, flat_cons. cbn [segText]. unfold tokenOf.
  rewrite <- !app_assoc. apply includes_app.
Qed.

Lemma noDollar_app (x y : jstring) : noDollar (x ++ y) = noDollar x && noDollar y.
Proof. apply forallb_app. Qed.

Lemma clean_app (x y : jstring) : clean (x ++ y) = clean x && clean y.
Proof.
  unfold clean. rewrite free_app, noDollar_app.
  destruct (free x), (free y), (noDollar x), (noDollar y); reflexivity.
Qed.

Lemma flat_clean (segs : list seg) :
  forallb segOk segs = true -> (forall d, ~ In (Tok d) segs) -> clean (flat segs) = true.
Proof.
  induction segs as [|sg segs IH]; intros Hok Hn; [reflexivity|].
  cbn [forallb] in Hok. apply andb_true_iff in Hok as [Hsg Hok].
  rewrite flat_cons, clean_app. destruct sg as [s|d]; cbn [segText segOk] in *.
  - rewrite Hsg, IH; [reflexivity|exact Hok|].
    intros d Hd. apply (Hn d). simpl. auto.
  - exfalso. apply (Hn d). simpl. auto.
Qed.

(** ** Cutting a tokenized text *)

(** A cut of a tokenized text falls between two pieces, or strictly
    inside a token. *)
Lemma split_flat (segs : list seg) :
  forallb segOk segs = true ->
  forall m a, flat segs = m ++ a ->
  (exists sm sr,
     m = flat sm /\ a = flat sr /\
     forallb segOk sm = true /\ forallb segOk sr = true /\
     forall d, In (Tok d) (sm ++ sr) -> In (Tok d) segs) \/
  (exists s1 d x y s2,
     segs = s1 ++ Tok d :: s2 /\ tokenOf d = x ++ y /\ x <> [] /\ y <> [] /\
     m = flat s1 ++ x /\ a = y ++ flat s2).
Proof.
  induction segs as [|sg segs IH]; intros Hok m a E.
  - left. exists [], []. destruct m; destruct a; try discriminate.
    repeat split; auto.
  - cbn [forallb] in Hok. apply andb_true_iff in Hok as [Hsg Hok].
    rewrite flat_cons in E. apply app_eq_app in E as [l [[E1 E2]|[E1 E2]]].
    + destruct sg as [s|d]; cbn [segText segOk] in *.
      * left. exists [Plain m], (Plain l :: segs). subst s a.
        rewrite clean_app in Hsg. apply andb_true_iff in Hsg as [Hm Hl].
        repeat split.
        -- unfold flat. cbn. rewrite app_nil_r. reflexivity.
        -- cbn [forallb segOk]. rewrite Hm. reflexivity.
        -- cbn [forallb segOk]. rewrite Hl, Hok. reflexivity.
        -- intros d [H|[H|H]]; try discriminate. simpl. auto.
      * destruct m as [|c m].
        -- left. exists [], (Tok d :: segs). cbn [List.app] in E1. subst l a.
           repeat split; auto. cbn [forallb segOk]. rewrite Hsg, Hok. reflexivity.
        -- destruct l as [|c' l].
           ++ left. exists [Tok d], segs. rewrite app_nil_r in E1. subst a.
              repeat split; auto.
              ** unfold flat. cbn. rewrite app_nil_r. symmetry. exact E1.
              ** cbn [forallb segOk]. rewrite Hsg. reflexivity.
           ++ right. exists [], d, (c :: m), (c' :: l), segs.
              repeat split; auto; discriminate.
    + destruct (IH Hok l a E2) as [(sm & sr & Hm & Ha & Hsm & Hsr & Ht)
                                  |(s1 & d & x & y & s2 & Hs & Hd & Hx & Hy & Hm & Ha)].
      * left. exists (sg :: sm), sr. subst m l. repeat split; auto.
        -- cbn [forallb]. rewrite Hsg, Hsm. reflexivity.
        -- intros d [H|H]; [simpl; auto|]. right. apply Ht. exact H.
      * right. exists (sg :: s1), d, x, y, s2. subst m l segs.
        repeat split; auto. rewrite flat_cons, <- app_assoc. reflexivity.
Qed.

(** Over a stretch of text where no match starts, the replacement copies
    the text. *)
Lemma replaceLoop_skip (S : Type) (r : regex)
  (f : S -> jstring -> jstring -> jstring -> S * jstring) (z y : jstring) :
  forall fuel s b cs,
  (forall x1 y1, y = x1 ++ y1 -> y1 <> [] ->
     exec r (MState (rev x1 ++ b) (y1 ++ z) cs) = None) ->
  length (y ++ z) < fuel ->
  replaceLoop fuel r f s (MState b (y ++ z) cs) =
  (fst (replaceLoop (fuel - length y) r f s (MState (rev y ++ b) z cs)),
   y ++ snd (replaceLoop (fuel - length y) r f s (MState (rev y ++ b) z cs))).
Proof.
  induction y as [|c y IH]; intros fuel s b cs Hall Hf.
  - cbn. rewrite Nat.sub_0_r. destruct (replaceLoop fuel r f s _). reflexivity.
  - destruct fuel as [|fuel]; [lia|].
    assert (H0 : exec r (MState b (c :: y ++ z) cs) = None)
      by (apply (Hall [] (c :: y) eq_refl); discriminate).
    cbn [replaceLoop List.app]. rewrite H0.
    cbn [after]. unfold advance. cbn [after before caps].
    rewrite IH.
    + cbn [rev length Nat.sub fst snd]. rewrite <- app_assoc. reflexivity.
    + intros x1 y1 E Hy. cbn [rev].
      specialize (Hall (c :: x1) y1). cbn [rev] in Hall. rewrite <- app_assoc in Hall.
      apply Hall; [rewrite E; reflexivity|exact Hy].
    + simpl in Hf. lia.
Qed.

Lemma segOk_tok (segs : list seg) (d : jstring) :
  forallb segOk segs = true -> In (Tok d) segs -> digits d = true.
Proof. rewrite forallb_forall. intros H Hin. apply (H _ Hin). Qed.

Lemma segOk_app (a b : list seg) :
  forallb segOk a = true -> forallb segOk b = true -> forallb segOk (a ++ b) = true.
Proof. intros Ha Hb. rewrite forallb_app, Ha, Hb. reflexivity. Qed.

Lemma consumed_nonempty_length (st st' : mstate) :
  reach st st' -> consumed st st' <> [] -> length (after st') < length (after st).
Proof.
  intros Hr Hne. pose proof (reach_consumed Hr) as H.
  apply (f_equal (@length _)) in H. rewrite length_app in H.
  destruct (consumed st st'); [congruence|simpl in H; lia].
Qed.


(** ** Where the protection rules match *)

Lemma endsIn_Chr (p : char -> bool) :
  endsIn (fun b _ => exists c b', b = c :: b' /\ p c = true) (Chr p).
Proof.
  intros st k st' H. rewrite mt_Chr in H.
  destruct st as [b a cs]. cbn [after] in H.
  destruct a as [|c rest]; [discriminate|]. destruct (p c) eqn:Hp; [|discriminate].
  exists (advance (MState b (c :: rest) cs)). split; [|exact H].
  unfold advance. cbn [before after]. eauto.
Qed.

Lemma endsIn_WordB :
  endsIn (fun b a => xorb (atWord (hd_error b)) (atWord (hd_error a)) = true) WordB.
Proof.
  intros st k st' H. cbn [mt] in H.
  destruct (xorb (atWord (hd_error (before st))) (atWord (hd_error (after st)))) eqn:E;
    [|discriminate].
  exists st. auto.
Qed.

Lemma endsIn_Seq (P : jstring -> jstring -> Prop) (r1 r2 : regex) :
  endsIn P r2 -> endsIn P (Seq r1 r2).
Proof.
  intros H2 st k st' H. rewrite mt_Seq in H.
  apply mt_reach in H as (st1 & _ & H). exact (H2 _ _ _ H).
Qed.

Lemma consumes_Chr (p : char -> bool) : consumes (Chr p).
Proof.
  intros st k st' H. rewrite mt_Chr in H.
  destruct st as [b a cs]. cbn [after] in H.
  destruct a as [|c rest]; [discriminate|]. destruct (p c); [|discriminate].
  exists (advance (MState b (c :: rest) cs)). split; [|exact H].
  unfold advance. simpl. lia.
Qed.

Lemma consumes_Seq_l (r1 r2 : regex) : consumes r1 -> consumes (Seq r1 r2).
Proof.
  intros H1 st k st' H. rewrite mt_Seq in H.
  apply H1 in H as (st1 & Hl & H).
  apply mt_reach in H as (st2 & Hr & H). apply reach_length in Hr.
  exists st2. split; [lia|exact H].
Qed.

Lemma consumes_Seq_r (r1 r2 : regex) : consumes r2 -> consumes (Seq r1 r2).
Proof.
  intros H2 st k st' H. rewrite mt_Seq in H.
  apply mt_reach in H as (st1 & Hr & H). apply reach_length in Hr.
  apply H2 in H as (st2 & Hl & H).
  exists st2. split; [lia|exact H].
Qed.

Lemma consumes_exec (r : regex) (st st' : mstate) :
  consumes r -> exec r st = Some st' -> consumed st st' <> [].
Proof.
  intros Hc E. pose proof (exec_reach _ _ E) as Hr.
  unfold exec in E. apply Hc in E as (st1 & Hl & E). injection E as ->.
  cbn [after] in Hl. pose proof (reach_consumed Hr) as H.
  intros Hn. rewrite Hn in H. cbn [List.app] in H. rewrite H in Hl. lia.
Qed.

Lemma endsIn_exec (P : jstring -> jstring -> Prop) (r : regex) (st st' : mstate) :
  endsIn P r -> exec r st = Some st' -> P (before st') (after st').
Proof.
  intros He E. unfold exec in E. apply He in E as (st1 & HP & E).
  injection E as ->. exact HP.
Qed.

Lemma endsGreedy_exec (P : jstring -> jstring -> Prop) (r : regex) (st st' : mstate) :
  endsGreedy P r -> exec r st = Some st' ->
  P (before st') (after st') /\ consumed st st' <> [].
Proof.
  intros He E. pose proof (exec_reach _ _ E) as Hr.
  unfold exec in E. apply He in E as (st1 & Hl & HP & E); [|discriminate].
  injection E as ->. split; [exact HP|].
  cbn [after] in Hl. pose proof (reach_consumed Hr) as H.
  intros Hn. rewrite Hn in H. cbn [List.app] in H. rewrite H in Hl. lia.
Qed.

Lemma runLength_skipn (p : char -> bool) (a : jstring) :
  runLength p (skipn (runLength p a) a) = 0.
Proof.
  induction a as [|c a IH]; [reflexivity|].
  cbn [runLength]. destruct (p c) eqn:E; cbn [skipn runLength]; [exact IH|].
  rewrite E. reflexivity.
Qed.

Lemma tryBack_first (k : mstate -> option mstate) (st : mstate) (j : nat) (x : mstate) :
  k (advanceBy j st) <> None -> tryBack k st j = Some x -> k (advanceBy j st) = Some x.
Proof.
  intros Hk H. destruct j; cbn [tryBack] in H;
    destruct (k (advanceBy _ st)); congruence.
Qed.

Lemma endsGreedy_plus_class (p : char -> bool) : endsGreedy (stops p) (plus (Chr p)).
Proof.
  intros st k st' Hk H. unfold plus in H. rewrite mt_Seq, mt_Chr in H.
  destruct st as [b a cs]. cbn [after] in *.
  destruct a as [|c rest]; [discriminate|]. destruct (p c); [|discriminate].
  rewrite mt_Star in H. unfold advance in H. cbn [after before caps] in H.
  rewrite starLoop_class in H by (cbn [after]; lia). cbn [after] in H.
  pose proof (runLength_le p rest) as Hle.
  assert (Hlen : length (skipn (runLength p rest) rest) < length (c :: rest)).
  { rewrite length_skipn. simpl. lia. }
  apply tryBack_first in H.
  - rewrite advanceBy_firstn in H by exact Hle.
    eexists. split; [|split; [|exact H]]; cbn [after before]; [exact Hlen|].
    apply runLength_skipn.
  - rewrite advanceBy_firstn by exact Hle. apply Hk. exact Hlen.
Qed.

Lemma endsGreedy_Seq (P : jstring -> jstring -> Prop) (r1 r2 : regex) :
  endsGreedy P r2 -> endsGreedy P (Seq r1 r2).
Proof.
  intros H2 st k st' Hk H. rewrite mt_Seq in H.
  apply mt_reach in H as (st1 & Hr & H). apply reach_length in Hr.
  apply H2 in H as (st2 & Hl & HP & H).
  - exists st2. split; [lia|]. split; assumption.
  - intros s Hs. apply Hk. lia.
Qed.

Lemma endsGreedy_Alt (P : jstring -> jstring -> Prop) (r1 r2 : regex) :
  endsGreedy P r1 -> endsGreedy P r2 -> endsGreedy P (Alt r1 r2).
Proof.
  intros H1 H2 st k st' Hk H. cbn [mt] in H.
  destruct (mt r1 st k) eqn:E.
  - injection H as ->. exact (H1 _ _ _ Hk E).
  - exact (H2 _ _ _ Hk H).
Qed.

Lemma endsGreedy_Group (P : jstring -> jstring -> Prop) (n : nat) (r : regex) :
  endsGreedy P r -> endsGreedy P (Group n r).
Proof.
  intros H1 st k st' Hk H. cbn [mt] in H.
  apply H1 in H as (st1 & Hl & HP & H).
  - eexists. split; [|split; [|exact H]]; cbn [after before]; assumption.
  - intros s Hs. apply Hk. cbn [after]. exact Hs.
Qed.

Lemma starLoop_total (body : mstate -> (mstate -> option mstate) -> option mstate)
  (k : mstate -> option mstate) (n : nat) (st : mstate) :
  k st <> None -> starLoop body true k n st <> None.
Proof.
  intros Hk. destruct n; cbn [starLoop]; [exact Hk|].
  match goal with |- match ?b with _ => _ end <> None => destruct b end;
    [discriminate|exact Hk].
Qed.

Lemma endsGreedy_star (P : jstring -> jstring -> Prop) (r : regex) :
  endsGreedy P r ->
  forall n st k st',
  (forall s, length (after s) <= length (after st) -> k s <> None) ->
  P (before st) (after st) ->
  starLoop (mt r) true k n st = Some st' ->
  exists st1, length (after st1) <= length (after st) /\
              P (before st1) (after st1) /\ k st1 = Some st'.
Proof.
  intros Hr. induction n as [|n IH]; intros st k st' Hk HP H.
  - exists st. auto.
  - cbn [starLoop] in H.
    match type of H with match ?b with _ => _ end = _ => destruct b eqn:E end.
    + injection H as ->. apply Hr in E as (st1 & Hl & HP1 & E).
      * apply Nat.ltb_lt in Hl as Hl'. rewrite Hl' in E.
        apply IH in E as (st2 & Hl2 & HP2 & E); [|intros s Hs; apply Hk; lia|exact HP1].
        exists st2. split; [lia|]. split; assumption.
      * intros s Hs. apply Nat.ltb_lt in Hs as Hs'. rewrite Hs'.
        apply starLoop_total. apply Hk. lia.
    + exists st. auto.
Qed.

Lemma endsGreedy_plus (P : jstring -> jstring -> Prop) (r : regex) :
  endsGreedy P r -> endsGreedy P (plus r).
Proof.
  intros Hr st k st' Hk H. unfold plus in H. rewrite mt_Seq in H.
  apply Hr in H as (st1 & Hl & HP & H).
  - rewrite mt_Star in H.
    apply (endsGreedy_star Hr) in H as (st2 & Hl2 & HP2 & H);
      [|intros s Hs; apply Hk; lia|exact HP].
    exists st2. split; [lia|]. split; assumption.
  - intros s Hs. rewrite mt_Star. apply starLoop_total. apply Hk. exact Hs.
Qed.

Lemma tokChar_cases (c : char) : tokChar c = true -> In c tokChars.
Proof.
  unfold tokChar, isDigit, inRange, oneOf. intros H.
  apply orb_true_iff in H as [H|H].
  - apply andb_true_iff in H as [H1 H2]. apply N.leb_le in H1, H2.
    assert (E : (c = 48 \/ c = 49 \/ c = 50 \/ c = 51 \/ c = 52 \/ c = 53 \/ c = 54
                 \/ c = 55 \/ c = 56 \/ c = 57)%N) by lia.
    unfold tokChars. simpl. intuition auto.
  - cbn [existsb] in H. repeat (apply orb_true_iff in H as [H|H]);
      try discriminate; apply N.eqb_eq in H; subst c; unfold tokChars; simpl; auto 20.
Qed.

Lemma tokChar_all (f : char -> bool) (c : char) :
  forallb f tokChars = true -> tokChar c = true -> f c = true.
Proof.
  intros Hf Hc. rewrite forallb_forall in Hf. apply Hf, tokChar_cases, Hc.
Qed.

Lemma token_tokChars (d : jstring) : digits d = true -> forallb tokChar (tokenOf d) = true.
Proof.
  intros Hd. destruct (digits_parts _ Hd) as [_ Hd'].
  rewrite tokenOf_eq, !forallb_app. cbn [forallb]. 
  replace (forallb tokChar d) with true; [reflexivity|].
  symmetry. apply forallb_forall. intros c Hc.
  rewrite forallb_forall in Hd'. unfold tokChar. rewrite (Hd' _ Hc). reflexivity.
Qed.

Lemma token_last (d x : jstring) (c : char) : tokenOf d = x ++ [c] -> c = 95%N.
Proof.
  intros H. apply (f_equal (@rev _)) in H.
  rewrite tokenOf_eq, !rev_app_distr in H. cbn [rev List.app] in H.
  injection H as H _. symmetry. exact H.
Qed.

(** Strictly inside a token the code units on both sides are code units of
    the token, and a letter is not the last of them. *)
Lemma inside_facts (st : mstate) :
  inside st ->
  exists c1 b1 c2 a1,
    before st = c1 :: b1 /\ after st = c2 :: a1 /\
    tokChar c1 = true /\ tokChar c2 = true /\
    (isAlpha c2 = true -> exists c3 a2, a1 = c3 :: a2 /\ tokChar c3 = true).
Proof.
  intros (d & x & y & b0 & z & Hd & Ht & Hx & Hy & Hb & Ha).
  pose proof (token_tokChars _ Hd) as Hall. rewrite Ht, forallb_app in Hall.
  apply andb_true_iff in Hall as [Hax Hay].
  destruct (exists_last Hx) as (x' & c1 & ->).
  destruct y as [|c2 y']; [congruence|].
  rewrite forallb_app in Hax. apply andb_true_iff in Hax as [_ Hc1].
  cbn [forallb] in Hc1, Hay. apply andb_true_iff in Hc1 as [Hc1 _].
  apply andb_true_iff in Hay as [Hc2 Hay].
  exists c1, (rev x' ++ b0), c2, (y' ++ z).
  split; [rewrite Hb, rev_app_distr; reflexivity|].
  split; [exact Ha|]. split; [exact Hc1|]. split; [exact Hc2|].
  intros Halpha. destruct y' as [|c3 y''].
  - cbn [List.app] in Ht. apply token_last in Ht. subst c2. discriminate.
  - cbn [forallb] in Hay. apply andb_true_iff in Hay as [Hc3 _].
    exists c3, (y'' ++ z). auto.
Qed.

Lemma stops_tokChar (p : char -> bool) (st : mstate) :
  forallb p tokChars = true -> stops p (before st) (after st) -> ~ inside st.
Proof.
  intros Hp Hs Hin. apply inside_facts in Hin
    as (c1 & b1 & c2 & a1 & _ & Ha & _ & Hc2 & _).
  unfold stops in Hs. rewrite Ha in Hs. cbn [runLength] in Hs.
  rewrite (tokChar_all p _ Hp Hc2) in Hs. discriminate.
Qed.

Lemma inlineCodeRe_good : goodRe inlineCodeRe.
Proof.
  unfold inlineCodeRe. cbn [seqs]. split.
  - intros st Hin. apply inside_facts in Hin
      as (c1 & b1 & c2 & a1 & _ & Ha & _ & Hc2 & _).
    unfold exec, chr. rewrite mt_Seq, mt_Chr. cbn [after]. rewrite Ha.
    rewrite (proj1 (negb_true_iff _)
               (tokChar_all (fun c => negb (N.eqb 96 c)) _ eq_refl Hc2)).
    reflexivity.
  - intros st st' E Hin.
    assert (He : endsIn (fun b _ => exists c b', b = c :: b' /\ N.eqb 96 c = true)
                   (Seq (chr 96) (Seq (Group 1 (plus (Chr (neg (N.eqb 96))))) (chr 96))))
      by (do 2 apply endsIn_Seq; apply endsIn_Chr).
    apply (@endsIn_exec _ _ _ _ He) in E as (c & b' & Hb & Hc).
    apply inside_facts in Hin as (c1 & b1 & c2 & a1 & Hb1 & _ & Hc1 & _).
    rewrite Hb in Hb1. injection Hb1 as -> ->.
    pose proof (tokChar_all (fun c => negb (N.eqb 96 c)) _ eq_refl Hc1) as Hn.
    cbn beta in Hn. rewrite Hc in Hn. discriminate.
  - intros st st' E. revert E. apply consumes_exec.
    apply consumes_Seq_l, consumes_Chr.
Qed.

Lemma emailRe_good : goodRe emailRe.
Proof.
  unfold emailRe. cbn [seqs]. split.
  - intros st Hin. apply inside_facts in Hin
      as (c1 & b1 & c2 & a1 & Hb & Ha & Hc1 & Hc2 & _).
    unfold exec. rewrite mt_Seq. cbn [mt before after]. rewrite Hb, Ha.
    cbn [hd_error atWord].
    rewrite (tokChar_all isWordChar _ eq_refl Hc1), (tokChar_all isWordChar _ eq_refl Hc2).
    reflexivity.
  - intros st st' E Hin.
    match type of E with exec ?r _ = _ =>
      assert (He : endsIn (fun b a => xorb (atWord (hd_error b)) (atWord (hd_error a)) = true) r)
        by (repeat apply endsIn_Seq; apply endsIn_WordB)
    end.
    apply (@endsIn_exec _ _ _ _ He) in E.
    apply inside_facts in Hin as (c1 & b1 & c2 & a1 & Hb & Ha & Hc1 & Hc2 & _).
    rewrite Hb, Ha in E. cbn [hd_error atWord] in E.
    rewrite (tokChar_all isWordChar _ eq_refl Hc1), (tokChar_all isWordChar _ eq_refl Hc2) in E.
    discriminate.
  - intros st st' E. revert E. apply consumes_exec.
    apply consumes_Seq_r, consumes_Seq_l. unfold plus. apply consumes_Seq_l, consumes_Chr.
Qed.

Lemma urlRe_ends : endsGreedy (stops notSpace) urlRe.
Proof.
  unfold urlRe. cbn [seqs]. apply endsGreedy_Group, endsGreedy_Alt.
  - do 3 apply endsGreedy_Seq. apply endsGreedy_plus_class.
  - do 4 apply endsGreedy_Seq. apply endsGreedy_plus_class.
Qed.

Lemma filePathRe_ends :
  endsGreedy (stops (orC isWordChar (orC isSpace (oneOf [46; 45]%N)))) filePathRe.
Proof.
  unfold filePathRe. apply endsGreedy_Seq, endsGreedy_plus, endsGreedy_Seq.
  apply endsGreedy_plus_class.
Qed.

Lemma urlRe_good : goodRe urlRe.
Proof.
  split.
  - intros st Hin. apply inside_facts in Hin
      as (c1 & b1 & c2 & a1 & _ & Ha & _ & Hc2 & _).
    unfold exec. rewrite Ha. apply tokChar_cases in Hc2. unfold tokChars in Hc2.
    cbn [In] in Hc2.
    repeat (destruct Hc2 as [<-|Hc2]; [vm_compute; reflexivity|]). contradiction.
  - intros st st' E. apply (@endsGreedy_exec _ _ _ _ urlRe_ends) in E as [E _].
    revert E. apply stops_tokChar. reflexivity.
  - intros st st' E. apply (@endsGreedy_exec _ _ _ _ urlRe_ends) in E as [_ E]. exact E.
Qed.

Lemma filePathRe_good : goodRe filePathRe.
Proof.
  split.
  - intros st Hin. apply inside_facts in Hin
      as (c1 & b1 & c2 & a1 & _ & Ha & _ & Hc2 & Hal).
    unfold exec. rewrite Ha. apply tokChar_cases in Hc2. unfold tokChars in Hc2.
    cbn [In] in Hc2.
    repeat (destruct Hc2 as [<-|Hc2];
            [try (vm_compute; reflexivity);
             destruct (Hal eq_refl) as (c3 & a2 & -> & Hc3);
             apply tokChar_cases in Hc3; unfold tokChars in Hc3; cbn [In] in Hc3;
             repeat (destruct Hc3 as [<-|Hc3]; [vm_compute; reflexivity|]);
             contradiction|]).
    contradiction.
  - intros st st' E. apply (@endsGreedy_exec _ _ _ _ filePathRe_ends) in E as [E _].
    revert E. apply stops_tokChar. reflexivity.
  - intros st st' E. apply (@endsGreedy_exec _ _ _ _ filePathRe_ends) in E as [_ E]. exact E.
Qed.

(** ** Tokenized texts under the whitespace steps *)

Lemma clean_In (s : jstring) :
  clean s = true <-> (forall c, In c s -> c <> 95%N /\ c <> 36%N).
Proof.
  unfold clean, free, noDollar. rewrite andb_true_iff, !forallb_forall. split.
  - intros [H1 H2] c Hc. specialize (H1 c Hc). specialize (H2 c Hc).
    apply negb_true_iff in H1, H2. apply N.eqb_neq in H1, H2. split; congruence.
  - intros H. split; intros c Hc; destruct (H c Hc) as [H1 H2];
      apply negb_true_iff, N.eqb_neq; congruence.
Qed.

Lemma token_not_class (p : char -> bool) (d : jstring) (c : char) :
  forallb (fun c => negb (p c)) tokChars = true -> digits d = true ->
  In c (tokenOf d) -> p c = false.
Proof.
  intros Hp Hd Hc. pose proof (token_tokChars _ Hd) as Ht.
  rewrite forallb_forall in Ht.
  apply negb_true_iff. exact (tokChar_all _ _ Hp (Ht _ Hc)).
Qed.

Lemma mapClass_app (p : char -> bool) (rep x y : jstring) :
  mapClass p rep (x ++ y) = mapClass p rep x ++ mapClass p rep y.
Proof. unfold mapClass. apply flat_map_app. Qed.


Lemma collapse_app (p : char -> bool) (rep x y : jstring) (b : bool) :
  exists b', collapse p rep b (x ++ y) = collapse p rep b x ++ collapse p rep b' y.
Proof.
  revert b. induction x as [|c x IH]; intros b.
  - exists b. reflexivity.
  - cbn [List.app collapse]. destruct (p c).
    + destruct (IH true) as (b' & E). exists b'. rewrite E, app_assoc. reflexivity.
    + destruct (IH false) as (b' & E). exists b'. rewrite E. reflexivity.
Qed.

Lemma collapse_keep (p : char -> bool) (rep x y : jstring) (b : bool) :
  (forall c, In c x -> p c = false) -> x <> [] ->
  collapse p rep b (x ++ y) = x ++ collapse p rep false y.
Proof.
  revert b. induction x as [|c x IH]; intros b Hx Hne; [congruence|].
  cbn [List.app collapse]. rewrite (Hx c) by (simpl; auto). f_equal.
  destruct x as [|c' x']; [reflexivity|].
  apply IH; [intros e He; apply Hx; simpl; auto|discriminate].
Qed.


Lemma trimStart_split (s : jstring) :
  exists ws, s = ws ++ trimStart s /\ forallb isSpace ws = true.
Proof.
  induction s as [|c s (ws & E & Hws)]; [exists []; auto|].
  cbn [trimStart]. destruct (isSpace c) eqn:Hc.
  - exists (c :: ws). cbn [List.app forallb]. rewrite Hc, Hws, <- E. auto.
  - exists []. auto.
Qed.

Lemma trimEnd_split (s : jstring) :
  exists ws, s = trimEnd s ++ ws /\ forallb isSpace ws = true.
Proof.
  unfold trimEnd. destruct (trimStart_split (rev s)) as (ws & E & Hws).
  exists (rev ws). split.
  - rewrite <- rev_app_distr, <- E, rev_involutive. reflexivity.
  - rewrite forallb_forall in *. intros c Hc. apply Hws, in_rev, Hc.
Qed.

Lemma flat_cut (segs : list seg) (x y : jstring) :
  forallb segOk segs = true -> flat segs = x ++ y ->
  forallb isSpace x = true \/ forallb isSpace y = true ->
  exists sm sr, x = flat sm /\ y = flat sr /\
    forallb segOk sm = true /\ forallb segOk sr = true /\
    forall d, In (Tok d) (sm ++ sr) -> In (Tok d) segs.
Proof.
  intros Hok E Hsp.
  destruct (split_flat segs Hok x y E)
    as [(sm & sr & Hm & Ha & Hsm & Hsr & Ht)
       |(s1 & d & x0 & y0 & s2 & Hs & Hd & Hx & Hy & Hm & Ha)].
  - exists sm, sr. auto.
  - exfalso.
    assert (Hdd : digits d = true).
    { apply (segOk_tok _ _ Hok). rewrite Hs. apply in_or_app. right. simpl. auto. }
    pose proof (token_tokChars _ Hdd) as Hall. rewrite Hd, forallb_app in Hall.
    apply andb_true_iff in Hall as [Hax Hay].
    destruct Hsp as [Hsp|Hsp].
    + rewrite Hm, forallb_app in Hsp. apply andb_true_iff in Hsp as [_ Hsp].
      destruct x0 as [|c x0]; [congruence|]. cbn [forallb] in Hsp, Hax.
      apply andb_true_iff in Hsp as [Hsp _]. apply andb_true_iff in Hax as [Hax _].
      pose proof (tokChar_all notSpace _ eq_refl Hax) as Hn.
      unfold notSpace, neg in Hn. rewrite Hsp in Hn. discriminate.
    + rewrite Ha, forallb_app in Hsp. apply andb_true_iff in Hsp as [Hsp _].
      destruct y0 as [|c y0]; [congruence|]. cbn [forallb] in Hsp, Hay.
      apply andb_true_iff in Hsp as [Hsp _]. apply andb_true_iff in Hay as [Hay _].
      pose proof (tokChar_all notSpace _ eq_refl Hay) as Hn.
      unfold notSpace, neg in Hn. rewrite Hsp in Hn. discriminate.
Qed.


(** ** The steps of a batch on a tokenized text *)







(** ** From the input to the output *)


Lemma flat_plain (s : jstring) : flat [Plain s] = s.
Proof. unfold flat. cbn [map concat segText]. apply app_nil_r. Qed.



Lemma join_In (sep : jstring) (l : list jstring) (c : char) :
  In c (join sep l) -> In c sep \/ exists x, In x l /\ In c x.
Proof.
  induction l as [|x l IH]; [intros []|].
  destruct l as [|y l'].
  - intros H. right. exists x. simpl. auto.
  - change (join sep (x :: y :: l')) with (x ++ sep ++ join sep (y :: l')).
    rewrite !in_app_iff. intros [H|[H|H]].
    + right. exists x. simpl. auto.
    + auto.
    + destruct (IH H) as [H'|(z & Hz & Hc)]; [auto|].
      right. exists z. split; [right; exact Hz|exact Hc].
Qed.

Lemma splitLoop_In (r : regex) (fuel : nat) :
  forall piece st p c, In p (splitLoop fuel r piece st) -> In c p ->
  In c piece \/ In c (after st).
Proof.
  induction fuel as [|fuel IH]; intros piece st p c Hp Hc.
  - cbn [splitLoop] in Hp. destruct Hp as [<-|[]].
    apply in_app_or in Hc as [Hc|Hc]; [left; apply in_rev, Hc|auto].
  - cbn [splitLoop] in Hp. destruct (after st) as [|c0 rest] eqn:Ea.
    + destruct Hp as [<-|[]]. left. apply in_rev, Hc.
    + assert (Hadv : In p (splitLoop fuel r (c0 :: piece) (advance st)) ->
                     In c piece \/ In c (c0 :: rest)).
      { intros Hp'. destruct (IH _ _ _ _ Hp' Hc) as [[<-|H]|H].
        - right. simpl. auto.
        - auto.
        - right. unfold advance in H. rewrite Ea in H. cbn [after] in H. simpl. auto. }
      destruct (exec r st) as [st'|] eqn:E; [|exact (Hadv Hp)].
      assert (Hcut : In p (rev piece :: splitLoop fuel r [] st') ->
                     In c piece \/ In c (c0 :: rest)).
      { intros [<-|Hp']; [left; apply in_rev, Hc|].
        destruct (IH _ _ _ _ Hp' Hc) as [[]|H].
        right. destruct (exec_reach _ _ E) as (m0 & Hm & _).
        rewrite Ea in Hm. rewrite Hm. apply in_or_app. auto. }
      destruct (consumed st st'); [destruct piece|]; auto.
Qed.

Lemma splitIntoBatches_In (text batch : jstring) (c : char) :
  In batch (splitIntoBatches text) -> In c batch -> In c text.
Proof.
  unfold splitIntoBatches. intros H Hc. apply filter_In in H as [H _].
  destruct text as [|c0 t].
  - cbn in H. destruct H as [<-|[]]. exact Hc.
  - unfold splitRe in H. destruct (splitLoop_In _ _ _ _ _ c H Hc) as [[]|H']. exact H'.
Qed.


(** ** Token resolution, from the input to the output *)

(** Marker text need not be in the input to reach the output: mode C joins
    the two lines of this input into a marker. *)
Lemma newline_removal_makes_marker :
  scriptOutput "C" (js "__PROTECTED" ++ [NL] ++ js "_1__") = js "__PROTECTED_1__".
Proof. vm_compute. reflexivity. Qed.

(** Nor need the input hold an underscore: the original of a token is
    used as a replacement string, and its [$&] brings the token back. *)
Lemma dollar_original_keeps_marker :
  scriptOutput "A" (js "http://a.com/$&") = js "http://a.com/__PROTECTED_1__".
Proof. vm_compute. reflexivity. Qed.



(** * Further properties of the code *)

(** ** Counting words and lines *)

Lemma countWords_leading (ws s : jstring) (b : bool) :
  ws <> [] -> forallb isSpace ws = true -> countWords b (ws ++ s) = countWords false s.
Proof.
  revert b. induction ws as [|c ws IH]; intros b Hne H; [congruence|].
  cbn [forallb] in H. apply andb_true_iff in H as [Hc H].
  cbn [List.app countWords]. rewrite Hc.
  destruct ws as [|c' ws']; [reflexivity|]. apply IH; [discriminate|exact H].
Qed.

Lemma countWords_trimStart (s : jstring) : countWords false (trimStart s) = countWords false s.
Proof.
  destruct (trimStart_split s) as (ws & E & Hws). rewrite E at 2.
  destruct ws as [|c ws]; [reflexivity|].
  rewrite countWords_leading; [reflexivity|discriminate|exact Hws].
Qed.

Lemma countWords_trailing (s ws : jstring) (b : bool) :
  forallb isSpace ws = true -> countWords b (s ++ ws) = countWords b s.
Proof.
  intros Hws. revert b. induction s as [|c s IH]; intros b.
  - cbn [List.app]. destruct ws as [|c ws]; [reflexivity|].
    rewrite <- (app_nil_r (c :: ws)).
    rewrite countWords_leading; [reflexivity|discriminate|exact Hws].
  - cbn [List.app countWords]. destruct (isSpace c); rewrite IH; reflexivity.
Qed.

Lemma countWords_trim (s : jstring) : countWords false (trim s) = countWords false s.
Proof.
  unfold trim. destruct (trimEnd_split (trimStart s)) as (ws & E & Hws).
  rewrite <- (countWords_trimStart s). rewrite E at 2.
  rewrite countWords_trailing by exact Hws. reflexivity.
Qed.

Lemma skipn_runLength_trimStart (s : jstring) :
  skipn (runLength isSpace s) s = trimStart s.
Proof.
  induction s as [|x l IH]; [reflexivity|].
  cbn [runLength trimStart]. destruct (isSpace x); [exact IH|reflexivity].
Qed.

Lemma trimStart_length (s : jstring) : length (trimStart s) <= length s.
Proof.
  destruct (trimStart_split s) as (ws & E & _).
  rewrite E at 2. rewrite length_app. lia.
Qed.

Lemma last_in (s : jstring) (d : char) : s <> [] -> In (last s d) s.
Proof.
  intros H. destruct (exists_last H) as (l & z & ->).
  rewrite last_last. apply in_or_app. right. simpl. auto.
Qed.

Lemma last_trimStart (s : jstring) :
  s <> [] -> isSpace (last s 0%N) = false ->
  trimStart s <> [] /\ last (trimStart s) 0%N = last s 0%N.
Proof.
  intros Hne Hl. destruct (trimStart_split s) as (ws & E & Hws).
  destruct (trimStart s) as [|x l] eqn:Et.
  - exfalso. rewrite app_nil_r in E. subst ws. rewrite forallb_forall in Hws.
    rewrite Hws in Hl; [discriminate|]. apply last_in. exact Hne.
  - split; [discriminate|]. rewrite E. symmetry. apply last_app_right. discriminate.
Qed.

(** The pieces of a text that does not end with white space, once a word
    has begun. *)
Lemma splitLoop_words :
  forall fuel piece b a cs,
  length a < fuel -> isSpace (last a 0%N) = false ->
  length (splitLoop fuel wsRe piece (MState b a cs)) = 1 + countWords true a.
Proof.
  induction fuel as [fuel IH] using lt_wf_ind. intros piece b a cs Hf Hl.
  destruct fuel as [|fuel]; [lia|].
  destruct a as [|c rest]; [reflexivity|].
  cbn [splitLoop after]. unfold wsRe. rewrite exec_plus_class.
  cbn [countWords]. destruct (isSpace c) eqn:Hc.
  - set (n := runLength isSpace (c :: rest)).
    assert (Hle : n <= length (c :: rest)) by apply runLength_le.
    assert (Hn : n = S (runLength isSpace rest))
      by (unfold n; cbn [runLength]; rewrite Hc; reflexivity).
    rewrite (@consumed_skipn n b _ (c :: rest) cs [] Hle).
    rewrite Hn at 1. cbn [firstn length]. f_equal.
    change (plus (Chr isSpace)) with wsRe.
    unfold n. rewrite skipn_runLength_trimStart.
    destruct (@last_trimStart (c :: rest)) as [Hne Hlast]; [discriminate|exact Hl|].
    rewrite (IH fuel (Nat.lt_succ_diag_r _));
      [|cbn [trimStart]; rewrite Hc;
        apply Nat.le_lt_trans with (length rest);
        [apply trimStart_length|apply Nat.succ_lt_mono, Hf]
       |etransitivity; [|exact Hl]; f_equal; exact Hlast].
    rewrite <- (countWords_trimStart rest).
    cbn [trimStart] in Hne |- *. rewrite Hc in Hne |- *.
    destruct (trimStart rest) as [|x l] eqn:Et; [congruence|].
    pose proof (trimStart_head _ Et) as Hx. cbn [countWords]. rewrite Hx. reflexivity.
  - change (plus (Chr isSpace)) with wsRe. unfold advance. cbn [after before caps].
    rewrite (IH fuel (Nat.lt_succ_diag_r _)); [reflexivity|simpl in Hf; lia|].
    destruct rest as [|c' rest']; [reflexivity|exact Hl].
Qed.

Lemma wordCount_countWords (t : jstring) : wordCount t = countWords false t.
Proof.
  unfold wordCount. rewrite <- (countWords_trim t).
  destruct (trim t) as [|c rest] eqn:Et; [reflexivity|].
  cbn [truthy]. rewrite splitRe_nonempty by discriminate.
  assert (Hc : isSpace c = false).
  { unfold trim, trimEnd in Et. 
    destruct (trimEnd_split (trimStart t)) as (ws & E & Hws). unfold trim in Et.
    fold (trimEnd (trimStart t)) in Et. rewrite Et in E.
    destruct (trimStart t) as [|x l] eqn:Ets; [discriminate|].
    injection E as -> _. exact (trimStart_head _ Ets). }
  assert (Hl : isSpace (last (c :: rest) 0%N) = false).
  { destruct (exists_last (l := c :: rest)) as (l0 & z & E); [discriminate|].
    rewrite E, last_last. rewrite E in Et. exact (@trimEnd_last (trimStart t) l0 z Et). }
  unfold start. cbn [splitLoop after]. unfold wsRe. rewrite exec_plus_class, Hc.
  change (plus (Chr isSpace)) with wsRe. unfold advance. cbn [after before caps].
  rewrite splitLoop_words.
  - cbn [countWords]. rewrite Hc. reflexivity.
  - unfold char, jstring in *. simpl. lia.
  - destruct rest as [|c' rest']; [reflexivity|exact Hl].
Qed.

Lemma splitOn_length (t : jstring) : length (splitOn NL t) = S (countNL t).
Proof.
  unfold countNL. induction t as [|c t IH]; [reflexivity|].
  cbn [splitOn filter]. rewrite (N.eqb_sym NL c).
  destruct (N.eqb c NL).
  - cbn [length]. rewrite IH. reflexivity.
  - destruct (splitOn NL t) as [|l ls]; [discriminate|]. exact IH.
Qed.

(** The word count the three statistics and the word check use is the
    number of maximal runs of code units that are not white space. *)
Theorem wordCount_is_number_of_runs (t : jstring) :
  wordCount t = countWords false t.
Proof. apply wordCount_countWords. Qed.

(** [updateInputStats] in closed form: the number of words, the number
    of code units, and one more line than there are line feeds, except
    that the empty text has no line. *)
Theorem updateInputStats_shows (text : jstring) :
  updateInputStats text =
  InputStats (js "Words: " ++ natStr (countWords false text))
             (js "Chars: " ++ natStr (length text))
             (js "Lines: " ++ natStr (if truthy text then S (countNL text) else 0)).
Proof.
  unfold updateInputStats. rewrite wordCount_countWords, splitOn_length. reflexivity.
Qed.

(** [updateOutputStats] in closed form: it writes the three statistics
    elements only; the line breaks removed are the line feeds of the
    original that exceed those of the processed text, never a negative
    number. *)
Theorem updateOutputStats_shows (original processed : jstring) (a : app) :
  let a' := updateOutputStats original processed a in
  outputWordCount a' = js "Words: " ++ natStr (countWords false processed) /\
  outputCharCount a' = js "Chars: " ++ natStr (length processed) /\
  lineBreaksRemoved a' =
    js "Line breaks removed: " ++ natStr (countNL original - countNL processed) /\
  outputText a' = outputText a /\ warningShown a' = warningShown a /\
  wordMatch a' = wordMatch a /\ charMatch a' = charMatch a /\
  contentMatch a' = contentMatch a.
Proof.
  unfold updateOutputStats. cbn [outputWordCount outputCharCount lineBreaksRemoved
    outputText warningShown wordMatch charMatch contentMatch].
  rewrite wordCount_countWords, !splitOn_length.
  repeat split; reflexivity.
Qed.

(** ** The warning banner and the indicators *)

Lemma warningShown_verifyContentIntegrity (o p : jstring) (a : app) :
  warningShown (verifyContentIntegrity o p a) =
  warningShown a || negb (wordsAgree o p && charsAgree o p && contentVerified o p).
Proof.
  unfold verifyContentIntegrity.
  destruct (wordsAgree o p), (charsAgree o p), (contentVerified o p);
    cbn [negb orb andb showWarning warningShown]; rewrite ?orb_true_r, ?orb_false_r;
    reflexivity.
Qed.

(** A run never hides the warning banner: after [processText] the banner
    is shown exactly when it was shown before or one of the three checks
    of this run, which compare the trimmed input with the output, failed.
    Only [clearOutput] hides it. *)
Theorem processText_banner (a : app) :
  let input := trim (inputText a) in
  let out := outputText (Script.processText a) in
  warningShown (Script.processText a) =
    warningShown a
    || (truthy input
        && negb (wordsAgree input out && charsAgree input out && contentVerified input out))
  /\ warningShown (clearOutput a) = false.
Proof.
  split; [|reflexivity].
  unfold Script.processText. destruct (truthy (trim (inputText a))); cbn [negb].
  - destruct (Script.run (mode a) (trim (inputText a))) as [p output].
    rewrite outputText_verifyContentIntegrity, outputText_updateOutputStats.
    rewrite warningShown_verifyContentIntegrity. reflexivity.
  - cbn [warningShown andb]. rewrite orb_false_r. reflexivity.
Qed.



Lemma codePoints_nil (s : jstring) : codePoints s = [] -> s = [].
Proof.
  destruct s as [|c [|d rest]]; cbn [codePoints]; [reflexivity|discriminate|].
  destruct (isHighSurrogate c && isLowSurrogate d); discriminate.
Qed.

Lemma allIn_refl (A : list jstring) : allIn A A = true.
Proof. apply allIn_spec. auto. Qed.

(** A processed text that differs from the original in white space only
    passes the character check and the content check, whatever the page
    showed before; the word indicator and the warning then depend on the
    number of words alone. *)
Theorem verifyContentIntegrity_whitespace_only (original processed : jstring) (a : app) :
  stripSpace original = stripSpace processed ->
  let a' := verifyContentIntegrity original processed a in
  let sameWords := Nat.eqb (countWords false original) (countWords false processed) in
  isMatch (charMatch a') = true /\
  isMatch (contentMatch a') = true /\
  isMatch (wordMatch a') = sameWords /\
  warningShown a' = warningShown a || negb sameWords.
Proof.
  intros E a' sameWords.
  assert (Hc : charsAgree original processed = true).
  { unfold charsAgree. rewrite !nonSpace_stripSpace, E. apply Nat.eqb_refl. }
  assert (Hv : contentVerified original processed = true).
  { unfold contentVerified. rewrite Hc, !nonSpace_stripSpace, E. apply allIn_refl. }
  assert (Hwd : wordsAgree original processed = sameWords).
  { unfold wordsAgree. rewrite !wordCount_countWords. reflexivity. }
  unfold a'. rewrite warningShown_verifyContentIntegrity.
  unfold verifyContentIntegrity. rewrite Hwd, Hc, Hv.
  destruct sameWords;
    cbn [negb orb andb wordMatch charMatch contentMatch updateVerificationIndicator
         isMatch showWarning];
    repeat split; reflexivity.
Qed.

Lemma verifyContentIntegrity_whitespace_only_witness :
  stripSpace (js "a   b c") = stripSpace (js "a bc") /\
  let a' := verifyContentIntegrity (js "a   b c") (js "a bc") (page "A" (js "a   b c")) in
  let sameWords := Nat.eqb (countWords false (js "a   b c")) (countWords false (js "a bc")) in
  isMatch (charMatch a') = true /\
  isMatch (contentMatch a') = true /\
  isMatch (wordMatch a') = sameWords /\
  warningShown a' = warningShown (page "A" (js "a   b c")) || negb sameWords.
Proof.
  split; [reflexivity|].
  apply (@verifyContentIntegrity_whitespace_only (js "a   b c") (js "a bc")
           (page "A" (js "a   b c"))).
  reflexivity.
Defined.

(** ** Escaping a token for the restoration pattern *)

Lemma replaceLoop_escape :
  forall fuel b a cs, length a < fuel ->
  snd (replaceLoop fuel (Chr isMeta) (byString [92; 36; 38]%N) tt (MState b a cs)) =
  flat_map (fun c => if isMeta c then [92%N; c] else [c]) a.
Proof.
  induction fuel as [|fuel IH]; intros b a cs Hf; [lia|].
  rewrite replaceLoop_unit, exec_Chr.
  destruct a as [|c rest]; [reflexivity|].
  cbn [flat_map]. destruct (isMeta c) eqn:Hp.
  - rewrite consumed_cons. cbn [byString snd after].
    rewrite IH by (simpl in Hf; lia). reflexivity.
  - cbn [after]. unfold advance. cbn [after before caps].
    rewrite IH by (simpl in Hf; lia). reflexivity.
Qed.

Lemma regExpOfEscaped_escaped (s : jstring) :
  regExpOfEscaped (flat_map (fun c => if isMeta c then [92%N; c] else [c]) s) = lit s.
Proof.
  induction s as [|c s IH]; [reflexivity|].
  cbn [flat_map lit fold_right]. fold (lit s). destruct (isMeta c) eqn:Hm.
  - cbn [List.app regExpOfEscaped]. rewrite N.eqb_refl, IH. reflexivity.
  - cbn [List.app regExpOfEscaped].
    destruct (N.eqb_spec c 92) as [->|_]; [discriminate|]. rewrite IH. reflexivity.
Qed.

(** [escapeRegExp] puts one backslash before every metacharacter and
    changes nothing else, and the pattern made from its result matches
    the original string literally: at any position it matches exactly when
    the string is a prefix of the remaining text, and takes just that
    prefix. *)
Theorem escapeRegExp_matches_literally (s : jstring) :
  escapeRegExp s = flat_map (fun c => if isMeta c then [92%N; c] else [c]) s /\
  forall b a cs,
    exec (regExpOfEscaped (escapeRegExp s)) (MState b a cs) =
    if isPrefix s a then Some (MState (rev s ++ b) (skipn (length s) a) []) else None.
Proof.
  assert (E : escapeRegExp s = flat_map (fun c => if isMeta c then [92%N; c] else [c]) s).
  { unfold escapeRegExp. rewrite replaceStr_unfold. unfold start.
    apply replaceLoop_escape. lia. }
  split; [exact E|]. intros b a cs.
  rewrite E, regExpOfEscaped_escaped. apply exec_lit.
Qed.

(** ** Runs of white space *)

Lemma includes_two (t : jstring) (x : char) :
  includes t [x; x] = adjacent (N.eqb x) t.
Proof.
  induction t as [|c t IH]; [reflexivity|].
  cbn [includes adjacent isPrefix]. rewrite IH. f_equal.
  destruct t as [|d t']; cbn [isPrefix]; [rewrite andb_false_r; reflexivity|].
  rewrite andb_true_r. reflexivity.
Qed.

Lemma adjacent_app (p : char -> bool) (x y : jstring) :
  adjacent p (x ++ y) = false -> adjacent p x = false /\ adjacent p y = false.
Proof.
  induction x as [|c x IH]; intros H; [split; [reflexivity|exact H]|].
  cbn [List.app adjacent] in H. apply orb_false_iff in H as [H1 H2].
  destruct (IH H2) as [Hx Hy]. split; [|exact Hy].
  cbn [adjacent]. rewrite Hx, orb_false_r.
  destruct x as [|d x']; [apply andb_false_r|exact H1].
Qed.


Lemma adjacent_trim (p : char -> bool) (t : jstring) :
  adjacent p t = false -> adjacent p (trim t) = false.
Proof.
  intros H. unfold trim.
  destruct (trimStart_split t) as (ws & E & _). rewrite E in H.
  apply adjacent_app in H as [_ H].
  destruct (trimEnd_split (trimStart t)) as (ws' & E' & _). rewrite E' in H.
  apply adjacent_app in H as [H _]. exact H.
Qed.

(** After a collapse no two code units of the class are adjacent, and a
    run that was already open is not reopened. *)
Lemma collapse_adjacent (p : char -> bool) (t : jstring) :
  p SP = true ->
  forall b,
  adjacent p (collapse p [SP] b t) = false /\
  (b = true -> match collapse p [SP] b t with c :: _ => p c = false | [] => True end).
Proof.
  intros Hsp. induction t as [|c t IH]; intros b; [split; [reflexivity|exact (fun _ => I)]|].
  cbn [collapse]. destruct (p c) eqn:Hc.
  - destruct (IH true) as [H1 H2]. specialize (H2 eq_refl). destruct b.
    + cbn [List.app]. split; [exact H1|intros _; exact H2].
    + cbn [List.app adjacent]. rewrite H1, orb_false_r. split; [|discriminate].
      destruct (collapse p [SP] true t); [apply andb_false_r|].
      rewrite H2. apply andb_false_r.
  - destruct (IH false) as [H1 _]. cbn [adjacent]. rewrite H1. split; [|intros _; exact Hc].
    rewrite Hc. reflexivity.
Qed.

(** A collapse changes nothing in a text whose code units of the class
    are single spaces. *)
Lemma collapse_fixed (p : char -> bool) (t : jstring) :
  adjacent p t = false -> (forall c, In c t -> p c = true -> c = SP) ->
  collapse p [SP] false t = t.
Proof.
  induction t as [|c t IH]; intros Ha Hs; [reflexivity|].
  cbn [collapse]. cbn [adjacent] in Ha. apply orb_false_iff in Ha as [H1 H2].
  assert (Hs' : forall d, In d t -> p d = true -> d = SP)
    by (intros d Hd; apply Hs; simpl; auto).
  destruct (p c) eqn:Hc.
  - rewrite (Hs c) by (simpl; auto). cbn [List.app]. f_equal.
    destruct t as [|d t']; [reflexivity|].
    cbn [andb] in H1. cbn [collapse]. rewrite H1.
    f_equal. assert (E := IH H2 Hs'). cbn [collapse] in E. rewrite H1 in E.
    injection E as E. exact E.
  - f_equal. exact (IH H2 Hs').
Qed.

Lemma stripSpace_app (x y : jstring) : stripSpace (x ++ y) = stripSpace x ++ stripSpace y.
Proof. apply filter_app. Qed.

Lemma stripSpace_blank (ws : jstring) : forallb isSpace ws = true -> stripSpace ws = [].
Proof.
  induction ws as [|c ws IH]; [reflexivity|]. cbn [forallb]. intros H.
  apply andb_true_iff in H as [Hc H]. cbn [stripSpace filter]. rewrite Hc. exact (IH H).
Qed.

Lemma stripSpace_mapClass (p : char -> bool) (rep t : jstring) :
  (forall c, p c = true -> isSpace c = true) -> forallb isSpace rep = true ->
  stripSpace (mapClass p rep t) = stripSpace t.
Proof.
  intros Hp Hrep. induction t as [|c t IH]; [reflexivity|].
  cbn [mapClass flat_map]. fold (mapClass p rep t). rewrite stripSpace_app, IH.
  destruct (p c) eqn:Hc.
  - rewrite (stripSpace_blank _ Hrep). unfold stripSpace. cbn [filter List.app].
    rewrite (Hp c Hc). reflexivity.
  - change (c :: t) with ([c] ++ t). rewrite stripSpace_app. reflexivity.
Qed.

Lemma stripSpace_collapse (p : char -> bool) (rep t : jstring) (b : bool) :
  (forall c, p c = true -> isSpace c = true) -> forallb isSpace rep = true ->
  stripSpace (collapse p rep b t) = stripSpace t.
Proof.
  intros Hp Hrep. revert b. induction t as [|c t IH]; intros b; [reflexivity|].
  cbn [collapse]. destruct (p c) eqn:Hc.
  - rewrite stripSpace_app, IH. change (c :: t) with ([c] ++ t).
    rewrite (stripSpace_app [c] t).
    replace (stripSpace [c]) with (@nil char)
      by (unfold stripSpace; cbn [filter]; rewrite (Hp c Hc); reflexivity).
    destruct b; [reflexivity|]. rewrite (stripSpace_blank _ Hrep). reflexivity.
  - change (c :: collapse p rep false t) with ([c] ++ collapse p rep false t).
    change (c :: t) with ([c] ++ t). rewrite !stripSpace_app, IH. reflexivity.
Qed.

Lemma stripSpace_trim (t : jstring) : stripSpace (trim t) = stripSpace t.
Proof.
  unfold trim. destruct (trimStart_split t) as (ws & E & Hws).
  destruct (trimEnd_split (trimStart t)) as (ws' & E' & Hws').
  rewrite E at 2. rewrite E' at 2.
  rewrite !stripSpace_app, (stripSpace_blank _ Hws), (stripSpace_blank _ Hws').
  rewrite app_nil_r. reflexivity.
Qed.

Lemma trim_ends (s : jstring) (c : char) (r : jstring) :
  trim s = c :: r -> isSpace c = false /\ isSpace (last (c :: r) SP) = false.
Proof.
  intros Et. split.
  - unfold trim in Et. destruct (trimEnd_split (trimStart s)) as (ws & E & _).
    rewrite Et in E. destruct (trimStart s) as [|x l] eqn:Ets; [discriminate|].
    injection E as -> _. exact (trimStart_head _ Ets).
  - destruct (exists_last (l := c :: r)) as (l0 & z & E); [discriminate|].
    rewrite E, last_last. rewrite E in Et. exact (@trimEnd_last (trimStart s) l0 z Et).
Qed.

Lemma trim_idem (s : jstring) : trim (trim s) = trim s.
Proof.
  destruct (trim s) as [|c r] eqn:Et; [reflexivity|].
  destruct (trim_ends _ Et) as [H1 H2]. apply trim_id; assumption.
Qed.

Lemma countNL_app (x y : jstring) : countNL (x ++ y) = countNL x + countNL y.
Proof. unfold countNL. rewrite filter_app, length_app. reflexivity. Qed.

Lemma countNL_mapClass (p : char -> bool) (t : jstring) :
  p NL = false -> countNL (mapClass p [SP] t) = countNL t.
Proof.
  intros Hp. induction t as [|c t IH]; [reflexivity|].
  cbn [mapClass flat_map]. fold (mapClass p [SP] t).
  change (c :: t) with ([c] ++ t). rewrite !countNL_app, IH. f_equal.
  destruct (p c) eqn:Hc; [|reflexivity].
  unfold countNL. cbn [filter]. destruct (N.eqb_spec NL c) as [<-|_]; [congruence|reflexivity].
Qed.

Lemma countNL_collapse (p : char -> bool) (t : jstring) (b : bool) :
  p NL = false -> countNL (collapse p [SP] b t) = countNL t.
Proof.
  intros Hp. revert b. induction t as [|c t IH]; intros b; [reflexivity|].
  cbn [collapse]. change (c :: t) with ([c] ++ t). destruct (p c) eqn:Hc.
  - rewrite !countNL_app, IH.
    replace (countNL [c]) with 0
      by (unfold countNL; cbn [filter]; destruct (N.eqb_spec NL c) as [<-|_];
          [congruence|reflexivity]).
    destruct b; reflexivity.
  - change (c :: collapse p [SP] false t) with ([c] ++ collapse p [SP] false t).
    rewrite !countNL_app, IH. reflexivity.
Qed.

Lemma collapse_class_space (p : char -> bool) (t : jstring) (b : bool) (c : char) :
  In c (collapse p [SP] b t) -> p c = true -> c = SP.
Proof.
  revert b. induction t as [|x t IH]; intros b Hin Hp; [destruct Hin|].
  cbn [collapse] in Hin. destruct (p x) eqn:Hx.
  - apply in_app_or in Hin as [Hin|Hin]; [|exact (IH _ Hin Hp)].
    destruct b; [destruct Hin|]. destruct Hin as [<-|[]]. reflexivity.
  - destruct Hin as [<-|Hin]; [congruence|exact (IH _ Hin Hp)].
Qed.

(** What [trim] of a collapsed text has in common in the mode engines
    and in the final cleanup. *)
Lemma collapsed_trimmed (p : char -> bool) (t : jstring) :
  p SP = true ->
  let out := trim (collapse p [SP] false t) in
  adjacent p out = false /\
  (forall c, In c out -> p c = true -> c = SP) /\
  trim out = out /\
  trim (collapse p [SP] false out) = out.
Proof.
  intros Hsp out.
  assert (Ha : adjacent p out = false)
    by (apply adjacent_trim, (collapse_adjacent p t Hsp false)).
  assert (Hs : forall c, In c out -> p c = true -> c = SP)
    by (intros c Hc; apply trim_In in Hc; exact (collapse_class_space _ _ _ _ Hc)).
  assert (Ht : trim out = out) by apply trim_idem.
  repeat split; try assumption.
  rewrite (collapse_fixed p out Ha Hs). exact Ht.
Qed.

(** [normalizeWhitespace] of script.js.  Its two replacements for line
    endings never change anything, since the first replacement has
    already turned every carriage return into a space: the result is that
    of the first two replacements.  It holds no code unit of the class of
    the first replacement and no two adjacent spaces, it has the line
    feeds and the code units other than white space of the text, and
    normalizing it again changes nothing. *)
Theorem normalizeWhitespace_result (text : jstring) :
  let out := Script.normalizeWhitespace text in
  out = replaceStr spacesRe [SP] (replaceStr (Chr unicodeSpace) [SP] text) /\
  forallb (fun c => negb (unicodeSpace c)) out = true /\
  includes out [SP; SP] = false /\
  countNL out = countNL text /\
  stripSpace out = stripSpace text /\
  Script.normalizeWhitespace out = out.
Proof.
  intros out. unfold out. rewrite normalizeWhitespace_eq.
  set (t1 := mapClass unicodeSpace [SP] text).
  assert (Hcl : forall c, In c (collapse (N.eqb SP) [SP] false t1) -> unicodeSpace c = false).
  { intros c Hc. apply collapse_In in Hc as [Hc|[<-|[]]]; [|reflexivity].
    exact (mapClass_removes unicodeSpace text c eq_refl Hc). }
  assert (Ha : adjacent (N.eqb SP) (collapse (N.eqb SP) [SP] false t1) = false)
    by apply (collapse_adjacent (N.eqb SP) t1 eq_refl false).
  split; [|split; [|split; [|split; [|split]]]].
  - unfold spacesRe, chr, t1.
    rewrite (replaceStr_Chr unicodeSpace [SP] text) by reflexivity.
    rewrite (replaceStr_plus_class (N.eqb SP)) by reflexivity. reflexivity.
  - apply forallb_forall. intros c Hc. rewrite (Hcl c Hc). reflexivity.
  - rewrite includes_two. exact Ha.
  - rewrite countNL_collapse by reflexivity. apply countNL_mapClass. reflexivity.
  - rewrite stripSpace_collapse; [|intros c Hc; apply N.eqb_eq in Hc; subst c; reflexivity
                                   |reflexivity].
    apply stripSpace_mapClass; [intros c Hc; exact (proj1 (unicodeSpace_white c Hc))|reflexivity].
  - rewrite normalizeWhitespace_eq. rewrite mapClass_id by exact Hcl.
    apply collapse_fixed; [exact Ha|].
    intros c _ Hc. apply N.eqb_eq in Hc. symmetry. exact Hc.
Qed.

(** [processModeA] of script.js: the result holds no line feed and no two
    adjacent spaces, neither starts nor ends with white space, has the
    code units other than white space of the text, and is left as it is
    by a second application. *)
Theorem processModeA_result (text : jstring) :
  let out := Script.processModeA text in
  forallb (fun c => negb (N.eqb NL c)) out = true /\
  includes out [SP; SP] = false /\
  trim out = out /\
  stripSpace out = stripSpace text /\
  Script.processModeA out = out.
Proof.
  intros out. unfold out. rewrite !processModeA_eq.
  set (t1 := mapClass (N.eqb NL) [SP] text).
  destruct (collapsed_trimmed (N.eqb SP) t1 eq_refl) as (Ha & Hs & Ht & Hfix).
  assert (Hnl : forall c, In c (trim (collapse (N.eqb SP) [SP] false t1)) -> N.eqb NL c = false).
  { intros c Hc. apply trim_In in Hc. apply collapse_In in Hc as [Hc|[<-|[]]]; [|reflexivity].
    exact (mapClass_removes (N.eqb NL) text c eq_refl Hc). }
  split; [|split; [|split; [|split]]].
  - apply forallb_forall. intros c Hc. rewrite (Hnl c Hc). reflexivity.
  - rewrite includes_two. exact Ha.
  - exact Ht.
  - rewrite stripSpace_trim, stripSpace_collapse;
      [|intros c Hc; apply N.eqb_eq in Hc; subst c; reflexivity|reflexivity].
    apply stripSpace_mapClass; [|reflexivity].
    intros c Hc. apply N.eqb_eq in Hc. subst c. reflexivity.
  - rewrite mapClass_id by exact Hnl. exact Hfix.
Qed.

(** [processModeC] of script.js removes every line feed before it
    collapses white space, so two lines are joined without a space
    between them.  In the result every white space code unit is a space,
    no two of them are adjacent, none is at the start or the end; the code
    units other than white space are those of the text, and a second
    application changes nothing. *)
Theorem processModeC_result (text rest : jstring) :
  Script.processModeC (text ++ NL :: rest) = Script.processModeC (text ++ rest) /\
  let out := Script.processModeC text in
  forallb (fun c => negb (isSpace c) || N.eqb c SP) out = true /\
  adjacent isSpace out = false /\
  trim out = out /\
  stripSpace out = stripSpace text /\
  Script.processModeC out = out.
Proof.
  assert (E : forall t, Script.processModeC t =
                trim (collapse isSpace [SP] false (mapClass (N.eqb NL) [] t))).
  { intros t. unfold Script.processModeC, wsRe, chr.
    rewrite (replaceStr_Chr (N.eqb NL) [] t) by reflexivity.
    rewrite (replaceStr_plus_class isSpace) by reflexivity. reflexivity. }
  split.
  - rewrite !E, !mapClass_app. cbn [mapClass flat_map]. rewrite N.eqb_refl. reflexivity.
  - intros out. unfold out. rewrite !E.
    set (t1 := mapClass (N.eqb NL) [] text).
    destruct (collapsed_trimmed isSpace t1 eq_refl) as (Ha & Hs & Ht & Hfix).
    split; [|split; [|split; [|split]]].
    + apply forallb_forall. intros c Hc. destruct (isSpace c) eqn:Hsp; [|reflexivity].
      rewrite (Hs c Hc Hsp). reflexivity.
    + exact Ha.
    + exact Ht.
    + rewrite stripSpace_trim, stripSpace_collapse by (auto; reflexivity).
      apply stripSpace_mapClass; [|reflexivity].
      intros c Hc. apply N.eqb_eq in Hc. subst c. reflexivity.
    + rewrite mapClass_id; [exact Hfix|].
      intros c Hc. destruct (N.eqb_spec NL c) as [<-|_]; [|reflexivity].
      specialize (Hs NL Hc eq_refl). discriminate.
Qed.

Lemma finalCleanup_eq (text : jstring) :
  Script.finalCleanup text = trim (collapse (N.eqb SP) [SP] false text).
Proof.
  unfold Script.finalCleanup, spacesRe, chr.
  rewrite replaceStr_plus_class by reflexivity. reflexivity.
Qed.



(** [finalCleanup] of script.js gives a text without two adjacent
    spaces and without white space at its ends, keeps the code units
    other than white space, and changes nothing when applied again. *)
Theorem finalCleanup_result (text : jstring) :
  let out := Script.finalCleanup text in
  includes out [SP; SP] = false /\
  trim out = out /\
  stripSpace out = stripSpace text /\
  Script.finalCleanup out = out.
Proof.
  intros out. unfold out. rewrite !finalCleanup_eq.
  destruct (collapsed_trimmed (N.eqb SP) text eq_refl) as (Ha & Hs & Ht & Hfix).
  split; [|split; [|split]].
  - rewrite includes_two. exact Ha.
  - exact Ht.
  - rewrite stripSpace_trim. apply stripSpace_collapse; [|reflexivity].
    intros c Hc. apply N.eqb_eq in Hc. subst c. reflexivity.
  - exact Hfix.
Qed.


(** ** The order of restoration in the structure-preserving variant *)

Lemma insertByLength_perm (x : jstring) (l : list jstring) :
  Permutation (x :: l) (insertByLength x l).
Proof.
  induction l as [|y l IH]; [apply Permutation_refl|].
  cbn [insertByLength]. destruct (length y <? length x); [apply Permutation_refl|].
  apply perm_trans with (y :: x :: l); [apply perm_swap|]. apply perm_skip. exact IH.
Qed.

Lemma insertByLength_sorted (x : jstring) (l : list jstring) :
  StronglySorted (fun a b : jstring => length b <= length a) l ->
  StronglySorted (fun a b : jstring => length b <= length a) (insertByLength x l).
Proof.
  induction 1 as [|y l Hs IH Hy]; [repeat constructor|].
  cbn [insertByLength]. destruct (length y <? length x) eqn:E.
  - apply Nat.ltb_lt in E. constructor; [constructor; assumption|].
    constructor; [lia|]. rewrite Forall_forall in *. intros z Hz. specialize (Hy z Hz). lia.
  - apply Nat.ltb_ge in E. constructor; [exact IH|].
    rewrite Forall_forall in *. intros z Hz.
    apply (Permutation_in _ (Permutation_sym (insertByLength_perm x l))) in Hz.
    destruct Hz as [<-|Hz]; [exact E|exact (Hy z Hz)].
Qed.

Lemma insertByLength_stable (n : nat) (x : jstring) (l : list jstring) :
  StronglySorted (fun a b : jstring => length b <= length a) l ->
  filter (fun y => length y =? n) (insertByLength x l) =
  filter (fun y => length y =? n) l ++ filter (fun y => length y =? n) [x].
Proof.
  induction 1 as [|y l Hs IH Hy]; [reflexivity|].
  cbn [insertByLength]. destruct (length y <? length x) eqn:E.
  - apply Nat.ltb_lt in E. cbn [filter].
    destruct (length x =? n) eqn:Ex.
    + apply Nat.eqb_eq in Ex.
      assert (Hy' : (length y =? n) = false) by (apply Nat.eqb_neq; lia). rewrite Hy'.
      match goal with
      | |- context [filter ?f l] => assert (Hnil : filter f l = [])
      end; [|rewrite Hnil; reflexivity].
      clear IH. induction l as [|z l IHl]; [reflexivity|].
      apply Forall_cons_iff in Hy as [Hz Hy]. apply StronglySorted_inv in Hs as [Hs _].
      cbn [filter]. replace (length z =? n) with false
        by (symmetry; apply Nat.eqb_neq; lia).
      exact (IHl Hs Hy).
    + rewrite app_nil_r. reflexivity.
  - cbn [filter]. rewrite IH. destruct (length y =? n); reflexivity.
Qed.

Lemma sort_fold (l : list jstring) :
  forall acc,
  StronglySorted (fun a b : jstring => length b <= length a) acc ->
  let r := fold_left (fun acc x => insertByLength x acc) l acc in
  Permutation (acc ++ l) r /\
  StronglySorted (fun a b : jstring => length b <= length a) r /\
  forall n, filter (fun y => length y =? n) r =
            filter (fun y => length y =? n) acc ++ filter (fun y => length y =? n) l.
Proof.
  induction l as [|x l IH]; intros acc Hacc.
  - cbn [fold_left]. rewrite app_nil_r. repeat split; auto. intros n.
    cbn [filter]. rewrite app_nil_r. reflexivity.
  - cbn [fold_left].
    destruct (IH (insertByLength x acc) (insertByLength_sorted x Hacc)) as (Hp & Hs & Hf).
    split; [|split; [exact Hs|]].
    + eapply perm_trans; [|exact Hp].
      apply perm_trans with ((x :: acc) ++ l).
      * apply Permutation_sym. apply Permutation_middle.
      * apply Permutation_app_tail. apply insertByLength_perm.
    + intros n. rewrite Hf, (insertByLength_stable n x Hacc), <- app_assoc.
      f_equal. cbn [filter]. destruct (length x =? n); reflexivity.
Qed.

Lemma sortLongestFirst_keys (l : list jstring) :
  Permutation l (sortLongestFirst l) /\
  StronglySorted (fun a b : jstring => length b <= length a) (sortLongestFirst l).
Proof.
  unfold sortLongestFirst.
  destruct (sort_fold l (SSorted_nil _)) as (Hp & Hs & _). split; assumption.
Qed.

(** The order in which [restoreProtectedContent] of the
    structure-preserving variant takes the tokens: the keys of the table,
    each once, by length from the longest to the shortest, keys of the
    same length in the order of the table. *)
Theorem sortLongestFirst_sorted (l : list jstring) :
  Permutation l (sortLongestFirst l) /\
  StronglySorted (fun a b : jstring => length b <= length a) (sortLongestFirst l) /\
  forall n, filter (fun y => length y =? n) (sortLongestFirst l) =
            filter (fun y => length y =? n) l.
Proof.
  unfold sortLongestFirst.
  destruct (sort_fold l (SSorted_nil _)) as (Hp & Hs & Hf).
  split; [exact Hp|]. split; [exact Hs|exact Hf].
Qed.

(** ** Restoration of a text without tokens *)

Lemma includes_suffix (x y k : jstring) : includes (x ++ y) k = false -> includes y k = false.
Proof.
  induction x as [|c x IH]; intros H; [exact H|].
  cbn [List.app includes] in H. apply orb_false_iff in H as [_ H]. exact (IH H).
Qed.

Lemma includes_head (t k : jstring) : includes t k = false -> isPrefix k t = false.
Proof. destruct t; cbn [includes]; intros H; apply orb_false_iff in H as [H _]; exact H. Qed.

Lemma replaceStr_lit_absent (k v t : jstring) :
  includes t k = false -> replaceStr (lit k) v t = t.
Proof.
  intros H. rewrite replaceStr_unfold. unfold start.
  rewrite <- (app_nil_r t) at 2.
  rewrite (@replaceLoop_lit_scan k [] (byString v) t (S (length t)) [] []).
  - replace (S (length t) - length t) with 1 by lia.
    rewrite replaceLoop_unit, exec_lit.
    rewrite (includes_head [] k (includes_suffix t [] k
               ltac:(rewrite app_nil_r; exact H))).
    cbn [after]. rewrite app_nil_r. reflexivity.
  - intros x y E _. rewrite app_nil_r. apply includes_head.
    apply (includes_suffix x). rewrite <- E. exact H.
  - rewrite app_nil_r. lia.
Qed.

Lemma restoreOne_absent (t k v : jstring) :
  includes t k = false -> restoreOne t (k, v) = t.
Proof.
  intros H. unfold restoreOne. cbn [fst snd].
  replace (regExpOfEscaped (escapeRegExp k)) with (lit k).
  - apply replaceStr_lit_absent. exact H.
  - symmetry. unfold escapeRegExp. rewrite replaceStr_unfold. unfold start.
    rewrite replaceLoop_escape by lia. apply regExpOfEscaped_escaped.
Qed.

(** A text in which no token of the table occurs is returned as it is
    by the restoration step of both variants. *)
Theorem restoreProtectedContent_without_tokens (text : jstring) (m : pmap) :
  forallb (fun e => negb (includes text (fst e))) m = true ->
  Script.restoreProtectedContent text m = text /\
  Structured.restoreProtectedContent text m = text.
Proof.
  intros H. rewrite forallb_forall in H. split.
  - unfold Script.restoreProtectedContent.
    induction m as [|[k v] m IH]; [reflexivity|].
    cbn [fold_left]. rewrite restoreOne_absent.
    + apply IH. intros e He. apply H. simpl. auto.
    + apply negb_true_iff. apply (H (k, v)). simpl. auto.
  - unfold Structured.restoreProtectedContent.
    assert (Hk : forall k, In k (sortLongestFirst (map fst m)) -> includes text k = false).
    { intros k Hk.
      apply (Permutation_in _ (Permutation_sym (proj1 (sortLongestFirst_keys (map fst m))))) in Hk.
      apply in_map_iff in Hk as (e & <- & He). apply negb_true_iff. exact (H e He). }
    induction (sortLongestFirst (map fst m)) as [|k ks IH]; [reflexivity|].
    cbn [fold_left]. destruct (mapGet k m) as [v|].
    + rewrite restoreOne_absent by (apply Hk; simpl; auto).
      apply IH. intros k' Hk'. apply Hk. simpl. auto.
    + apply IH. intros k' Hk'. apply Hk. simpl. auto.
Qed.

Lemma restoreProtectedContent_without_tokens_witness :
  forallb (fun e => negb (includes (js "plain text") (fst e)))
    [(js "__PROTECTED_1__", js "`a`"); (js "__PROTECTED_2__", js "b@c.de")] = true /\
  Script.restoreProtectedContent (js "plain text")
    [(js "__PROTECTED_1__", js "`a`"); (js "__PROTECTED_2__", js "b@c.de")] = js "plain text" /\
  Structured.restoreProtectedContent (js "plain text")
    [(js "__PROTECTED_1__", js "`a`"); (js "__PROTECTED_2__", js "b@c.de")] = js "plain text".
Proof.
  split; [reflexivity|].
  apply (@restoreProtectedContent_without_tokens (js "plain text")
           [(js "__PROTECTED_1__", js "`a`"); (js "__PROTECTED_2__", js "b@c.de")]).
  reflexivity.
Defined.

(** ** The numbering of the tokens *)

Lemma js_inj (s s' : string) : js s = js s' -> s = s'.
Proof.
  unfold js. intros H.
  rewrite <- (string_of_list_ascii_of_string s), <- (string_of_list_ascii_of_string s').
  f_equal. revert H. generalize (list_ascii_of_string s') as l'.
  induction (list_ascii_of_string s) as [|x l IH]; intros [|y l'] H; try discriminate;
    [reflexivity|].
  cbn [map] in H. injection H as Hx Hl. f_equal; [|exact (IH _ Hl)].
  rewrite <- (ascii_N_embedding x), <- (ascii_N_embedding y), Hx. reflexivity.
Qed.

Lemma decimal_inj (n n' : N) : decimal n = decimal n' -> n = n'.
Proof.
  unfold decimal. intros H. apply js_inj in H.
  assert (Hnn : forall k, N.to_uint k <> Decimal.Nil).
  { intros [|q]; [discriminate|]. apply DecimalPos.Unsigned.to_uint_nonnil. }
  pose proof (NilZero.usu (N.to_uint n) (Hnn n)) as H1.
  pose proof (NilZero.usu (N.to_uint n') (Hnn n')) as H2.
  rewrite H in H1. rewrite H1 in H2. injection H2 as H2.
  rewrite <- (DecimalN.Unsigned.of_to n), <- (DecimalN.Unsigned.of_to n'), H2. reflexivity.
Qed.

Lemma tokenNo_inj (i j : nat) : tokenNo i = tokenNo j -> i = j.
Proof.
  unfold tokenNo. intros H. apply tokenOf_inj, decimal_inj in H.
  apply Nat2N.inj. exact H.
Qed.

Lemma mapSet_fresh (k v : jstring) (m : pmap) :
  ~ In k (map fst m) -> mapSet k v m = m ++ [(k, v)].
Proof.
  induction m as [|[k' v'] m IH]; intros H; [reflexivity|].
  cbn [mapSet List.app]. destruct (jeqb k' k) eqn:E.
  - apply jeqb_eq in E. exfalso. apply H. simpl. auto.
  - rewrite IH; [reflexivity|]. intros Hin. apply H. simpl. auto.
Qed.

Lemma protectMatch_numbered (p : prot) (m : jstring) :
  numbered p -> numbered (fst (Script.protectMatch p m)).
Proof.
  intros [H1 Hk]. unfold Script.protectMatch.
  destruct (includes m (js "__PROTECTED_")); [split; assumption|].
  cbn [fst pm nextId].
  set (k := N.to_nat (nextId p) - 1) in *.
  assert (Hn : N.to_nat (nextId p) = S k) by (unfold k; lia).
  assert (Etok : js "__PROTECTED_" ++ decimal (nextId p) ++ js "__" = tokenNo (S k)).
  { unfold tokenNo. rewrite <- Hn, N2Nat.id. reflexivity. }
  rewrite Etok. split; cbn [pm nextId]; [lia|].
  rewrite mapSet_fresh.
  - rewrite map_app, Hk. cbn [map fst].
    replace (N.to_nat (nextId p + 1) - 1) with (S k) by lia.
    rewrite seq_S, map_app. reflexivity.
  - rewrite Hk. intros Hin. apply in_map_iff in Hin as (i & E & Hi).
    apply tokenNo_inj in E. apply in_seq in Hi. lia.
Qed.

Lemma replaceLoop_state (S : Type) (I : S -> Prop) (r : regex)
  (f : S -> jstring -> jstring -> jstring -> S * jstring) :
  (forall s pre m post, I s -> I (fst (f s pre m post))) ->
  forall fuel s st, I s -> I (fst (replaceLoop fuel r f s st)).
Proof.
  intros Hf. induction fuel as [|fuel IH]; intros s st Hs; [exact Hs|].
  cbn [replaceLoop]. destruct (exec r st) as [st'|].
  - specialize (Hf s (rev (before st)) (consumed st st') (after st') Hs).
    destruct (f s (rev (before st)) (consumed st st') (after st')) as [s1 rep].
    cbn [fst] in Hf.
    destruct (consumed st st'); destruct (after st);
      try exact Hf;
      match goal with
      | |- context [replaceLoop fuel r f s1 ?x] =>
          specialize (IH s1 x Hf); destruct (replaceLoop fuel r f s1 x); exact IH
      end.
  - destruct (after st); [exact Hs|].
    specialize (IH s (advance st) Hs). destruct (replaceLoop fuel r f s (advance st)).
    exact IH.
Qed.

Lemma protectContent_numbered (text : jstring) (p : prot) :
  numbered p -> numbered (fst (Script.protectContent text p)).
Proof.
  unfold Script.protectContent. generalize Script.patterns. intros pats.
  change p with (fst (p, text)) at 1. generalize (p, text).
  induction pats as [|r pats IH]; intros acc H; [exact H|].
  cbn [fold_left]. apply IH. unfold replaceWith.
  apply (replaceLoop_state numbered); [|exact H].
  intros s pre m post Hs. apply protectMatch_numbered. exact Hs.
Qed.

Lemma processBatches_numbered (m : string) (batches : list jstring) :
  forall p, numbered p -> numbered (fst (Script.processBatches m batches p)).
Proof.
  induction batches as [|batch batches IH]; intros p H; [exact H|].
  cbn [Script.processBatches]. unfold Script.processBatch at 1.
  pose proof (protectContent_numbered batch H) as H1.
  destruct (Script.protectContent batch p) as [p1 t]. cbn [fst] in H1.
  specialize (IH p1 H1). destruct (Script.processBatches m batches p1) as [p2 outs].
  exact IH.
Qed.

(** After a run of script.js on an input that is not blank, the keys of
    the table are the tokens numbered 1, 2, ... in the order in which they
    were made, without a gap, and the counter is the next number: every
    protected span of every batch has a token of its own and no entry was
    overwritten. *)
Theorem processText_tokens_numbered (a : app) :
  truthy (trim (inputText a)) = true ->
  let a' := Script.processText a in
  (1 <= nextTokenId a')%N /\
  map fst (protectedMap a') = map tokenNo (seq 1 (N.to_nat (nextTokenId a') - 1)).
Proof.
  intros Ht a'. unfold a', Script.processText. rewrite Ht. cbn [negb].
  unfold Script.run.
  assert (H0 : numbered (Prot [] 1)) by (split; [reflexivity|reflexivity]).
  pose proof (processBatches_numbered (mode a)
                (splitIntoBatches (trim (inputText a))) H0) as H.
  destruct (Script.processBatches _ _ _) as [p outs]. cbn [fst] in H.
  unfold verifyContentIntegrity, showWarning, updateOutputStats.
  destruct (negb _ || negb _ || negb _); cbn [nextTokenId protectedMap]; exact H.
Qed.

Lemma processText_tokens_numbered_witness :
  truthy (trim (inputText (page "A" (js "see `x` and a@b.cd")))) = true /\
  let a' := Script.processText (page "A" (js "see `x` and a@b.cd")) in
  (1 <= nextTokenId a')%N /\
  map fst (protectedMap a') = map tokenNo (seq 1 (N.to_nat (nextTokenId a') - 1)).
Proof.
  split; [reflexivity|].
  apply (@processText_tokens_numbered (page "A" (js "see `x` and a@b.cd"))).
  reflexivity.
Defined.

(** ** Mode B of script.js on a text of several paragraphs *)

Lemma processModeA_idem (text : jstring) :
  Script.processModeA (Script.processModeA text) = Script.processModeA text.
Proof.
  rewrite !processModeA_eq.
  set (t1 := mapClass (N.eqb NL) [SP] text).
  destruct (collapsed_trimmed (N.eqb SP) t1 eq_refl) as (_ & _ & _ & Hfix).
  rewrite mapClass_id; [exact Hfix|].
  intros c Hc. apply trim_In in Hc. apply collapse_In in Hc as [Hc|[<-|[]]]; [|reflexivity].
  exact (mapClass_removes (N.eqb NL) text c eq_refl Hc).
Qed.


Lemma blankFrom_noNL (t : jstring) (b : bool) :
  (forall c, In c t -> N.eqb NL c = false) -> blankFrom b t = false.
Proof.
  revert b. induction t as [|c t IH]; intros b H; [reflexivity|].
  cbn [blankFrom]. rewrite (H c) by (simpl; auto).
  destruct (isSpace c); apply IH; intros d Hd; apply H; simpl; auto.
Qed.

Lemma stripSpace_nonblank (b : jstring) : truthy (trim b) = true -> stripSpace b <> [].
Proof.
  intros H. rewrite <- stripSpace_trim. destruct (trim b) as [|c r] eqn:E; [discriminate|].
  destruct (trim_ends _ E) as [Hc _]. unfold stripSpace. cbn [filter]. rewrite Hc. discriminate.
Qed.

Lemma processModeA_isBatch (b : jstring) :
  truthy (trim b) = true -> isBatch (Script.processModeA b) = true.
Proof.
  intros H. rewrite processModeA_eq.
  set (t1 := mapClass (N.eqb NL) [SP] b).
  set (out := trim (collapse (N.eqb SP) [SP] false t1)).
  assert (Hs : stripSpace out = stripSpace b).
  { unfold out. rewrite stripSpace_trim, stripSpace_collapse;
      [|intros c Hc; apply N.eqb_eq in Hc; subst c; reflexivity|reflexivity].
    apply stripSpace_mapClass; [|reflexivity].
    intros c Hc. apply N.eqb_eq in Hc. subst c. reflexivity. }
  assert (Hnl : forall c, In c out -> N.eqb NL c = false).
  { intros c Hc. apply trim_In in Hc. apply collapse_In in Hc as [Hc|[<-|[]]]; [|reflexivity].
    exact (mapClass_removes (N.eqb NL) b c eq_refl Hc). }
  destruct out as [|c r] eqn:Eo.
  - exfalso. apply (stripSpace_nonblank _ H). rewrite <- Hs. reflexivity.
  - destruct (@trim_ends (collapse (N.eqb SP) [SP] false t1) c r Eo) as [H1 H2].
    unfold isBatch. cbn [hd]. rewrite H1, H2. unfold hasBlankLine.
    rewrite blankFrom_noNL by exact Hnl. reflexivity.
Qed.

Lemma join_weave (p : jstring) (ps : list jstring) :
  join [NL; NL] (p :: ps) = weave p (map (fun q => ([NL; NL], q)) ps).
Proof.
  revert p. induction ps as [|q ps IH]; intros p.
  - unfold weave, tailOf. cbn. rewrite app_nil_r. reflexivity.
  - change (join [NL; NL] (p :: q :: ps)) with (p ++ [NL; NL] ++ join [NL; NL] (q :: ps)).
    rewrite IH. unfold weave, tailOf. cbn [map concat fst snd].
    rewrite <- !app_assoc. reflexivity.
Qed.

Lemma splitIntoBatches_join (ps : list jstring) :
  Forall (fun p => isBatch p = true) ps ->
  splitIntoBatches (join [NL; NL] ps) = ps.
Proof.
  intros H. destruct ps as [|p ps]; [reflexivity|].
  rewrite join_weave. rewrite weave_batches.
  - rewrite map_map. cbn [snd]. rewrite map_id. reflexivity.
  - apply Forall_cons_iff in H as [Hp Hps]. split; [exact Hp|].
    apply Forall_forall. intros sb Hsb. apply in_map_iff in Hsb as (q & <- & Hq).
    cbn [fst snd]. split; [reflexivity|].
    rewrite Forall_forall in Hps. exact (Hps q Hq).
Qed.

(** [processModeB] of script.js on any text: the paragraphs of its result
    are the paragraphs of the text, each processed like [processModeA]
    does and joined by one blank line, and a second application changes
    nothing. *)
Theorem processModeB_result (text : jstring) :
  let out := Script.processModeB text in
  out = join [NL; NL] (map Script.processModeA (splitIntoBatches text)) /\
  splitIntoBatches out = map Script.processModeA (splitIntoBatches text) /\
  Script.processModeB out = out.
Proof.
  intros out.
  assert (E : forall t, Script.processModeB t =
                join [NL; NL] (map Script.processModeA (splitIntoBatches t)))
    by reflexivity.
  assert (Hb : Forall (fun p => isBatch p = true)
                 (map Script.processModeA (splitIntoBatches text))).
  { apply Forall_forall. intros p Hp. apply in_map_iff in Hp as (b & <- & Hb).
    apply processModeA_isBatch. unfold splitIntoBatches in Hb.
    apply filter_In in Hb as [_ Hb]. exact Hb. }
  assert (Hs : splitIntoBatches out = map Script.processModeA (splitIntoBatches text)).
  { unfold out. rewrite E. apply splitIntoBatches_join. exact Hb. }
  split; [apply E|]. split; [exact Hs|].
  rewrite (E out), Hs, map_map. unfold out. rewrite E. f_equal.
  apply map_ext. intros b. apply processModeA_idem.
Qed.

(** ** What protection and restoration keep of a text *)

Lemma expand_cons (E : list (jstring * jstring)) (sg : seg) (segs : list seg) :
  expand E (sg :: segs) =
  match sg with Plain s => s | Tok d => lookup d E end ++ expand E segs.
Proof. reflexivity. Qed.

Lemma expand_app (E : list (jstring * jstring)) (a b : list seg) :
  expand E (a ++ b) = expand E a ++ expand E b.
Proof. unfold expand. rewrite map_app, concat_app. reflexivity. Qed.

Lemma expand_noTok (E : list (jstring * jstring)) (segs : list seg) :
  (forall d, ~ In (Tok d) segs) -> expand E segs = flat segs.
Proof.
  induction segs as [|sg segs IH]; intros H; [reflexivity|].
  rewrite expand_cons, flat_cons, IH by (intros d Hd; apply (H d); simpl; auto).
  destruct sg as [s|d]; [reflexivity|]. exfalso. apply (H d). simpl. auto.
Qed.

Lemma jeqb_sym (a b : jstring) : jeqb a b = jeqb b a.
Proof.
  destruct (jeqb a b) eqn:E.
  - apply jeqb_eq in E. subst. symmetry. apply jeqb_refl.
  - destruct (jeqb b a) eqn:E'; [|reflexivity].
    apply jeqb_eq in E'. subst. rewrite jeqb_refl in E. discriminate.
Qed.

Lemma expand_restoreSeg (d o : jstring) (E : list (jstring * jstring)) (segs : list seg) :
  expand E (map (restoreSeg d o) segs) = expand ((d, o) :: E) segs.
Proof.
  induction segs as [|sg segs IH]; [reflexivity|].
  cbn [map]. rewrite !expand_cons, IH. f_equal.
  destruct sg as [s|d']; cbn [restoreSeg lookup]; [reflexivity|].
  rewrite (jeqb_sym d d'). destruct (jeqb d' d); reflexivity.
Qed.

(** Restoration of a tokenized text whose tokens are all in the table
    puts every original in the place of its token. *)
Lemma restore_expand (entries : list (jstring * jstring)) :
  forallb entryOk entries = true ->
  forall segs, forallb segOk segs = true -> allCovered segs entries ->
  Script.restoreProtectedContent (flat segs) (tableOf entries) = expand entries segs.
Proof.
  unfold Script.restoreProtectedContent.
  induction entries as [|[d orig] entries IH]; intros He segs Hok Hc.
  - cbn [tableOf map fold_left]. symmetry. apply expand_noTok.
    intros d Hd. exact (Hc d Hd).
  - cbn [forallb] in He. apply andb_true_iff in He as [Hde He].
    unfold entryOk in Hde. cbn [fst snd] in Hde.
    apply andb_true_iff in Hde as [Hd Hf]. destruct (clean_parts _ Hf) as [_ Ho].
    cbn [tableOf map fold_left fst snd].
    rewrite (restoreOne_segs _ _ _ Hd Ho Hok).
    fold (tableOf entries).
    rewrite (IH He _ (restoreSeg_ok d orig segs Hf Hok)).
    + apply expand_restoreSeg.
    + intros d' Hd'. apply restoreSeg_toks in Hd' as [H1 H2].
      specialize (Hc d' H1). cbn [map fst] in Hc. destruct Hc as [Hc|Hc]; [congruence|exact Hc].
Qed.

Lemma expand_unique (E : list (jstring * jstring)) (a b : list seg) :
  forallb entryOk E = true ->
  forallb segOk a = true -> forallb segOk b = true ->
  allCovered a E -> allCovered b E ->
  flat a = flat b -> expand E a = expand E b.
Proof.
  intros He Ha Hb Hca Hcb H.
  rewrite <- (@restore_expand E He a Ha Hca), <- (@restore_expand E He b Hb Hcb), H.
  reflexivity.
Qed.

Lemma lookup_setEntry (d dn m : jstring) (es : list (jstring * jstring)) :
  lookup d (setEntry dn m es) = if jeqb dn d then m else lookup d es.
Proof.
  induction es as [|[d0 m0] es IH]; [reflexivity|].
  cbn [setEntry]. destruct (jeqb d0 dn) eqn:E0.
  - apply jeqb_eq in E0. subst d0. cbn [lookup]. destruct (jeqb dn d); reflexivity.
  - cbn [lookup]. rewrite IH. destruct (jeqb d0 d) eqn:E1; [|reflexivity].
    apply jeqb_eq in E1. subst d0. rewrite (jeqb_sym dn d), E0. reflexivity.
Qed.

Lemma setEntry_keys_inv (d dn m : jstring) (es : list (jstring * jstring)) :
  In d (map fst (setEntry dn m es)) -> d = dn \/ In d (map fst es).
Proof.
  induction es as [|[d0 m0] es IH]; cbn [setEntry map fst In].
  - intros [H|[]]. auto.
  - destruct (jeqb d0 dn); cbn [map fst In]; intros [H|H]; auto.
    destruct (IH H); auto.
Qed.

Lemma expand_extends (E E' : list (jstring * jstring)) (segs : list seg) :
  (forall d, In d (map fst E) -> lookup d E' = lookup d E) ->
  allCovered segs E -> expand E' segs = expand E segs.
Proof.
  intros Hx. induction segs as [|sg segs IH]; intros Hc; [reflexivity|].
  rewrite !expand_cons, IH by (intros d Hd; apply Hc; simpl; auto). f_equal.
  destruct sg as [s|d]; [reflexivity|]. apply Hx, Hc. simpl. auto.
Qed.

Lemma grows_refl (E : list (jstring * jstring)) : grows E E.
Proof. intros d Hd. auto. Qed.

Lemma grows_trans (E1 E2 E3 : list (jstring * jstring)) :
  grows E1 E2 -> grows E2 E3 -> grows E1 E3.
Proof.
  intros H12 H23 d Hd. destruct (H12 d Hd) as [L1 K1]. destruct (H23 d K1) as [L2 K2].
  split; [congruence|exact K2].
Qed.

Lemma grows_expand (E E' : list (jstring * jstring)) (segs : list seg) :
  grows E E' -> allCovered segs E -> expand E' segs = expand E segs.
Proof. intros H. apply expand_extends. intros d Hd. exact (proj1 (H d Hd)). Qed.

Lemma grows_covered (E E' : list (jstring * jstring)) (segs : list seg) :
  grows E E' -> allCovered segs E -> allCovered segs E'.
Proof. intros H Hc d Hd. exact (proj2 (H d (Hc d Hd))). Qed.

Lemma grows_setEntry (n : N) (m : jstring) (E : list (jstring * jstring)) :
  freshFrom n E -> grows E (setEntry (decimal n) m E).
Proof.
  intros Hf d Hd. split; [|apply setEntry_keys; exact Hd].
  rewrite lookup_setEntry. destruct (jeqb (decimal n) d) eqn:Ej; [|reflexivity].
  apply jeqb_eq in Ej. destruct (Hf d Hd) as (i & Hi & ->).
  apply decimal_inj in Ej. lia.
Qed.

Lemma freshFrom_setEntry (n : N) (m : jstring) (E : list (jstring * jstring)) :
  freshFrom n E -> freshFrom (n + 1) (setEntry (decimal n) m E).
Proof.
  intros Hf d Hd. apply setEntry_keys_inv in Hd as [->|Hd].
  - exists n. split; [lia|reflexivity].
  - destruct (Hf d Hd) as (i & Hi & ->). exists i. split; [lia|reflexivity].
Qed.

Lemma flat_nil_noTok (segs : list seg) : flat segs = [] -> forall d, ~ In (Tok d) segs.
Proof.
  intros H d Hd. apply in_split in Hd as (s1 & s2 & ->).
  rewrite flat_app, flat_cons in H. cbn [segText] in H.
  apply app_eq_nil in H as [_ H]. rewrite tokenOf_eq in H. discriminate.
Qed.

(** One protection rule on a tokenized text: the result is a tokenized
    text again, for the table the rule has extended, with the same
    content. *)
Lemma protect_scan_content (r : regex) :
  goodRe r ->
  forall fuel segs entries p b cs,
  length (flat segs) < fuel ->
  stateOk p entries segs ->
  exists p' segs' entries',
    replaceLoop fuel r protectCb p (MState b (flat segs) cs) = (p', flat segs') /\
    stateOk p' entries' segs' /\ grows entries entries' /\
    expand entries' segs' = expand entries segs.
Proof.
  intros Hg. induction fuel as [fuel IH] using lt_wf_ind.
  intros segs entries p b cs Hf (Hp & Hok & He & Hc & Hfr).
  destruct fuel as [|fuel]; [lia|].
  assert (Hkeep : forall sm sr p' sr' entries',
             flat segs = flat sm ++ flat sr ->
             forallb segOk sm = true -> forallb segOk sr = true ->
             (forall d, In (Tok d) (sm ++ sr) -> In (Tok d) segs) ->
             stateOk p' entries' sr' -> grows entries entries' ->
             expand entries' sr' = expand entries sr ->
             stateOk p' entries' (sm ++ sr') /\ grows entries entries' /\
             expand entries' (sm ++ sr') = expand entries segs).
  { intros sm sr p' sr' entries' Hfl Hsm Hsr Ht (Hp' & Hok' & He' & Hc' & Hfr') Hgr Hex.
    assert (Hcm : allCovered sm entries)
      by (intros d Hd; apply Hc, Ht; apply in_or_app; left; exact Hd).
    assert (Hcr : allCovered sr entries)
      by (intros d Hd; apply Hc, Ht; apply in_or_app; right; exact Hd).
    split; [|split; [exact Hgr|]].
    - split; [exact Hp'|]. split; [apply segOk_app; assumption|]. split; [exact He'|].
      split; [|exact Hfr'].
      intros d Hd. apply in_app_or in Hd as [Hd|Hd]; [|exact (Hc' d Hd)].
      exact (grows_covered Hgr Hcm d Hd).
    - rewrite expand_app, Hex, (@grows_expand _ _ sm Hgr Hcm), <- expand_app.
      apply expand_unique; auto.
      + apply segOk_app; assumption.
      + intros d Hd. apply Hc, Ht, Hd.
      + rewrite flat_app. symmetry. exact Hfl. }
  destruct (exec r (MState b (flat segs) cs)) as [st'|] eqn:E.
  - pose proof (exec_reach _ _ E) as Hr.
    pose proof (reach_consumed Hr) as Hcon.
    pose proof (reach_before Hr) as Hbef.
    pose proof (nonEmpty Hg _ E) as Hne.
    pose proof (consumed_nonempty_length Hr Hne) as Hlen.
    cbn [replaceLoop]. rewrite E.
    cbn [after before] in Hcon, Hbef, Hlen |- *.
    destruct (consumed (MState b (flat segs) cs) st') as [|c0 m0] eqn:Em; [congruence|].
    destruct st' as [b' a' cs']. cbn [after before] in *.
    destruct (split_flat segs Hok (c0 :: m0) a' Hcon)
      as [(sm & sr & Hm & Ha & Hsm & Hsr & Ht)
         |(s1 & d & x & y & s2 & Hs & Hd & Hx & Hy & Hm & Ha)].
    + assert (Hcr : allCovered sr entries)
        by (intros d Hd; apply Hc, Ht; apply in_or_app; right; exact Hd).
      assert (Hfl : flat segs = flat sm ++ flat sr) by (rewrite Hcon, Hm, Ha; reflexivity).
      unfold protectCb at 1. unfold Script.protectMatch.
      change (js "__PROTECTED_") with tokenPrefix.
      destruct (includes (c0 :: m0) tokenPrefix) eqn:Einc.
      * subst a'.
        destruct (IH fuel (Nat.lt_succ_diag_r _) sr entries p b' cs')
          as (p' & sr' & entries' & E' & Hst' & Hgr & Hex);
          [lia|repeat split; assumption|].
        rewrite E'. exists p', (sm ++ sr'), entries'.
        rewrite flat_app, <- Hm. split; [reflexivity|].
        exact (Hkeep sm sr p' sr' entries' Hfl Hsm Hsr Ht Hst' Hgr Hex).
      * assert (Hnt : forall d, ~ In (Tok d) sm).
        { intros d Hd. apply includes_flat_tok in Hd. rewrite <- Hm in Hd. congruence. }
        assert (Hcl : clean (c0 :: m0) = true) by (rewrite Hm; apply flat_clean; assumption).
        set (dn := decimal (nextId p)).
        change (tokenPrefix ++ dn ++ js "__") with (tokenOf dn).
        rewrite Hp, mapSet_tableOf.
        set (E1 := setEntry dn (c0 :: m0) entries).
        assert (Hg1 : grows entries E1) by (apply grows_setEntry; exact Hfr).
        subst a'.
        destruct (IH fuel (Nat.lt_succ_diag_r _) sr E1
                    (Prot (tableOf E1) (nextId p + 1)) b' cs')
          as (p' & sr' & entries' & E' & Hst' & Hgr & Hex); [lia| |].
        { split; [reflexivity|]. split; [exact Hsr|].
          split; [apply setEntry_ok; [apply decimal_digits|exact Hcl|exact He]|].
          split; [exact (grows_covered Hg1 Hcr)|].
          cbn [nextId]. apply freshFrom_setEntry. exact Hfr. }
        rewrite E'. exists p', (Tok dn :: sr'), entries'.
        rewrite flat_cons. cbn [segText]. split; [reflexivity|].
        destruct Hst' as (Hp' & Hok' & He' & Hc' & Hfr').
        assert (Hdn : In dn (map fst E1)) by exact (proj1 (setEntry_keys dn (c0 :: m0) entries)).
        split; [|split; [exact (grows_trans Hg1 Hgr)|]].
        -- split; [exact Hp'|]. split.
           { cbn [forallb segOk]. unfold dn. rewrite decimal_digits, Hok'. reflexivity. }
           split; [exact He'|]. split; [|exact Hfr'].
           intros d [Hd|Hd]; [injection Hd as <-; exact (proj2 (Hgr dn Hdn))|exact (Hc' d Hd)].
        -- rewrite expand_cons, Hex, (proj1 (Hgr dn Hdn)).
           unfold E1 at 1. rewrite lookup_setEntry, jeqb_refl.
           rewrite (@grows_expand _ _ sr Hg1 Hcr), Hm.
           rewrite <- (@expand_noTok entries sm Hnt), <- expand_app.
           apply expand_unique; auto.
           ++ apply segOk_app; assumption.
           ++ intros d Hd. apply Hc, Ht, Hd.
           ++ rewrite flat_app. symmetry. exact Hfl.
    + exfalso. apply (noEnd Hg _ E).
      exists d, x, y, (rev (flat s1) ++ b), (flat s2). cbn [before after].
      repeat split; auto.
      * apply (segOk_tok _ _ Hok). rewrite Hs. apply in_or_app. right. simpl. auto.
      * rewrite Hbef, Hm, rev_app_distr, <- app_assoc. reflexivity.
  - destruct (flat segs) as [|c a'] eqn:Ef.
    + cbn [replaceLoop]. rewrite E. cbn [after].
      exists p, [], entries. split; [reflexivity|]. split; [|split; [apply grows_refl|]].
      * split; [exact Hp|]. split; [reflexivity|]. split; [exact He|].
        split; [intros d []|exact Hfr].
      * symmetry. rewrite expand_noTok by (apply flat_nil_noTok; exact Ef). exact Ef.
    + destruct (split_flat segs Hok [c] a' Ef)
        as [(sm & sr & Hm & Ha & Hsm & Hsr & Ht)
           |(s1 & d & x & y & s2 & Hs & Hd & Hx & Hy & Hm & Ha)].
      * cbn [replaceLoop]. rewrite E. cbn [after].
        unfold advance. cbn [after before caps]. subst a'.
        assert (Hcr : allCovered sr entries)
          by (intros d Hd; apply Hc, Ht; apply in_or_app; right; exact Hd).
        destruct (IH fuel (Nat.lt_succ_diag_r _) sr entries p (c :: b) cs)
          as (p' & sr' & entries' & E' & Hst' & Hgr & Hex);
          [simpl in Hf; lia|repeat split; assumption|].
        rewrite E'. exists p', (sm ++ sr'), entries'.
        rewrite flat_app, <- Hm. split; [reflexivity|].
        apply (Hkeep sm sr p' sr' entries'); auto.
        rewrite <- Hm. reflexivity.
      * assert (Hin : In (Tok d) segs) by (rewrite Hs; apply in_or_app; right; simpl; auto).
        pose proof (segOk_tok _ _ Hok Hin) as Hdd.
        assert (Hx1 : flat s1 = [] /\ x = [c]).
        { destruct (flat s1) as [|c1 l1].
          - cbn [List.app] in Hm. subst x. auto.
          - cbn [List.app] in Hm. injection Hm as _ Hm.
            destruct l1; destruct x; try discriminate; congruence. }
        destruct Hx1 as [Hs1 ->]. subst a'.
        assert (Etok : c :: y ++ flat s2 = tokenOf d ++ flat s2) by (rewrite Hd; reflexivity).
        rewrite Etok in E, Hf |- *.
        assert (Hok2 : forallb segOk s2 = true).
        { rewrite Hs, forallb_app in Hok. apply andb_true_iff in Hok as [_ Hok].
          cbn [forallb] in Hok. apply andb_true_iff in Hok as [_ Hok]. exact Hok. }
        assert (Hc2 : allCovered s2 entries).
        { intros d' Hd'. apply Hc. rewrite Hs. apply in_or_app. right. simpl. auto. }
        assert (Hl : length (tokenOf d) + length (flat s2) < S fuel).
        { rewrite <- length_app. exact Hf. }
        assert (Hpos : 0 < length (tokenOf d)) by (rewrite tokenOf_eq; simpl; lia).
        assert (Hfail : forall x1 y1, tokenOf d = x1 ++ y1 -> y1 <> [] ->
                  exec r (MState (rev x1 ++ b) (y1 ++ flat s2) cs) = None).
        { intros x1 y1 E1 Hy1. destruct x1 as [|c1 x1].
          - cbn [rev List.app] in *. subst y1. exact E.
          - apply (noStart Hg). exists d, (c1 :: x1), y1, b, (flat s2).
            cbn [before after]. repeat split; auto. discriminate. }
        rewrite (@replaceLoop_skip prot r protectCb (flat s2) (tokenOf d) (S fuel) p b cs Hfail Hf).
        destruct (IH (S fuel - length (tokenOf d)) ltac:(lia) s2 entries p
                    (rev (tokenOf d) ++ b) cs)
          as (p' & s2' & entries' & E' & Hst' & Hgr & Hex);
          [lia|repeat split; assumption|].
        rewrite E'. cbn [fst snd].
        exists p', (Tok d :: s2'), entries'. split; [reflexivity|].
        destruct Hst' as (Hp' & Hok' & He' & Hc' & Hfr').
        split; [|split; [exact Hgr|]].
        -- split; [exact Hp'|]. split.
           { cbn [forallb segOk]. rewrite Hdd, Hok'. reflexivity. }
           split; [exact He'|]. split; [|exact Hfr'].
           intros d' [Hd'|Hd'];
             [injection Hd' as <-; exact (proj2 (Hgr d (Hc d Hin)))|exact (Hc' d' Hd')].
        -- rewrite expand_cons, Hex, (proj1 (Hgr d (Hc d Hin))).
           rewrite Hs, expand_app, expand_cons.
           rewrite (@expand_noTok entries s1 (@flat_nil_noTok s1 Hs1)), Hs1. reflexivity.
Qed.

Lemma protect_fold_content (pats : list regex) :
  Forall goodRe pats ->
  forall segs entries p,
  stateOk p entries segs ->
  exists p' segs' entries',
    fold_left
      (fun (acc : prot * jstring) pattern =>
         replaceWith pattern (fun q _ m _ => Script.protectMatch q m) (fst acc) (snd acc))
      pats (p, flat segs) = (p', flat segs') /\
    stateOk p' entries' segs' /\ grows entries entries' /\
    expand entries' segs' = expand entries segs.
Proof.
  induction 1 as [|r pats Hr _ IH]; intros segs entries p Hst.
  - exists p, segs, entries. split; [reflexivity|]. split; [exact Hst|].
    split; [apply grows_refl|reflexivity].
  - cbn [fold_left fst snd]. unfold replaceWith at 2. unfold start.
    destruct (@protect_scan_content r Hr (S (length (flat segs))) segs entries p [] []
                (Nat.lt_succ_diag_r _) Hst)
      as (p1 & segs1 & entries1 & E & Hst1 & Hg1 & Hx1).
    change (fun q (_ : jstring) m (_ : jstring) => Script.protectMatch q m) with protectCb.
    rewrite E.
    destruct (IH segs1 entries1 p1 Hst1) as (p2 & segs2 & entries2 & E2 & Hst2 & Hg2 & Hx2).
    exists p2, segs2, entries2. split; [exact E2|]. split; [exact Hst2|].
    split; [exact (grows_trans Hg1 Hg2)|congruence].
Qed.

Lemma patterns_good : Forall goodRe Script.patterns.
Proof.
  unfold Script.patterns.
  apply Forall_cons; [apply urlRe_good|].
  apply Forall_cons; [apply emailRe_good|].
  apply Forall_cons; [apply inlineCodeRe_good|].
  apply Forall_cons; [apply filePathRe_good|apply Forall_nil].
Qed.

Lemma blank_noTok (segs : list seg) :
  forallb isSpace (flat segs) = true -> forall d, ~ In (Tok d) segs.
Proof.
  intros H d Hd. apply includes_flat_tok in Hd.
  rewrite tokenPrefix_eq in Hd. apply includes_cons_In in Hd.
  rewrite forallb_forall in H. specialize (H _ Hd). discriminate.
Qed.

(** The whitespace steps on a tokenized text, with what they keep. *)
Lemma mapClass_flat_content (p : char -> bool) (rep : jstring) (segs : list seg) :
  forallb (fun c => negb (p c)) tokChars = true -> clean rep = true ->
  (forall c, p c = true -> isSpace c = true) -> forallb isSpace rep = true ->
  forallb segOk segs = true ->
  exists segs', mapClass p rep (flat segs) = flat segs' /\ forallb segOk segs' = true /\
    (forall d, In (Tok d) segs' -> In (Tok d) segs) /\
    forall E, stripSpace (expand E segs') = stripSpace (expand E segs).
Proof.
  intros Hp Hrep Hsp Hrs. induction segs as [|sg segs IH]; intros Hok.
  - exists []. repeat split; auto.
  - cbn [forallb] in Hok. apply andb_true_iff in Hok as [Hsg Hok].
    destruct (IH Hok) as (segs' & E & Hok' & Ht & Hx).
    rewrite flat_cons, mapClass_app, E. destruct sg as [s|d]; cbn [segText segOk] in *.
    + exists (Plain (mapClass p rep s) :: segs'). rewrite flat_cons. cbn [segText].
      repeat split.
      * cbn [forallb segOk]. rewrite Hok', andb_true_r. apply clean_In.
        intros c Hc. apply mapClass_In in Hc as [Hc|Hc];
          [exact (proj1 (clean_In _) Hsg c Hc)|exact (proj1 (clean_In _) Hrep c Hc)].
      * intros d [Hd|Hd]; [discriminate|]. right. apply Ht, Hd.
      * intros E0. rewrite !expand_cons, !stripSpace_app, Hx.
        rewrite (stripSpace_mapClass p rep s Hsp Hrs). reflexivity.
    + exists (Tok d :: segs'). rewrite flat_cons. cbn [segText].
      rewrite mapClass_id by (intros c Hc; exact (@token_not_class p d c Hp Hsg Hc)).
      repeat split.
      * cbn [forallb segOk]. rewrite Hsg, Hok'. reflexivity.
      * intros d' [Hd|Hd]; [left; exact Hd|right; apply Ht, Hd].
      * intros E0. rewrite !expand_cons, !stripSpace_app, Hx. reflexivity.
Qed.

Lemma collapse_flat_content (p : char -> bool) (rep : jstring) (segs : list seg) :
  forallb (fun c => negb (p c)) tokChars = true -> clean rep = true ->
  (forall c, p c = true -> isSpace c = true) -> forallb isSpace rep = true ->
  forallb segOk segs = true ->
  forall b, exists segs',
    collapse p rep b (flat segs) = flat segs' /\ forallb segOk segs' = true /\
    (forall d, In (Tok d) segs' -> In (Tok d) segs) /\
    forall E, stripSpace (expand E segs') = stripSpace (expand E segs).
Proof.
  intros Hp Hrep Hsp Hrs. induction segs as [|sg segs IH]; intros Hok b.
  - exists []. repeat split; auto.
  - cbn [forallb] in Hok. apply andb_true_iff in Hok as [Hsg Hok].
    rewrite flat_cons. destruct sg as [s|d]; cbn [segText segOk] in *.
    + destruct (collapse_app p rep s (flat segs) b) as (b' & E). rewrite E.
      destruct (IH Hok b') as (segs' & E' & Hok' & Ht & Hx). rewrite E'.
      exists (Plain (collapse p rep b s) :: segs'). rewrite flat_cons. cbn [segText].
      repeat split.
      * cbn [forallb segOk]. rewrite Hok', andb_true_r. apply clean_In.
        intros c Hc. apply collapse_In in Hc as [Hc|Hc];
          [exact (proj1 (clean_In _) Hsg c Hc)|exact (proj1 (clean_In _) Hrep c Hc)].
      * intros d [Hd|Hd]; [discriminate|]. right. apply Ht, Hd.
      * intros E0. rewrite !expand_cons, !stripSpace_app, Hx.
        rewrite (stripSpace_collapse p rep s b Hsp Hrs). reflexivity.
    + rewrite collapse_keep;
        [|intros c Hc; exact (@token_not_class p d c Hp Hsg Hc)
         |rewrite tokenOf_eq; discriminate].
      destruct (IH Hok false) as (segs' & E' & Hok' & Ht & Hx). rewrite E'.
      exists (Tok d :: segs'). rewrite flat_cons. cbn [segText].
      repeat split.
      * cbn [forallb segOk]. rewrite Hsg, Hok'. reflexivity.
      * intros d' [Hd|Hd]; [left; exact Hd|right; apply Ht, Hd].
      * intros E0. rewrite !expand_cons, !stripSpace_app, Hx. reflexivity.
Qed.

Lemma trim_flat_content (segs : list seg) :
  forallb segOk segs = true ->
  exists segs', trim (flat segs) = flat segs' /\ forallb segOk segs' = true /\
    (forall d, In (Tok d) segs' -> In (Tok d) segs) /\
    forall E, forallb entryOk E = true -> allCovered segs E ->
      stripSpace (expand E segs') = stripSpace (expand E segs).
Proof.
  intros Hok. unfold trim.
  destruct (trimStart_split (flat segs)) as (ws & E & Hws).
  destruct (@flat_cut segs _ _ Hok E (or_introl Hws))
    as (sm & sr & Hx & Hy & Hsm & Hsr & Ht).
  rewrite Hy.
  destruct (trimEnd_split (flat sr)) as (ws' & E' & Hws').
  destruct (@flat_cut sr _ _ Hsr E' (or_intror Hws'))
    as (sm' & sr' & Hx' & Hy' & Hsm' & Hsr' & Ht').
  exists sm'. split; [exact Hx'|]. split; [exact Hsm'|].
  assert (Htok : forall d, In (Tok d) sm' -> In (Tok d) segs).
  { intros d Hd. apply Ht. apply in_or_app. right.
    apply Ht'. apply in_or_app. left. exact Hd. }
  split; [exact Htok|].
  intros E0 He Hc.
  assert (Hcr : allCovered sr E0)
    by (intros d Hd; apply Hc, Ht; apply in_or_app; right; exact Hd).
  assert (H1 : expand E0 (sm ++ sr) = expand E0 segs).
  { apply expand_unique; auto.
    - apply segOk_app; assumption.
    - intros d Hd. apply Hc, Ht, Hd.
    - rewrite flat_app, <- Hx, <- Hy. symmetry. exact E. }
  assert (H2 : expand E0 (sm' ++ sr') = expand E0 sr).
  { apply expand_unique; auto.
    - apply segOk_app; assumption.
    - intros d Hd. apply Hcr, Ht', Hd.
    - rewrite flat_app, <- Hx', <- Hy'. symmetry. exact E'. }
  rewrite <- H1, expand_app, stripSpace_app, <- H2, expand_app, stripSpace_app.
  rewrite (@expand_noTok E0 sm) by (apply blank_noTok; rewrite <- Hx; exact Hws).
  rewrite (@expand_noTok E0 sr') by (apply blank_noTok; rewrite <- Hy'; exact Hws').
  rewrite <- Hx, <- Hy', (stripSpace_blank _ Hws), (stripSpace_blank _ Hws'), app_nil_r.
  reflexivity.
Qed.

Lemma space_isSpace (c : char) : N.eqb SP c = true -> isSpace c = true.
Proof. intros H. apply N.eqb_eq in H. subst c. reflexivity. Qed.

Lemma nl_isSpace (c : char) : N.eqb NL c = true -> isSpace c = true.
Proof. intros H. apply N.eqb_eq in H. subst c. reflexivity. Qed.

Lemma unicodeSpace_isSpace (c : char) : unicodeSpace c = true -> isSpace c = true.
Proof. intros H. exact (proj1 (unicodeSpace_white c H)). Qed.

Lemma normalizeWhitespace_flat_content (segs : list seg) :
  forallb segOk segs = true ->
  exists segs', Script.normalizeWhitespace (flat segs) = flat segs' /\
    forallb segOk segs' = true /\
    (forall d, In (Tok d) segs' -> In (Tok d) segs) /\
    forall E, stripSpace (expand E segs') = stripSpace (expand E segs).
Proof.
  intros Hok. rewrite normalizeWhitespace_eq.
  destruct (@mapClass_flat_content unicodeSpace [SP] segs eq_refl eq_refl
              unicodeSpace_isSpace eq_refl Hok) as (s1 & E1 & Hok1 & Ht1 & Hx1).
  rewrite E1.
  destruct (@collapse_flat_content (N.eqb SP) [SP] s1 eq_refl eq_refl
              space_isSpace eq_refl Hok1 false) as (s2 & E2 & Hok2 & Ht2 & Hx2).
  rewrite E2. exists s2. repeat split; auto.
  intros E. rewrite Hx2. apply Hx1.
Qed.

Lemma applyMode_flat_content (m : string) (segs : list seg) :
  forallb segOk segs = true -> hasBlankLine (flat segs) = false ->
  exists segs', Script.applyMode m (flat segs) = flat segs' /\
    forallb segOk segs' = true /\
    (forall d, In (Tok d) segs' -> In (Tok d) segs) /\
    forall E, forallb entryOk E = true -> allCovered segs E ->
      stripSpace (expand E segs') = stripSpace (expand E segs).
Proof.
  intros Hok Hb.
  assert (HA : exists segs', Script.processModeA (flat segs) = flat segs' /\
            forallb segOk segs' = true /\
            (forall d, In (Tok d) segs' -> In (Tok d) segs) /\
            forall E, forallb entryOk E = true -> allCovered segs E ->
              stripSpace (expand E segs') = stripSpace (expand E segs)).
  { rewrite processModeA_eq.
    destruct (@mapClass_flat_content (N.eqb NL) [SP] segs eq_refl eq_refl
                nl_isSpace eq_refl Hok) as (s1 & E1 & Hok1 & Ht1 & Hx1).
    rewrite E1.
    destruct (@collapse_flat_content (N.eqb SP) [SP] s1 eq_refl eq_refl
                space_isSpace eq_refl Hok1 false) as (s2 & E2 & Hok2 & Ht2 & Hx2).
    rewrite E2.
    destruct (trim_flat_content s2 Hok2) as (s3 & E3 & Hok3 & Ht3 & Hx3).
    rewrite E3. exists s3. repeat split; auto.
    intros E He Hc. rewrite Hx3; [rewrite Hx2; apply Hx1|exact He|].
    intros d Hd. apply Hc, Ht1, Ht2, Hd. }
  unfold Script.applyMode.
  destruct (String.eqb m "A"); [exact HA|].
  destruct (String.eqb m "B"); [rewrite (processModeB_noBlank _ Hb); exact HA|].
  destruct (String.eqb m "C").
  - unfold Script.processModeC, wsRe, chr.
    rewrite (replaceStr_Chr (N.eqb NL) [] (flat segs)) by reflexivity.
    rewrite (replaceStr_plus_class isSpace) by reflexivity.
    destruct (@mapClass_flat_content (N.eqb NL) [] segs eq_refl eq_refl
                nl_isSpace eq_refl Hok) as (s1 & E1 & Hok1 & Ht1 & Hx1).
    rewrite E1.
    destruct (@collapse_flat_content isSpace [SP] s1 eq_refl eq_refl
                (fun c H => H) eq_refl Hok1 false) as (s2 & E2 & Hok2 & Ht2 & Hx2).
    rewrite E2.
    destruct (trim_flat_content s2 Hok2) as (s3 & E3 & Hok3 & Ht3 & Hx3).
    rewrite E3. exists s3. repeat split; auto.
    intros E He Hc. rewrite Hx3; [rewrite Hx2; apply Hx1|exact He|].
    intros d Hd. apply Hc, Ht1, Ht2, Hd.
  - exists segs. repeat split; auto.
Qed.

Lemma stripSpace_finalCleanup (t : jstring) :
  stripSpace (Script.finalCleanup t) = stripSpace t.
Proof.
  rewrite finalCleanup_eq, stripSpace_trim.
  apply stripSpace_collapse; [exact space_isSpace|reflexivity].
Qed.

(** A batch without underscore and dollar sign comes out with the code
    units it had, white space apart; the table stays one of clean
    originals with numbers below the counter. *)
Lemma processBatch_content (m : string) (batch : jstring) (p : prot)
  (entries : list (jstring * jstring)) :
  pm p = tableOf entries -> forallb entryOk entries = true ->
  freshFrom (nextId p) entries ->
  clean batch = true -> hasBlankLine batch = false ->
  exists entries',
    pm (fst (Script.processBatch m batch p)) = tableOf entries' /\
    forallb entryOk entries' = true /\
    freshFrom (nextId (fst (Script.processBatch m batch p))) entries' /\
    stripSpace (snd (Script.processBatch m batch p)) = stripSpace batch.
Proof.
  intros Hp He Hfr Hcl Hb. unfold Script.processBatch.
  pose proof (protectContent_noBlank batch p Hb) as Hb1.
  assert (Hst0 : stateOk p entries [Plain batch]).
  { split; [exact Hp|]. split; [cbn [forallb segOk]; rewrite Hcl; reflexivity|].
    split; [exact He|]. split; [|exact Hfr]. intros d [Hd|[]]. discriminate. }
  destruct (@protect_fold_content Script.patterns patterns_good [Plain batch] entries p Hst0)
    as (p1 & s1 & e1 & E1 & (Hp1 & Hok1 & He1 & Hc1 & Hfr1) & Hg1 & Hx1).
  rewrite flat_plain in E1. fold (Script.protectContent batch p) in E1.
  rewrite E1 in Hb1 |- *. cbn [fst snd] in *.
  apply normalizeWhitespace_noBlank in Hb1.
  destruct (normalizeWhitespace_flat_content s1 Hok1) as (s2 & E2 & Hok2 & Ht2 & Hx2).
  rewrite E2 in Hb1 |- *.
  destruct (applyMode_flat_content m s2 Hok2 Hb1) as (s3 & E3 & Hok3 & Ht3 & Hx3).
  rewrite E3, Hp1. exists e1. split; [reflexivity|]. split; [exact He1|].
  split; [exact Hfr1|].
  assert (Hc2 : allCovered s2 e1) by (intros d Hd; apply Hc1, Ht2, Hd).
  assert (Hc3 : allCovered s3 e1) by (intros d Hd; apply Hc2, Ht3, Hd).
  rewrite stripSpace_finalCleanup, (@restore_expand e1 He1 s3 Hok3 Hc3).
  rewrite (Hx3 e1 He1 Hc2), Hx2, Hx1. unfold expand. cbn [map concat].
  rewrite app_nil_r. reflexivity.
Qed.

Lemma processBatches_content (m : string) (batches : list jstring) :
  Forall (fun batch => clean batch = true /\ hasBlankLine batch = false) batches ->
  forall p entries,
  pm p = tableOf entries -> forallb entryOk entries = true ->
  freshFrom (nextId p) entries ->
  concat (map stripSpace (snd (Script.processBatches m batches p))) =
  concat (map stripSpace batches).
Proof.
  induction 1 as [|batch batches [Hcl Hb] _ IH]; intros p entries Hp He Hfr; [reflexivity|].
  cbn [Script.processBatches].
  destruct (@processBatch_content m batch p entries Hp He Hfr Hcl Hb)
    as (e1 & Hp1 & He1 & Hfr1 & Hout).
  destruct (Script.processBatch m batch p) as [p1 out]. cbn [fst snd] in *.
  specialize (IH p1 e1 Hp1 He1 Hfr1).
  destruct (Script.processBatches m batches p1) as [p2 outs]. cbn [snd map concat] in *.
  rewrite Hout, IH. reflexivity.
Qed.

Lemma stripSpace_join (l : list jstring) :
  stripSpace (join [NL; NL] l) = concat (map stripSpace l).
Proof.
  induction l as [|x l IH]; [reflexivity|].
  destruct l as [|y l'].
  - cbn [join map concat]. rewrite app_nil_r. reflexivity.
  - change (join [NL; NL] (x :: y :: l')) with (x ++ [NL; NL] ++ join [NL; NL] (y :: l')).
    rewrite !stripSpace_app, IH. reflexivity.
Qed.

Lemma splitLoop_content (fuel : nat) :
  forall piece b a cs, length a < fuel ->
  concat (map stripSpace (splitLoop fuel blankLineRe piece (MState b a cs))) =
  stripSpace (rev piece ++ a).
Proof.
  induction fuel as [fuel IH] using lt_wf_ind. intros piece b a cs Hf.
  destruct fuel as [|fuel]; [lia|].
  destruct a as [|c rest].
  - cbn [splitLoop after map concat]. rewrite !app_nil_r. reflexivity.
  - destruct (blankAt (c :: rest)) as [[w r]|] eqn:E.
    + rewrite (@splitLoop_match fuel piece b (c :: rest) w r cs E). cbn [map concat].
      destruct (blankAt_spec _ E) as (Ea & Hw & _).
      rewrite (IH fuel (Nat.lt_succ_diag_r _)).
      * rewrite Ea. cbn [rev List.app].
        change (NL :: w ++ r) with ((NL :: w) ++ r).
        rewrite !stripSpace_app.
        rewrite (stripSpace_blank (NL :: w)) by (cbn [forallb]; rewrite Hw; reflexivity).
        reflexivity.
      * apply (f_equal (@length _)) in Ea. cbn [length] in Ea. rewrite length_app in Ea.
        unfold char, jstring in *. simpl in Hf. lia.
    + rewrite splitLoop_nomatch by exact E.
      rewrite (IH fuel (Nat.lt_succ_diag_r _)) by (simpl in Hf; lia).
      cbn [rev]. rewrite <- app_assoc. reflexivity.
Qed.

Lemma splitIntoBatches_content (text : jstring) :
  concat (map stripSpace (splitIntoBatches text)) = stripSpace text.
Proof.
  unfold splitIntoBatches.
  assert (Hf : forall l, concat (map stripSpace (filter (fun b => truthy (trim b)) l)) =
                         concat (map stripSpace l)).
  { induction l as [|x l IHl]; [reflexivity|].
    cbn [filter map concat]. destruct (truthy (trim x)) eqn:Ex.
    - cbn [map concat]. rewrite IHl. reflexivity.
    - rewrite IHl. rewrite (stripSpace_blank x); [reflexivity|].
      apply trim_nil. destruct (trim x); [reflexivity|discriminate]. }
  rewrite Hf. destruct text as [|c t]; [reflexivity|].
  rewrite splitRe_nonempty by discriminate. unfold start.
  rewrite splitLoop_content by (unfold char, jstring in *; simpl; lia). reflexivity.
Qed.

Lemma scriptOutput_content (m : string) (input : jstring) :
  clean input = true -> stripSpace (scriptOutput m input) = stripSpace input.
Proof.
  intros Hcl. unfold scriptOutput.
  destruct (truthy (trim input)) eqn:Ht.
  - rewrite script_output by exact Ht. cbn [page inputText mode].
    rewrite stripSpace_join.
    rewrite (@processBatches_content m (splitIntoBatches (trim input))) with (entries := []).
    + rewrite splitIntoBatches_content. apply stripSpace_trim.
    + apply Forall_forall. intros batch Hb. split.
      * apply clean_In. intros c Hc. apply (proj1 (clean_In _) Hcl).
        apply trim_In. exact (splitIntoBatches_In _ _ _ Hb Hc).
      * exact (splitIntoBatches_noBlank _ _ Hb).
    + reflexivity.
    + reflexivity.
    + intros d [].
  - unfold Script.processText. cbn [page inputText]. rewrite Ht. cbn [negb outputText].
    symmetry. apply stripSpace_blank. apply trim_nil.
    destruct (trim input); [reflexivity|discriminate].
Qed.

(** For an input without underscore and dollar sign, script.js changes
    white space only, in every mode: the output has the code units of the
    input that are not white space, in their order, protected spans
    included.  So after the run the character indicator and the content
    indicator show a match. *)
Theorem script_keeps_content (m : string) (input : jstring) :
  clean input = true ->
  stripSpace (scriptOutput m input) = stripSpace input /\
  isMatch (charMatch (Script.processText (page m input))) = true /\
  isMatch (contentMatch (Script.processText (page m input))) = true.
Proof.
  intros Hcl. pose proof (scriptOutput_content m input Hcl) as Hs.
  split; [exact Hs|].
  unfold scriptOutput in Hs. unfold Script.processText in *.
  cbn [page inputText mode] in *.
  destruct (truthy (trim input)); cbn [negb] in *; [|split; reflexivity].
  destruct (Script.run m (trim input)) as [p output].
  rewrite outputText_verifyContentIntegrity, outputText_updateOutputStats in Hs.
  cbn [outputText] in Hs.
  assert (E : stripSpace (trim input) = stripSpace output)
    by (rewrite stripSpace_trim; symmetry; exact Hs).
  assert (Hc : charsAgree (trim input) output = true).
  { unfold charsAgree. rewrite !nonSpace_stripSpace, E. apply Nat.eqb_refl. }
  assert (Hv : contentVerified (trim input) output = true).
  { unfold contentVerified. rewrite Hc, !nonSpace_stripSpace, E. apply allIn_refl. }
  unfold verifyContentIntegrity. rewrite Hc, Hv.
  destruct (wordsAgree (trim input) output);
    cbn [negb orb showWarning charMatch contentMatch updateVerificationIndicator isMatch];
    split; reflexivity.
Qed.

Lemma script_keeps_content_witness :
  clean (js "Mail a@b.org,  see https://example.com/p?q=1 or `x  y`") = true /\
  stripSpace (scriptOutput "C" (js "Mail a@b.org,  see https://example.com/p?q=1 or `x  y`"))
    = stripSpace (js "Mail a@b.org,  see https://example.com/p?q=1 or `x  y`") /\
  isMatch (charMatch (Script.processText
     (page "C" (js "Mail a@b.org,  see https://example.com/p?q=1 or `x  y`")))) = true /\
  isMatch (contentMatch (Script.processText
     (page "C" (js "Mail a@b.org,  see https://example.com/p?q=1 or `x  y`")))) = true.
Proof.
  split; [reflexivity|].
  apply (@script_keeps_content "C"
           (js "Mail a@b.org,  see https://example.com/p?q=1 or `x  y`")).
  reflexivity.
Defined.

(** ** The tokens of the structure-preserving variant *)

Lemma structuredKey_inj (k1 k2 : jstring) (i j : nat) :
  In k1 structuredKinds -> In k2 structuredKinds ->
  structuredKey k1 i = structuredKey k2 j -> i = j.
Proof.
  unfold structuredKinds, structuredKey. intros H1 H2 E.
  assert (Hsame : forall k, k ++ decimal (N.of_nat i) ++ js "__" =
                            k ++ decimal (N.of_nat j) ++ js "__" -> i = j).
  { intros k Hk. apply app_inv_head, app_inv_tail, decimal_inj in Hk.
    apply Nat2N.inj. exact Hk. }
  cbn [In] in H1, H2.
  destruct H1 as [<-|[<-|[<-|[]]]]; destruct H2 as [<-|[<-|[<-|[]]]];
    try (exact (Hsame _ E)); exfalso; vm_compute in E; discriminate.
Qed.

Lemma numberedKeys_fresh (keys : list jstring) (next : N) (kind : jstring) :
  In kind structuredKinds -> numberedKeys keys next ->
  ~ In (kind ++ decimal next ++ js "__") keys /\
  numberedKeys (keys ++ [kind ++ decimal next ++ js "__"]) (next + 1).
Proof.
  intros Hk (H1 & Hl & Hn).
  assert (Ekey : kind ++ decimal next ++ js "__" = structuredKey kind (S (length keys))).
  { unfold structuredKey. replace (N.of_nat (S (length keys))) with next by lia.
    reflexivity. }
  split.
  - intros Hin. apply In_nth_error in Hin as (i & Hi).
    assert (Hlt : i < length keys) by (apply nth_error_Some; intros Hnone; unfold jstring, char in *; congruence).
    destruct (Hn i _ Hi) as (kind' & Hk' & E). rewrite Ekey in E.
    apply (structuredKey_inj _ _ Hk Hk') in E. lia.
  - split; [lia|]. split; [rewrite length_app; simpl; lia|].
    intros i k Hi. destruct (Nat.lt_ge_cases i (length keys)) as [Hlt|Hge].
    + rewrite nth_error_app1 in Hi by exact Hlt. exact (Hn i k Hi).
    + rewrite nth_error_app2 in Hi by exact Hge.
      destruct (i - length keys) as [|n] eqn:En; cbn [nth_error] in Hi.
      * injection Hi as <-. exists kind. split; [exact Hk|].
        rewrite Ekey. f_equal. lia.
      * destruct n; discriminate.
Qed.

Lemma numberedKeys_set (p : prot) (kind m : jstring) :
  In kind structuredKinds -> numberedKeys (map fst (pm p)) (nextId p) ->
  numberedKeys
    (map fst (mapSet (kind ++ decimal (nextId p) ++ js "__") m (pm p))) (nextId p + 1).
Proof.
  intros Hk H. destruct (numberedKeys_fresh Hk H) as [Hf Hn].
  rewrite mapSet_fresh by exact Hf. rewrite map_app. exact Hn.
Qed.

Lemma protectBlock_numberedKeys (kind : jstring) (p : prot) (m : jstring) :
  In kind structuredKinds ->
  numberedKeys (map fst (pm p)) (nextId p) ->
  numberedKeys (map fst (pm (fst (Structured.protectBlock kind p m))))
               (nextId (fst (Structured.protectBlock kind p m))).
Proof. intros Hk H. unfold Structured.protectBlock. cbn [fst pm nextId]. apply numberedKeys_set; assumption. Qed.

Lemma structured_protectMatch_numberedKeys (p : prot) (m : jstring) :
  numberedKeys (map fst (pm p)) (nextId p) ->
  numberedKeys (map fst (pm (fst (Structured.protectMatch p m))))
               (nextId (fst (Structured.protectMatch p m))).
Proof.
  intros H. unfold Structured.protectMatch.
  destruct (_ || _ || _ || _); [exact H|].
  cbn [fst pm nextId]. apply numberedKeys_set; [|exact H].
  unfold structuredKinds. simpl. auto.
Qed.

Lemma protectStructureAndContent_numberedKeys (text : jstring) (p : prot) :
  numberedKeys (map fst (pm p)) (nextId p) ->
  numberedKeys (map fst (pm (fst (Structured.protectStructureAndContent text p))))
               (nextId (fst (Structured.protectStructureAndContent text p))).
Proof.
  intros H. unfold Structured.protectStructureAndContent.
  set (I := fun q : prot => numberedKeys (map fst (pm q)) (nextId q)).
  assert (Hb : forall kind r q t, In kind structuredKinds -> I q ->
             I (fst (replaceWith r (fun q0 (_ : jstring) m (_ : jstring) =>
                                      Structured.protectBlock kind q0 m) q t))).
  { intros kind r q t Hk Hq. unfold replaceWith.
    apply (replaceLoop_state I); [|exact Hq].
    intros s pre m post Hs. apply protectBlock_numberedKeys; assumption. }
  assert (H0 : I (fst (Structured.protectMultiLineBlocks text p))).
  { unfold Structured.protectMultiLineBlocks.
    pose proof (Hb (js "__MULTILINE_BLOCK_") codeBlockRe p text
                  ltac:(unfold structuredKinds; simpl; auto) H) as H1.
    destruct (replaceWith codeBlockRe _ p text) as [p1 t1]. cbn [fst] in H1.
    pose proof (Hb (js "__HTML_BLOCK_") htmlBlockRe p1 t1
                  ltac:(unfold structuredKinds; simpl; auto) H1) as H2.
    destruct (replaceWith htmlBlockRe _ p1 t1) as [p2 t2]. cbn [fst] in H2.
    apply Hb; [unfold structuredKinds; simpl; auto|exact H2]. }
  revert H0. generalize (Structured.protectMultiLineBlocks text p).
  generalize Structured.patterns. intros pats.
  induction pats as [|r pats IH]; intros acc Hacc; [exact Hacc|].
  cbn [fold_left]. apply IH. unfold replaceWith.
  apply (replaceLoop_state I); [|exact Hacc].
  intros s pre m post Hs. apply structured_protectMatch_numberedKeys. exact Hs.
Qed.

Lemma structured_processBatches_numberedKeys (m : string) (batches : list jstring) :
  forall p, numberedKeys (map fst (pm p)) (nextId p) ->
  numberedKeys (map fst (pm (fst (Structured.processBatches m batches p))))
               (nextId (fst (Structured.processBatches m batches p))).
Proof.
  induction batches as [|batch batches IH]; intros p H; [exact H|].
  cbn [Structured.processBatches].
  pose proof (protectStructureAndContent_numberedKeys batch p H) as H1.
  assert (E : fst (Structured.processBatch m batch p) =
              fst (Structured.protectStructureAndContent batch p)).
  { unfold Structured.processBatch.
    destruct (Structured.protectStructureAndContent batch p). reflexivity. }
  rewrite <- E in H1.
  destruct (Structured.processBatch m batch p) as [p1 out]. cbn [fst] in H1.
  specialize (IH p1 H1). destruct (Structured.processBatches m batches p1) as [p2 outs].
  exact IH.
Qed.

Lemma numberedKeys_NoDup (keys : list jstring) (next : N) :
  numberedKeys keys next -> NoDup keys.
Proof.
  intros (_ & _ & Hn). apply (proj2 (NoDup_nth_error keys)).
  intros i j Hi E.
  destruct (nth_error keys i) as [k|] eqn:Ei;
    [|apply nth_error_None in Ei; lia].
  symmetry in E. destruct (Hn i k Ei) as (k1 & Hk1 & E1).
  destruct (Hn j k E) as (k2 & Hk2 & E2).
  rewrite E1 in E2. apply (structuredKey_inj _ _ Hk1 Hk2) in E2. lia.
Qed.

(** After a run of the structure-preserving variant on an input that is
    not blank, the key at place i of the table is a token of one of the
    three kinds with the number i, the counter is the next number, and
    no two keys are equal: blocks, structural lines and spans of all
    batches draw their numbers from one counter and no entry is
    overwritten. *)
Theorem structured_tokens_numbered (a : app) :
  truthy (trim (inputText a)) = true ->
  let a' := Structured.processText a in
  numberedKeys (map fst (protectedMap a')) (nextTokenId a') /\
  NoDup (map fst (protectedMap a')).
Proof.
  intros Ht a'.
  assert (H : numberedKeys (map fst (protectedMap a')) (nextTokenId a')).
  { unfold a', Structured.processText. rewrite Ht. cbn [negb]. unfold Structured.run.
    assert (H0 : numberedKeys (map fst (pm (Prot [] 1))) (nextId (Prot [] 1))).
    { split; [reflexivity|]. split; [reflexivity|]. intros [|i] k Hi; discriminate. }
    pose proof (structured_processBatches_numberedKeys (mode a)
                  (splitIntoBatches (inputText a)) _ H0) as H.
    destruct (Structured.processBatches _ _ _) as [p outs]. cbn [fst] in H.
    unfold verifyContentIntegrity, showWarning, updateOutputStats.
    destruct (negb _ || negb _ || negb _); cbn [nextTokenId protectedMap]; exact H. }
  split; [exact H|exact (numberedKeys_NoDup H)].
Qed.

Lemma structured_tokens_numbered_witness :
  truthy (trim (inputText (page "A" (js "# Title" ++ [NL] ++ js "see `x`")))) = true /\
  let a' := Structured.processText (page "A" (js "# Title" ++ [NL] ++ js "see `x`")) in
  numberedKeys (map fst (protectedMap a')) (nextTokenId a') /\
  NoDup (map fst (protectedMap a')).
Proof.
  split; [reflexivity|].
  apply (@structured_tokens_numbered (page "A" (js "# Title" ++ [NL] ++ js "see `x`"))).
  reflexivity.
Defined.

(** ** The final cleanup of the structure-preserving variant *)

Lemma dropTrailingEmpty_id (l : list jstring) :
  forallb truthy l = true -> dropTrailingEmpty l = l.
Proof.
  intros H. unfold dropTrailingEmpty.
  destruct (rev l) as [|x r] eqn:E; [cbn; apply (f_equal (@rev _)) in E;
    rewrite rev_involutive in E; exact (eq_sym E)|].
  assert (Hx : truthy x = true).
  { rewrite forallb_forall in H. apply H. apply in_rev. rewrite E. simpl. auto. }
  destruct x as [|c x]; [discriminate|]. cbn [dropLeadingEmpty].
  rewrite <- E. apply rev_involutive.
Qed.

(** What [cleanLine] keeps: a line that is not empty, holds no line feed
    and is kept as it is by another [cleanLine]. *)
Lemma cleanLine_kept (acc : list jstring) (line : jstring) :
  ~ In NL line ->
  Structured.cleanLine acc line = acc \/
  exists l, Structured.cleanLine acc line = acc ++ [l] /\
            truthy l = true /\ ~ In NL l /\
            forall acc', Structured.cleanLine acc' l = acc' ++ [l].
Proof.
  intros Hnl. unfold Structured.cleanLine.
  destruct (hasMarker line) eqn:Hm; cbn [negb andb orb].
  - right. exists line. rewrite orb_true_r. split; [reflexivity|].
    split; [destruct line; [discriminate|reflexivity]|]. split; [exact Hnl|].
    intros acc'. rewrite Hm. cbn [negb andb]. rewrite orb_true_r. reflexivity.
  - destruct (truthy (trim line)) eqn:Ht.
    + right. unfold spacesRe, chr. rewrite replaceStr_plus_class by reflexivity.
      set (l := trim (collapse (N.eqb SP) [SP] false line)).
      destruct (collapsed_trimmed (N.eqb SP) line eq_refl) as (_ & _ & Htr & Hfix).
      fold l in Htr, Hfix.
      assert (Hl : truthy l = true).
      { destruct l as [|c r] eqn:El; [|reflexivity]. exfalso.
        apply (stripSpace_nonblank _ Ht).
        rewrite <- (stripSpace_collapse (N.eqb SP) [SP] line false space_isSpace eq_refl).
        rewrite <- stripSpace_trim. fold l. rewrite El. reflexivity. }
      exists l. rewrite Hl. cbn [orb]. split; [reflexivity|]. split; [reflexivity|].
      split.
      * intros Hin. unfold l in Hin. apply trim_In in Hin.
        apply collapse_In in Hin as [Hin|[Hin|[]]]; [exact (Hnl Hin)|discriminate].
      * intros acc'. destruct (hasMarker l) eqn:Hml; cbn [negb andb].
        -- rewrite orb_true_r. reflexivity.
        -- rewrite Htr, Hl. rewrite replaceStr_plus_class by reflexivity.
           rewrite Hfix, Hl. reflexivity.
    + destruct (truthy line) eqn:Htl; cbn [orb]; [|left; reflexivity].
      right. exists line. split; [reflexivity|]. split; [exact Htl|]. split; [exact Hnl|].
      intros acc'. rewrite Hm, Ht. cbn [negb andb]. rewrite Htl. reflexivity.
Qed.

Lemma cleanLine_fold (lines : list jstring) :
  (forall l, In l lines -> ~ In NL l) ->
  forall acc,
  exists kept,
    fold_left Structured.cleanLine lines acc = acc ++ kept /\
    Forall (fun l => truthy l = true /\ ~ In NL l /\
                     forall acc', Structured.cleanLine acc' l = acc' ++ [l]) kept.
Proof.
  induction lines as [|line lines IH]; intros Hnl acc.
  - exists []. split; [symmetry; apply app_nil_r|constructor].
  - cbn [fold_left].
    assert (Hnl' : forall l, In l lines -> ~ In NL l) by (intros l Hl; apply Hnl; simpl; auto).
    destruct (cleanLine_kept acc line (Hnl line (or_introl eq_refl)))
      as [E|(l & E & Hl)]; rewrite E.
    + exact (IH Hnl' acc).
    + destruct (IH Hnl' (acc ++ [l])) as (kept & Ek & Hk).
      exists (l :: kept). split; [rewrite Ek, <- app_assoc; reflexivity|].
      constructor; assumption.
Qed.

Lemma cleanLine_fixed_fold (kept : list jstring) :
  Forall (fun l => forall acc', Structured.cleanLine acc' l = acc' ++ [l]) kept ->
  forall acc, fold_left Structured.cleanLine kept acc = acc ++ kept.
Proof.
  induction 1 as [|l kept Hl _ IH]; intros acc; [symmetry; apply app_nil_r|].
  cbn [fold_left]. rewrite Hl, IH, <- app_assoc. reflexivity.
Qed.

Lemma adjacent_sep (p : char -> bool) (l : jstring) (s c : char) (r : jstring) :
  l <> [] -> (forall x, In x l -> p x = false) -> p c = false ->
  adjacent p (c :: r) = false -> adjacent p (l ++ s :: c :: r) = false.
Proof.
  intros Hne Hl Hc Hr. induction l as [|x l IH]; [congruence|].
  assert (Hx : p x = false) by (apply Hl; simpl; auto).
  cbn [List.app adjacent]. rewrite Hx. cbn [andb orb].
  destruct l as [|y l2].
  - cbn [List.app adjacent]. rewrite Hc, andb_false_r. cbn [orb].
    cbn [adjacent] in Hr. rewrite Hc in Hr. exact Hr.
  - apply IH; [discriminate|]. intros z Hz. apply Hl. simpl. auto.
Qed.

Lemma adjacent_free (p : char -> bool) (l : jstring) :
  (forall x, In x l -> p x = false) -> adjacent p l = false.
Proof.
  induction l as [|c l IH]; intros H; [reflexivity|].
  cbn [adjacent]. rewrite IH by (intros x Hx; apply H; simpl; auto).
  rewrite (H c) by (simpl; auto). reflexivity.
Qed.

Lemma adjacent_lines (ls : list jstring) :
  Forall (fun l => truthy l = true /\ ~ In NL l) ls ->
  adjacent (N.eqb NL) (join [NL] ls) = false /\
  (ls <> [] -> exists c r, join [NL] ls = c :: r /\ c <> NL).
Proof.
  assert (Hp : forall l : jstring, ~ In NL l -> forall x, In x l -> N.eqb NL x = false).
  { intros l H x Hx. destruct (N.eqb_spec NL x) as [<-|_]; [contradiction|reflexivity]. }
  induction 1 as [|l ls [Hl Hnl] Hrest [IH1 IH2]].
  - split; [reflexivity|congruence].
  - assert (Hhead : exists c r, l = c :: r /\ c <> NL).
    { destruct l as [|c r]; [discriminate|]. exists c, r. split; [reflexivity|].
      intros ->. apply Hnl. simpl. auto. }
    destruct ls as [|l1 ls1].
    + cbn [join]. split; [exact (@adjacent_free _ _ (Hp l Hnl))|intros _; exact Hhead].
    + change (join [NL] (l :: l1 :: ls1)) with (l ++ NL :: join [NL] (l1 :: ls1)).
      split.
      * destruct (IH2 ltac:(discriminate)) as (c & r & E & Hc). rewrite E in IH1 |- *.
        apply adjacent_sep; [destruct l; [discriminate|discriminate]|exact (Hp l Hnl)| |exact IH1].
        destruct (N.eqb_spec NL c) as [Ec|_]; [congruence|reflexivity].
      * intros _. destruct Hhead as (c & r & -> & Hc).
        exists c, (r ++ NL :: join [NL] (l1 :: ls1)). split; [reflexivity|exact Hc].
Qed.

(** [finalCleanupWithStructure]: every line it keeps is not empty, so its
    last loop, which drops empty lines at the end, never runs; the result
    holds no two adjacent line feeds, which means that the blank lines the
    mode engines keep between paragraphs are removed here; and a second
    application changes nothing. *)
Theorem finalCleanupWithStructure_result (text : jstring) :
  let kept := fold_left Structured.cleanLine (splitOn NL text) [] in
  let out := Structured.finalCleanupWithStructure text in
  forallb truthy kept = true /\
  out = join [NL] kept /\
  includes out [NL; NL] = false /\
  Structured.finalCleanupWithStructure out = out.
Proof.
  intros kept out.
  destruct (cleanLine_fold (splitOn NL text) (splitOn_free NL text) [])
    as (k & Ek & Hk).
  cbn [List.app] in Ek. fold kept in Ek. subst k.
  assert (Ht : forallb truthy kept = true).
  { apply forallb_forall. intros l Hl. rewrite Forall_forall in Hk.
    exact (proj1 (Hk l Hl)). }
  assert (Eo : out = join [NL] kept).
  { unfold out, Structured.finalCleanupWithStructure. fold kept.
    rewrite dropTrailingEmpty_id by exact Ht. reflexivity. }
  split; [exact Ht|]. split; [exact Eo|]. split.
  - rewrite includes_two, Eo. apply adjacent_lines.
    apply Forall_forall. intros l Hl. rewrite Forall_forall in Hk.
    destruct (Hk l Hl) as (H1 & H2 & _). auto.
  - rewrite Eo. unfold Structured.finalCleanupWithStructure.
    destruct kept as [|l0 kept0] eqn:Ekept; [reflexivity|].
    rewrite splitOn_join;
      [|discriminate|intros l Hl; rewrite Forall_forall in Hk; exact (proj1 (proj2 (Hk l Hl)))].
    rewrite cleanLine_fixed_fold.
    + cbn [List.app]. rewrite dropTrailingEmpty_id by exact Ht. reflexivity.
    + apply Forall_forall. intros l Hl. rewrite Forall_forall in Hk.
      exact (proj2 (proj2 (Hk l Hl))).
Qed.

(** ** Repeated clicks *)

Ltac projs :=
  cbn [inputText outputText copyDisabled mode protectedMap nextTokenId warningShown
       warningText outputWordCount outputCharCount lineBreaksRemoved wordMatch
       charMatch contentMatch isMatch title pm nextId negb orb andb].

(** The page after the last two steps of [processText], field by field. *)
Lemma verified_page (input output : jstring) (a : app) :
  verifyContentIntegrity input output (updateOutputStats input output a) =
  let failed := negb (wordsAgree input output) || negb (charsAgree input output)
                || negb (contentVerified input output) in
  App (inputText a) (outputText a) (copyDisabled a) (mode a)
      (protectedMap a) (nextTokenId a)
      (if failed then true else warningShown a)
      (if failed then js "Content verification failed. Review output carefully."
       else warningText a)
      (js "Words: " ++ natStr (wordCount output))
      (js "Chars: " ++ natStr (length output))
      (js "Line breaks removed: " ++
         natStr (length (splitOn NL input) - length (splitOn NL output)))
      (updateVerificationIndicator (wordMatch a) (wordsAgree input output)
         (js "Word count mismatch"))
      (updateVerificationIndicator (charMatch a) (charsAgree input output)
         (js "Character count mismatch"))
      (updateVerificationIndicator (contentMatch a) (contentVerified input output)
         (js "Content alteration detected")).
Proof.
  destruct a as [i o cd m pmap0 nid ws wt owc occ lbr wm cm ctm].
  unfold updateOutputStats. projs. unfold verifyContentIntegrity. projs.
  cbv zeta.
  destruct (negb (wordsAgree input output) || negb (charsAgree input output)
            || negb (contentVerified input output)); reflexivity.
Qed.

Lemma updateVerificationIndicator_twice (e : indicator) (ok : bool) (w : jstring) :
  updateVerificationIndicator (updateVerificationIndicator e ok w) ok w =
  updateVerificationIndicator e ok w.
Proof. destruct ok; reflexivity. Qed.

(** script.js: a second click on Process with the input and the mode
    unchanged leaves the whole page as the first click left it (output,
    statistics, indicators and their titles, banner, table and counter);
    and a click on Process right after Clear leaves the cleared page. *)
Theorem processText_again (a : app) :
  Script.processText (Script.processText a) = Script.processText a /\
  Script.processText (fst (clearInput a)) = fst (clearInput a).
Proof.
  split; [|reflexivity].
  destruct a as [i o cd m pmap0 nid ws wt owc occ lbr wm cm ctm].
  set (a := App i o cd m pmap0 nid ws wt owc occ lbr wm cm ctm).
  destruct (truthy (trim i)) eqn:Ht.
  - destruct (Script.run m (trim i)) as [p output] eqn:Er.
    assert (E : Script.processText a =
                verifyContentIntegrity (trim i) output
                  (updateOutputStats (trim i) output
                     (App i output false m (pm p) (nextId p) ws wt owc occ lbr wm cm ctm))).
    { unfold Script.processText, a. projs. rewrite Ht, Er. reflexivity. }
    rewrite E, verified_page. cbv zeta. projs.
    unfold Script.processText. projs. rewrite Ht, Er. projs.
    rewrite verified_page. cbv zeta. projs.
    rewrite !updateVerificationIndicator_twice.
    destruct (negb (wordsAgree (trim i) output) || negb (charsAgree (trim i) output)
              || negb (contentVerified (trim i) output)); reflexivity.
  - assert (E : Script.processText a =
                App i [] cd m pmap0 nid ws wt owc occ lbr wm cm ctm).
    { unfold Script.processText, a. projs. rewrite Ht. reflexivity. }
    rewrite E. unfold Script.processText. projs. rewrite Ht. reflexivity.
Qed.

(** ** The hard normalization of the structure-preserving variant *)

Lemma trim_tidy (line : jstring) : truthy (trim line) = true -> tidy (trim line).
Proof.
  intros H. destruct (trim line) as [|c r] eqn:E; [discriminate|].
  destruct (trim_ends _ E) as [H1 H2]. repeat split; [discriminate|exact H1|exact H2].
Qed.

Lemma tidy_trim (x : jstring) : tidy x -> trim x = x /\ truthy x = true.
Proof.
  intros (Hne & H1 & H2). split; [exact (trim_id _ H1 H2)|].
  destruct x; [congruence|reflexivity].
Qed.

Lemma join_tidy (c : list jstring) :
  c <> [] -> Forall tidy c -> tidy (join [SP] c).
Proof.
  intros Hne H. induction H as [|x l Hx Hl IH]; [congruence|].
  destruct l as [|y l1]; [exact Hx|].
  change (join [SP] (x :: y :: l1)) with (x ++ SP :: join [SP] (y :: l1)).
  destruct Hx as (Hxn & Hx1 & Hx2).
  destruct (IH ltac:(discriminate)) as (Hjn & Hj1 & Hj2).
  repeat split.
  - destruct x; [congruence|discriminate].
  - destruct x; [congruence|exact Hx1].
  - rewrite last_app_right by discriminate.
    destruct (join [SP] (y :: l1)) as [|d r] eqn:Ej; [congruence|exact Hj2].
Qed.

Lemma fuseC_push (result : list jstring) (l : jstring) :
  result = [] \/ hasMarker (last result []) = true ->
  hasMarker l = true \/ tidy l ->
  Structured.fuseC result l = result ++ [l].
Proof.
  intros Hr Hl. unfold Structured.fuseC.
  destruct (hasMarker l) eqn:Hm; [reflexivity|].
  destruct Hl as [Hl|Hl]; [discriminate|].
  destruct (tidy_trim Hl) as [Et Htr]. rewrite Et, Htr.
  destruct Hr as [->|Hr]; [reflexivity|]. rewrite Hr.
  rewrite andb_false_r. reflexivity.
Qed.

Lemma fuseC_flush (p c : list jstring) :
  fold_left Structured.fuseC p [] = p ->
  p = [] \/ hasMarker (last p []) = true ->
  Forall tidy c ->
  fold_left Structured.fuseC (flush p c) [] = flush p c.
Proof.
  intros Hp Hlast Hc. destruct c as [|x c]; [exact Hp|].
  cbn [flush]. rewrite fold_left_app, Hp. cbn [fold_left].
  apply fuseC_push; [exact Hlast|]. right. apply join_tidy; [discriminate|exact Hc].
Qed.

Lemma stepC_fold (lines : list jstring) :
  forall p c,
  fold_left Structured.fuseC p [] = p ->
  p = [] \/ hasMarker (last p []) = true ->
  Forall tidy c ->
  let (p', c') := fold_left Structured.stepC lines (p, c) in
  fold_left Structured.fuseC p' [] = p' /\
  (p' = [] \/ hasMarker (last p' []) = true) /\ Forall tidy c'.
Proof.
  induction lines as [|line lines IH]; intros p c Hp Hlast Hc; [cbn; auto|].
  cbn [fold_left]. unfold Structured.stepC at 2.
  destruct (hasMarker line) eqn:Hm.
  - apply IH; [| |constructor].
    + rewrite fold_left_app, (fuseC_flush Hp Hlast Hc). cbn [fold_left].
      unfold Structured.fuseC. rewrite Hm. reflexivity.
    + right. rewrite last_last. exact Hm.
  - destruct (truthy (trim line)) eqn:Ht; apply IH; try assumption.
    apply Forall_app. split; [exact Hc|]. constructor; [|constructor].
    exact (trim_tidy _ Ht).
Qed.

(** [processModeCWithStructure]: the second loop returns the list it is
    given.  The first loop has joined every run of text lines into one
    line that is neither blank nor padded, and two such lines are always
    parted by a structural line, so the branch of the second loop that
    appends a text line to the line before it is never taken. *)
Theorem processModeCWithStructure_second_loop (text : jstring) :
  let processedLines :=
    (let (p, c) := fold_left Structured.stepC (splitOn NL text) ([], []) in
     flush p c) in
  fold_left Structured.fuseC processedLines [] = processedLines /\
  Structured.processModeCWithStructure text = join [NL] processedLines.
Proof.
  unfold Structured.processModeCWithStructure.
  pose proof (@stepC_fold (splitOn NL text) [] [] eq_refl (or_introl eq_refl)
                (Forall_nil _)) as H.
  destruct (fold_left Structured.stepC (splitOn NL text) ([], [])) as [p c].
  destruct H as (Hp & Hlast & Hc). cbv zeta.
  rewrite (fuseC_flush Hp Hlast Hc). split; reflexivity.
Qed.

Lemma splitOn_chars (d : char) (s : jstring) (l : jstring) (c : char) :
  In l (splitOn d s) -> In c l -> In c s.
Proof.
  revert l. induction s as [|x s IH]; intros l Hl Hc.
  - simpl in Hl. destruct Hl as [<-|[]]. exact Hc.
  - cbn [splitOn] in Hl. destruct (N.eqb x d) eqn:E.
    + destruct Hl as [<-|Hl]; [destruct Hc|]. right. exact (IH l Hl Hc).
    + destruct (splitOn d s) as [|y ys] eqn:Es.
      * destruct Hl as [<-|[]]. destruct Hc as [<-|[]]. left. reflexivity.
      * destruct Hl as [<-|Hl].
        -- destruct Hc as [<-|Hc]; [left; reflexivity|]. right.
           apply (IH y); [left; reflexivity|exact Hc].
        -- right. apply (IH l); [right; exact Hl|exact Hc].
Qed.

Lemma hasMarker_underscore (line : jstring) : hasMarker line = true -> In 95%N line.
Proof.
  unfold hasMarker. intros H.
  apply orb_true_iff in H as [H|H]; [apply orb_true_iff in H as [H|H]|];
    apply (includes_cons_In _ _ _ H).
Qed.

Lemma stepC_prose (lines : list jstring) :
  (forall l, In l lines -> hasMarker l = false) ->
  forall p c,
  fold_left Structured.stepC lines (p, c) = (p, c ++ filter truthy (map trim lines)).
Proof.
  induction lines as [|line lines IH]; intros H p c;
    [cbn; rewrite app_nil_r; reflexivity|].
  cbn [fold_left map filter]. unfold Structured.stepC at 2.
  rewrite (H line (or_introl eq_refl)).
  assert (H' : forall l, In l lines -> hasMarker l = false) by (intros l Hl; apply H; right; exact Hl).
  destruct (truthy (trim line)); rewrite (IH H'); [rewrite <- app_assoc|]; reflexivity.
Qed.

(** [processModeCWithStructure] on a text without underscore, hence
    without token: the lines that are not blank, trimmed and joined by
    single spaces, on one line. *)
Theorem processModeCWithStructure_prose (text : jstring) :
  ~ In 95%N text ->
  Structured.processModeCWithStructure text =
    join [SP] (filter truthy (map trim (splitOn NL text))) /\
  ~ In NL (Structured.processModeCWithStructure text).
Proof.
  intros Hu.
  assert (Hm : forall l, In l (splitOn NL text) -> hasMarker l = false).
  { intros l Hl. destruct (hasMarker l) eqn:E; [|reflexivity]. exfalso.
    apply Hu. exact (splitOn_chars NL text l _ Hl (hasMarker_underscore _ E)). }
  assert (E : Structured.processModeCWithStructure text =
              join [SP] (filter truthy (map trim (splitOn NL text)))).
  { pose proof (@stepC_fold (splitOn NL text) [] [] eq_refl (or_introl eq_refl)
                  (Forall_nil _)) as H.
    unfold Structured.processModeCWithStructure.
    rewrite (stepC_prose (splitOn NL text) Hm) in H |- *. cbn [List.app] in H |- *.
    destruct H as (_ & _ & Hc).
    rewrite (@fuseC_flush [] _ eq_refl (or_introl eq_refl) Hc).
    destruct (filter truthy (map trim (splitOn NL text))); reflexivity. }
  split; [exact E|]. rewrite E. intros Hin.
  apply join_In in Hin as [Hin|(x & Hx & Hin)].
  - destruct Hin as [Hin|[]]. discriminate.
  - apply filter_In in Hx as [Hx _]. apply in_map_iff in Hx as (l & <- & Hl).
    apply trim_In in Hin. exact (splitOn_free _ _ _ Hl Hin).
Qed.

Lemma processModeCWithStructure_prose_witness :
  Structured.processModeCWithStructure (js "  one " ++ [NL] ++ [NL] ++ js "two  three") =
    js "one two  three".
Proof.
  apply (processModeCWithStructure_prose (js "  one " ++ [NL] ++ [NL] ++ js "two  three")).
  vm_compute. intros H. repeat (destruct H as [H|H]; [discriminate|]). exact H.
Defined.


(** ** The three mode engines on a paragraph of plain text *)

Lemma stepA_prose (lines : list jstring) :
  (forall l, In l lines -> hasMarker l = false /\ truthy (trim l) = true) ->
  forall p c,
  fold_left Structured.stepA lines (p, c) = (p, c ++ map trim lines).
Proof.
  induction lines as [|line lines IH]; intros H p c;
    [cbn; rewrite app_nil_r; reflexivity|].
  cbn [fold_left map]. unfold Structured.stepA at 2.
  destruct (H line (or_introl eq_refl)) as [Hm Ht]. unfold isEmpty.
  rewrite Hm, Ht. cbn [negb orb].
  rewrite IH by (intros l Hl; apply H; right; exact Hl).
  rewrite <- app_assoc. reflexivity.
Qed.

Lemma filter_all (A : Type) (f : A -> bool) (l : list A) :
  (forall x, In x l -> f x = true) -> filter f l = l.
Proof.
  induction l as [|x l IH]; intros H; [reflexivity|].
  cbn [filter]. rewrite (H x (or_introl eq_refl)), IH; [reflexivity|].
  intros y Hy. apply H. right. exact Hy.
Qed.

(** The structure-preserving variant on a text without underscore (hence
    without token) and without blank line, as a batch of plain text is:
    the three mode engines return the same text, the lines trimmed and
    joined by single spaces. *)
Theorem modes_agree_on_plain_paragraph (text : jstring) :
  ~ In 95%N text ->
  forallb (fun l => truthy (trim l)) (splitOn NL text) = true ->
  let joined := join [SP] (map trim (splitOn NL text)) in
  Structured.processModeAWithStructure text = joined /\
  Structured.processModeBWithStructure text = joined /\
  Structured.processModeCWithStructure text = joined.
Proof.
  intros Hu Hb joined. rewrite forallb_forall in Hb.
  assert (Hm : forall l, In l (splitOn NL text) -> hasMarker l = false).
  { intros l Hl. destruct (hasMarker l) eqn:E; [|reflexivity]. exfalso.
    apply Hu. exact (splitOn_chars NL text l _ Hl (hasMarker_underscore _ E)). }
  assert (HA : Structured.processModeAWithStructure text = joined).
  { unfold Structured.processModeAWithStructure.
    rewrite stepA_prose by (intros l Hl; split; [exact (Hm l Hl)|exact (Hb l Hl)]).
    cbn [List.app]. unfold joined.
    destruct (splitOn NL text) as [|l ls] eqn:Es; [exfalso; exact (splitOn_nonempty _ _ Es)|].
    cbn [map flush List.app].
    assert (Hj : join [SP] (trim l :: map trim ls) <> []).
    { assert (Hl : truthy (trim l) = true) by (apply Hb; left; reflexivity).
      destruct (trim l) as [|c r]; [discriminate|].
      destruct (map trim ls); discriminate. }
    destruct (join [SP] (trim l :: map trim ls)) as [|c r] eqn:Ej; [congruence|].
    reflexivity. }
  split; [exact HA|]. split; [rewrite <- processModeA_processModeB; exact HA|].
  pose proof (@stepC_fold (splitOn NL text) [] [] eq_refl (or_introl eq_refl)
                (Forall_nil _)) as H.
  unfold Structured.processModeCWithStructure.
  rewrite (stepC_prose (splitOn NL text) Hm) in H |- *. cbn [List.app] in H |- *.
  destruct H as (_ & _ & Hc).
  rewrite (@fuseC_flush [] _ eq_refl (or_introl eq_refl) Hc).
  unfold joined. rewrite filter_all.
  - destruct (map trim (splitOn NL text)); reflexivity.
  - intros x Hx. apply in_map_iff in Hx as (l & <- & Hl). exact (Hb l Hl).
Qed.

Lemma modes_agree_on_plain_paragraph_witness :
  Structured.processModeAWithStructure (js "one  two " ++ [NL] ++ js " three") =
    js "one  two three" /\
  Structured.processModeCWithStructure (js "one  two " ++ [NL] ++ js " three") =
    js "one  two three".
Proof.
  destruct (modes_agree_on_plain_paragraph (js "one  two " ++ [NL] ++ js " three"))
    as (HA & _ & HC).
  - vm_compute. intros H. repeat (destruct H as [H|H]; [discriminate|]). exact H.
  - reflexivity.
  - split; [exact HA|exact HC].
Defined.
